(** * prun: a shallow embedding of the task supervisor

    The development follows the Go packages of the program:
    - [config]  : the manifest data model, [Load] and [GetTasksToRun];
    - [filepath]: the two functions of Go's path/filepath the watcher uses;
    - [bufio]   : the line scanner behind [streamOutput];
    - [runner]  : [runTask], [streamOutput] and the fan-out of [Runner.Run];
    - [watcher] : directory registration, the debounce loop, restart pulses;
    - [cli]     : the flag sets of the two [main]s of the tree;
    - [spec]    : the wording of the specification where a theorem compares
                  the program with it;
    - [samples] : the manifests, trees and inputs the examples use;
    - [restart] : the goroutines [Watcher.Start] starts, each in the loop of
                  [runTaskWithRestart];
    - [ui]      : the dashboard, [Update] and the layout of [View];
    - [prun]    : [main], from the command line to the supervisor;
    - [text], [supervision], [completion], [validity], [watching],
      [dashboard]: the notions the theorems about these packages are stated
                  with.

    Go maps are [gmap]s, slices are lists, [error] values are their
    messages, and a function returning [(T, error)] returns a [result]. *)

From Stdlib Require Import ZArith Lia Ascii String.
From stdpp Require Import gmap strings list fin_maps pretty.

Set Warnings "-register-all,-clear-no-such-hyp,-abstract-large-number".
Open Scope string_scope.

(** Go's [error]: only the message is observable in this program. *)
Definition error := string.

(** A Go function returning [(T, error)] with exactly one of them set. *)
Inductive result (A : Type) : Type :=
| Ok (a : A)
| Err (e : error).
Arguments Ok {A} a.
Arguments Err {A} e.

Definition bind {A B} (r : result A) (k : A -> result B) : result B :=
  match r with Ok a => k a | Err e => Err e end.

Notation "'let?' x ':=' r 'in' k" := (bind r (fun x => k))
  (at level 10, x name, r at level 200, k at level 200).

(** ** Package config *)
Module config.

(** The values of a TOML document, as the decoder sees them. Floats and
    datetimes are kept as their source text: no field of the manifest takes
    them. *)
Inductive toml_value : Type :=
| TString (s : string)
| TInteger (z : Z)
| TBool (b : bool)
| TFloat (repr : string)
| TDatetime (repr : string)
| TArray (items : list toml_value)
| TTable (fields : list (string * toml_value)).

(** A TOML table: keys in document order (TOML forbids duplicate keys). *)
Definition table := list (string * toml_value).

(** TaskDef represents a single task configuration.
    [Restart] is Go's [interface{}] (nil, or any decoded TOML value) and
    [Shell] is [*bool]. *)
Record TaskDef : Type := mkTaskDef {
  Cmd : string;
  Path : string;
  Env : gmap string string;
  Restart : option toml_value;
  Shell : option bool;
  (** Modelled from the spec: the [watch] key of a task table (bool,
      default false), read by the watcher and by [main] as [taskDef.Watch];
      config.go declares the other five fields only. *)
  Watch : bool
}.

(** Config represents the prun.toml configuration. *)
Record Config : Type := mkConfig {
  Tasks : list string;
  TaskDefs : gmap string TaskDef
}.

(** Go's zero value of [TaskDef], which a map lookup of a missing key gives. *)
Definition zeroTaskDef : TaskDef :=
  mkTaskDef "" "" ∅ None None false.

Definition lookupTaskDef (c : Config) (name : string) : TaskDef :=
  default zeroTaskDef (TaskDefs c !! name).

(** *** toml.Unmarshal into [Config]

    The decoder of BurntSushi/toml, restricted to the destination types of
    [Config]: a key is matched against the struct tags (as manifests spell
    them, in lower case), a key with no field is skipped, a value of the wrong
    TOML type is an error, and the entries of a table are added to the map
    that is already there. *)
Definition type_name (v : toml_value) : string :=
  match v with
  | TString _ => "string"
  | TInteger _ => "int64"
  | TBool _ => "bool"
  | TFloat _ => "float64"
  | TDatetime _ => "datetime"
  | TArray _ => "slice"
  | TTable _ => "map"
  end.

Definition incompatible {A} (v : toml_value) (dst : string) : result A :=
  Err ("toml: incompatible types: TOML value has type " +:+ type_name v
       +:+ "; destination has type " +:+ dst).

Definition unify_string (v : toml_value) : result string :=
  match v with TString s => Ok s | _ => incompatible v "string" end.

Definition unify_bool (v : toml_value) : result bool :=
  match v with TBool b => Ok b | _ => incompatible v "boolean" end.

Fixpoint unify_string_slice (items : list toml_value) : result (list string) :=
  match items with
  | [] => Ok []
  | v :: rest =>
      let? s := unify_string v in
      let? ss := unify_string_slice rest in
      Ok (s :: ss)
  end.

Fixpoint unify_string_map (fields : table) (acc : gmap string string)
  : result (gmap string string) :=
  match fields with
  | [] => Ok acc
  | (k, v) :: rest =>
      let? s := unify_string v in
      unify_string_map rest (<[k:=s]> acc)
  end.

(** One key of a [task.<name>] table stored into its field. *)
Definition unify_TaskDef_field (td : TaskDef) (key : string) (v : toml_value)
  : result TaskDef :=
  if String.eqb key "cmd" then
    let? s := unify_string v in
    Ok (mkTaskDef s (Path td) (Env td) (Restart td) (Shell td) (Watch td))
  else if String.eqb key "path" then
    let? s := unify_string v in
    Ok (mkTaskDef (Cmd td) s (Env td) (Restart td) (Shell td) (Watch td))
  else if String.eqb key "env" then
    match v with
    | TTable fields =>
        let? m := unify_string_map fields ∅ in
        Ok (mkTaskDef (Cmd td) (Path td) m (Restart td) (Shell td) (Watch td))
    | _ => incompatible v "map"
    end
  else if String.eqb key "restart" then
    Ok (mkTaskDef (Cmd td) (Path td) (Env td) (Some v) (Shell td) (Watch td))
  else if String.eqb key "shell" then
    let? b := unify_bool v in
    Ok (mkTaskDef (Cmd td) (Path td) (Env td) (Restart td) (Some b) (Watch td))
  else if String.eqb key "watch" then
    let? b := unify_bool v in
    Ok (mkTaskDef (Cmd td) (Path td) (Env td) (Restart td) (Shell td) b)
  else Ok td.

Fixpoint unify_TaskDef (fields : table) (td : TaskDef) : result TaskDef :=
  match fields with
  | [] => Ok td
  | (k, v) :: rest =>
      let? td' := unify_TaskDef_field td k v in
      unify_TaskDef rest td'
  end.

Fixpoint unify_TaskDefs (fields : table) (acc : gmap string TaskDef)
  : result (gmap string TaskDef) :=
  match fields with
  | [] => Ok acc
  | (name, TTable tfields) :: rest =>
      let? td := unify_TaskDef tfields zeroTaskDef in
      unify_TaskDefs rest (<[name:=td]> acc)
  | (_, v) :: _ => incompatible v "config.TaskDef"
  end.

Definition unify_Config_field (cfg : Config) (key : string) (v : toml_value)
  : result Config :=
  if String.eqb key "tasks" then
    match v with
    | TArray items =>
        let? ts := unify_string_slice items in
        Ok (mkConfig ts (TaskDefs cfg))
    | _ => incompatible v "slice"
    end
  else if String.eqb key "task" then
    match v with
    | TTable fields =>
        let? defs := unify_TaskDefs fields (TaskDefs cfg) in
        Ok (mkConfig (Tasks cfg) defs)
    | _ => incompatible v "map"
    end
  else Ok cfg.

Fixpoint unify_Config (fields : table) (cfg : Config) : result Config :=
  match fields with
  | [] => Ok cfg
  | (k, v) :: rest =>
      let? cfg' := unify_Config_field cfg k v in
      unify_Config rest cfg'
  end.

(** What a path holds: text that is not TOML (with the parser's message), or
    text that parses to a top-level table. *)
Inductive file_text : Type :=
| Malformed (msg : error)
| Document (top : table).

(** The files [os.ReadFile] can read, by path. *)
Abbreviation files := (gmap string file_text).

Definition toml_Unmarshal (data : file_text) (cfg : Config) : result Config :=
  match data with
  | Malformed msg => Err msg
  | Document top => unify_Config top cfg
  end.

Definition os_ReadFile (fs : files) (path : string) : result file_text :=
  match fs !! path with
  | Some data => Ok data
  | None => Err ("open " +:+ path +:+ ": no such file or directory")
  end.

(** The first loop of [Load]: every listed task has a definition. *)
Fixpoint validate_listed (defs : gmap string TaskDef) (tasks : list string)
  : option error :=
  match tasks with
  | [] => None
  | taskName :: rest =>
      match defs !! taskName with
      | None => Some ("task '" +:+ taskName +:+ "' listed but not defined")
      | Some _ => validate_listed defs rest
      end
  end.

(** The second loop of [Load], over the entries of the map. Go ranges over a
    map in no fixed order; [Load] hands this loop the entries in the order of
    [map_to_list]. *)
Fixpoint validate_cmds (entries : list (string * TaskDef)) : option error :=
  match entries with
  | [] => None
  | (name, task) :: rest =>
      if String.eqb (Cmd task) "" then
        Some ("task '" +:+ name +:+ "' missing required 'cmd' field")
      else validate_cmds rest
  end.

(** Load reads and parses the prun.toml file. *)
Definition Load (fs : files) (configPath : string) : result Config :=
  match os_ReadFile fs configPath with
  | Err err => Err err
  | Ok data =>
      match toml_Unmarshal data (mkConfig [] ∅) with
      | Err err => Err ("failed to parse TOML: " +:+ err)
      | Ok cfg =>
          match validate_listed (TaskDefs cfg) (Tasks cfg) with
          | Some err => Err err
          | None =>
              match validate_cmds (map_to_list (TaskDefs cfg)) with
              | Some err => Err err
              | None => Ok cfg
              end
          end
      end
  end.

(** The loop of [GetTasksToRun]: the first requested task with no
    definition is reported. *)
Fixpoint validate_requested (defs : gmap string TaskDef) (args : list string)
  : option error :=
  match args with
  | [] => None
  | taskName :: rest =>
      match defs !! taskName with
      | None => Some ("task '" +:+ taskName +:+ "' not defined in config")
      | Some _ => validate_requested defs rest
      end
  end.

(** GetTasksToRun returns the list of tasks to run based on config and args. *)
Definition GetTasksToRun (c : Config) (args : list string) : result (list string) :=
  if Nat.eqb (length args) 0 then Ok (Tasks c)
  else
    match validate_requested (TaskDefs c) args with
    | Some err => Err err
    | None => Ok args
    end.

End config.

(** ** Package path/filepath (Unix), as far as the program calls it *)
Module filepath.

Definition Separator : ascii := "/"%char.

Definition IsPathSeparator (c : ascii) : bool := Ascii.eqb c Separator.

Fixpoint drop_seps (cs : list ascii) : list ascii :=
  match cs with
  | c :: rest => if IsPathSeparator c then drop_seps rest else cs
  | [] => []
  end.

Fixpoint take_elem (cs : list ascii) : list ascii :=
  match cs with
  | c :: rest => if IsPathSeparator c then [] else c :: take_elem rest
  | [] => []
  end.

(** Base returns the last element of path. Trailing path separators are
    removed before extracting the last element. If the path is empty, Base
    returns ".". If the path consists entirely of separators, Base returns a
    single separator. *)
Definition Base (path : string) : string :=
  if String.eqb path "" then "."
  else
    let stripped := drop_seps (rev (list_ascii_of_string path)) in
    let last := rev (take_elem stripped) in
    match last with
    | [] => String Separator ""
    | _ => string_of_list_ascii last
    end.

(** The elements of a path between separators, empty ones included. *)
Fixpoint split_go (cs : list ascii) (cur : list ascii) : list string :=
  match cs with
  | [] => [string_of_list_ascii (rev cur)]
  | c :: rest =>
      if IsPathSeparator c then string_of_list_ascii (rev cur) :: split_go rest []
      else split_go rest (c :: cur)
  end.

Definition split (path : string) : list string :=
  split_go (list_ascii_of_string path) [].

(** The lexical pass of Clean over the elements, the kept elements last
    first: empty and "." elements go, ".." removes the element before it, is
    dropped at the root, and is kept at the start of a relative path. *)
Fixpoint clean_elems (rooted : bool) (elems : list string) (kept : list string)
  : list string :=
  match elems with
  | [] => kept
  | e :: rest =>
      if String.eqb e "" || String.eqb e "." then clean_elems rooted rest kept
      else if String.eqb e ".." then
        match kept with
        | top :: below =>
            if String.eqb top ".." then clean_elems rooted rest (e :: kept)
            else clean_elems rooted rest below
        | [] =>
            if rooted then clean_elems rooted rest kept
            else clean_elems rooted rest [e]
        end
      else clean_elems rooted rest (e :: kept)
  end.

Definition join_sep (elems : list string) : string :=
  match elems with
  | [] => ""
  | e :: rest => fold_left (fun acc x => acc +:+ "/" +:+ x) rest e
  end.

(** Clean returns the shortest path name equivalent to path by purely
    lexical processing; the empty result is ".". *)
Definition Clean (path : string) : string :=
  if String.eqb path "" then "."
  else
    let rooted := match path with
                  | String c _ => IsPathSeparator c
                  | EmptyString => false
                  end in
    let kept := rev (clean_elems rooted (split path) []) in
    let out := (if rooted then "/" else "") +:+ join_sep kept in
    if String.eqb out "" then "." else out.

(** Join joins two path elements with a separator and cleans the result;
    empty elements are ignored. *)
Definition Join (dir name : string) : string :=
  if String.eqb dir "" then
    (if String.eqb name "" then "" else Clean name)
  else if String.eqb name "" then Clean dir
  else Clean (dir +:+ "/" +:+ name).

(** The name of a directory entry: not empty, not "." or "..", and without
    a separator. *)
Definition entry_name (nm : string) : Prop :=
  nm ≠ "" ∧ nm ≠ "." ∧ nm ≠ ".."
  ∧ Forall (λ ch, IsPathSeparator ch = false) (list_ascii_of_string nm).

End filepath.

(** ** Package bufio: Scanner with the ScanLines split function *)
Module bufio.

(** An [io.Reader] over a pipe: the chunks successive reads can return, in
    order. A read blocks until data or end of file, so it never returns zero
    bytes without an error. *)
Definition Reader := list string.

Fixpoint str_take (n : nat) (s : string) : string :=
  match n, s with
  | S n', String c rest => String c (str_take n' rest)
  | _, _ => ""
  end.

Fixpoint str_drop (n : nat) (s : string) : string :=
  match n, s with
  | S n', String _ rest => str_drop n' rest
  | _, _ => s
  end.

Inductive read_error : Type :=
| EOF
| ErrTooLong.

(** [Read(p)] with [len(p) = space]: at most [space] bytes of the first
    chunk, or [io.EOF] when nothing is left. *)
Fixpoint Read (r : Reader) (space : nat) : string * option read_error * Reader :=
  match r with
  | [] => ("", Some EOF, [])
  | chunk :: rest =>
      if String.eqb chunk "" then Read rest space
      else
        let got := str_take space chunk in
        let left := str_drop space chunk in
        (got, None, if String.eqb left "" then rest else left :: rest)
  end.

Definition MaxScanTokenSize : nat := 64 * 1024.
Definition startBufSize : nat := 4096.

(** The fields of [bufio.Scanner] the loop of [Scan] uses. The buffer is kept
    as its length [buf_len] and its live part [data = buf[start:end]], so
    [end] is [start + length data]. *)
Record Scanner : Type := mkScanner {
  r : Reader;
  maxTokenSize : nat;
  token : string;
  buf_len : nat;
  start : nat;
  data : string;
  err : option read_error
}.

Definition buf_end (s : Scanner) : nat := start s + String.length (data s).

Definition NewScanner (rd : Reader) : Scanner :=
  mkScanner rd MaxScanTokenSize "" 0 0 "" None.

Fixpoint IndexByte (s : string) (c : ascii) : option nat :=
  match s with
  | EmptyString => None
  | String c' rest =>
      if Ascii.eqb c' c then Some 0
      else match IndexByte rest c with
           | Some i => Some (S i)
           | None => None
           end
  end.

Definition CR : ascii := ascii_of_nat 13.
Definition LF : ascii := ascii_of_nat 10.

(** dropCR drops a terminal \r from the data. *)
Fixpoint dropCR (s : string) : string :=
  match s with
  | EmptyString => EmptyString
  | String c EmptyString => if Ascii.eqb c CR then EmptyString else s
  | String c rest => String c (dropCR rest)
  end.

(** ScanLines: [(advance, token)], with [None] for Go's nil token. *)
Definition ScanLines (d : string) (atEOF : bool) : nat * option string :=
  if atEOF && Nat.eqb (String.length d) 0 then (0, None)
  else
    match IndexByte d LF with
    | Some i => (i + 1, Some (dropCR (str_take i d)))
    | None =>
        if atEOF then (String.length d, Some (dropCR d))
        else (0, None)
    end.

(** setErr records the first non-EOF error encountered. *)
Definition setErr (s : Scanner) (e : read_error) : Scanner :=
  match err s with
  | None | Some EOF =>
      mkScanner (r s) (maxTokenSize s) (token s) (buf_len s) (start s) (data s) (Some e)
  | _ => s
  end.

(** The part of the loop body of [Scan] that makes room and reads: shift the
    live data to the front, double the buffer up to [maxTokenSize] (or give up
    with [ErrTooLong] when it is full at that size), then read once.
    [inl] is a return of [false]. *)
Definition shift (s : Scanner) : Scanner :=
  if Nat.ltb 0 (start s)
     && (Nat.eqb (buf_end s) (buf_len s) || Nat.ltb (buf_len s / 2) (start s))
  then mkScanner (r s) (maxTokenSize s) (token s) (buf_len s) 0 (data s) (err s)
  else s.

Definition grow (s : Scanner) : option Scanner :=
  if Nat.eqb (buf_end s) (buf_len s) then
    if Nat.leb (maxTokenSize s) (buf_len s) then None
    else
      let newSize := if Nat.eqb (buf_len s * 2) 0 then startBufSize else buf_len s * 2 in
      let newSize := Nat.min newSize (maxTokenSize s) in
      Some (mkScanner (r s) (maxTokenSize s) (token s) newSize 0 (data s) (err s))
  else Some s.

Definition read_more (s : Scanner) : Scanner :=
  let '(got, e, rd) := Read (r s) (buf_len s - buf_end s) in
  let s' := mkScanner rd (maxTokenSize s) (token s) (buf_len s) (start s)
              (data s +:+ got) (err s) in
  match e with Some e' => setErr s' e' | None => s' end.

Definition fill (s : Scanner) : Scanner + Scanner :=
  let s1 := shift s in
  match grow s1 with
  | None => inl (setErr s1 ErrTooLong)
  | Some s2 => inr (read_more s2)
  end.

(** The first part of the loop body of [Scan]: see if we can get a token
    with what we already have; the flag tells whether the split function
    returned one. *)
Definition try_token (s : Scanner) : Scanner * bool :=
  if Nat.ltb 0 (String.length (data s)) || bool_decide (is_Some (err s)) then
    let at_eof := bool_decide (is_Some (err s)) in
    let advance := fst (ScanLines (data s) at_eof) in
    let tok := snd (ScanLines (data s) at_eof) in
    (mkScanner (r s) (maxTokenSize s) (default "" tok) (buf_len s)
       (start s + advance) (str_drop advance (data s)) (err s),
     bool_decide (is_Some tok))
  else (s, false).

(** Scan advances the Scanner to the next token; [Some (true, s)] when a
    token is available in [token s], [Some (false, s)] when the scan stopped
    (end of input or an error in [err s]), [None] when the iterations of the
    loop exceed [fuel]. *)
Fixpoint Scan (fuel : nat) (s : Scanner) : option (bool * Scanner) :=
  match fuel with
  | O => None
  | S fuel' =>
      let '(s1, found) := try_token s in
      if found then Some (true, s1)
      else if bool_decide (is_Some (err s1)) then
        Some (false, mkScanner (r s1) (maxTokenSize s1) (token s1) (buf_len s1) 0 "" (err s1))
      else
        match fill s1 with
        | inl stopped => Some (false, stopped)
        | inr s2 => Scan fuel' s2
        end
  end.

(** Text returns the most recent token generated by a call to Scan. *)
Definition Text (s : Scanner) : string := token s.

(** Err returns the first non-EOF error that was encountered. *)
Definition Err_ (s : Scanner) : option read_error :=
  match err s with
  | Some EOF => None
  | e => e
  end.

(** The bytes not yet returned in a token: those in the buffer and those
    the reader still has. *)
Definition reader_len (rd : Reader) : nat :=
  fold_right (fun chunk n => String.length chunk + n) 0 rd.

Definition unread (s : Scanner) : nat :=
  String.length (data s) + reader_len (r s).

(** How many iterations of its loop [Scan] needs at most. *)
Definition scan_steps (s : Scanner) : nat :=
  match err s with
  | Some _ => 1
  | None => reader_len (r s) + 2
  end.

(** The scanner's buffer never grows past [maxTokenSize], and never holds
    more than its length. *)
Definition bounded (s : Scanner) : Prop :=
  (buf_end s ≤ buf_len s)%nat ∧ (buf_len s ≤ maxTokenSize s)%nat.

End bufio.

(** ** Package runner: the executor and the supervisor *)
Module runner.
Import config.

(** The fields of [exec.Cmd] that [runTask] sets. *)
Record exec_Cmd : Type := mkCmd {
  cmd_Path : string;
  Args : list string;
  Dir : string;
  cmd_Env : list string;
  Setpgid : bool
}.

(** [exec.CommandContext(ctx, name, arg...)]: the program to run and its
    argument vector, [name] first. *)
Definition exec_CommandContext (name : string) (arg : list string) : exec_Cmd :=
  mkCmd name (name :: arg) "" [] false.

(** Determine if we should use shell. *)
Definition useShell (taskDef : TaskDef) : bool :=
  match Shell taskDef with
  | Some b => b
  | None => true
  end.

(** The command [runTask] builds before it starts it; [environ] is
    [os.Environ()], and the task's variables follow it in the order of
    [map_to_list]. *)
Definition runTask_cmd (environ : list string) (taskDef : TaskDef) : exec_Cmd :=
  let cmd :=
    if useShell taskDef then
      exec_CommandContext "/bin/sh" ["-c"; config.Cmd taskDef]
    else
      (* For non-shell, we'd need to parse the command - simplified for now *)
      exec_CommandContext "/bin/sh" ["-c"; config.Cmd taskDef] in
  let dir := if String.eqb (Path taskDef) "" then Dir cmd else Path taskDef in
  let env := (environ ++ map (fun kv => fst kv +:+ "=" +:+ snd kv)
                             (map_to_list (Env taskDef)))%list in
  mkCmd (cmd_Path cmd) (Args cmd) dir env true.

(** What happens to the child of one [runTask] call: a pipe cannot be
    created, the process cannot be started, or it runs, writes to its two
    streams and exits with a code (negative when a signal killed it). *)
Inductive child : Type :=
| StdoutPipeFails (e : error)
| StderrPipeFails (e : error)
| StartFails (e : error)
| Exits (stdout stderr : bufio.Reader) (code : Z).

(** The error of [cmd.Wait()]: nil exactly for exit code 0. *)
Definition cmd_Wait (code : Z) : option error :=
  if Z.eqb code 0 then None
  else if Z.ltb code 0 then Some "signal: killed"
  else Some ("exit status " +:+ pretty code).

(** The error [runTask] returns; [ctx_done] is [ctx.Err() != nil] at the
    time [cmd.Wait()] has returned. *)
Definition runTask_result (ctx_done : bool) (c : child) : option error :=
  match c with
  | StdoutPipeFails e => Some ("failed to create stdout pipe: " +:+ e)
  | StderrPipeFails e => Some ("failed to create stderr pipe: " +:+ e)
  | StartFails e => Some ("failed to start: " +:+ e)
  | Exits _ _ code =>
      match cmd_Wait code with
      | Some e =>
          if ctx_done then
            (* Context was cancelled, this is expected *)
            None
          else Some e
      | None => None
      end
  end.

(** outputWriter.WritePrefix: what one call writes. *)
Definition WritePrefix (prefix text : string) : string :=
  "[" +:+ prefix +:+ "] " +:+ text.

(** streamOutput reads from a reader and writes prefixed lines: the writes,
    in order, or [None] when [fuel] is too small for the input. *)
Fixpoint streamOutput_loop (fuel : nat) (taskName : string) (scanner : bufio.Scanner)
  (written : list string) : option (list string) :=
  match fuel with
  | O => None
  | S fuel' =>
      match bufio.Scan (S fuel') scanner with
      | None => None
      | Some (true, scanner') =>
          let line := bufio.Text scanner' in
          streamOutput_loop fuel' taskName scanner'
            (written ++ [WritePrefix taskName (line +:+ String bufio.LF "")])%list
      | Some (false, _) => Some written
      end
  end.

Definition streamOutput (taskName : string) (reader : bufio.Reader) : option (list string) :=
  streamOutput_loop (bufio.reader_len reader + 2) taskName (bufio.NewScanner reader) [].

(** One executor of [Runner.Run]: where the goroutine started for a task is.
    [Failed e]: [runTask] has returned [e], wrapped with the task name;
    [Sent]: the error is in [errChan] and [cancel()] is next. *)
Inductive pc : Type :=
| Running
| Failed (e : error)
| Sent
| Done.

Record goroutine : Type := mkGoroutine {
  name : string;
  at_ : pc
}.

(** The state [Runner.Run] shares with its goroutines: the cancellable
    context, the buffered [errChan] (capacity [len(r.tasks)], so a send never
    blocks), and the goroutines the WaitGroup counts. *)
Record run_state : Type := mkRun {
  ctx_cancelled : bool;
  errChan : list error;
  goroutines : list goroutine
}.

(** The steps goroutines and the caller's context can take, as a scheduler
    interleaves them. *)
Inductive event : Type :=
| Returns (i : nat) (c : child)
| Sends (i : nat)
| Cancels (i : nat)
| ParentCancels.

Definition start_all (tasks : list string) (parent_cancelled : bool) : run_state :=
  mkRun parent_cancelled [] (map (fun taskName => mkGoroutine taskName Running) tasks).

Definition set_pc (s : run_state) (i : nat) (g : goroutine) (p : pc) : list goroutine :=
  <[i := mkGoroutine (name g) p]> (goroutines s).

Definition step (s : run_state) (ev : event) : option run_state :=
  match ev with
  | Returns i c =>
      match goroutines s !! i with
      | Some g =>
          match at_ g with
          | Running =>
              match runTask_result (ctx_cancelled s) c with
              | Some err =>
                  Some (mkRun (ctx_cancelled s) (errChan s)
                          (set_pc s i g (Failed ("task '" +:+ name g +:+ "': " +:+ err))))
              | None =>
                  Some (mkRun (ctx_cancelled s) (errChan s) (set_pc s i g Done))
              end
          | _ => None
          end
      | None => None
      end
  | Sends i =>
      match goroutines s !! i with
      | Some g =>
          match at_ g with
          | Failed e =>
              Some (mkRun (ctx_cancelled s) (errChan s ++ [e])%list (set_pc s i g Sent))
          | _ => None
          end
      | None => None
      end
  | Cancels i =>
      match goroutines s !! i with
      | Some g =>
          match at_ g with
          | Sent => Some (mkRun true (errChan s) (set_pc s i g Done))
          | _ => None
          end
      | None => None
      end
  | ParentCancels => Some (mkRun true (errChan s) (goroutines s))
  end.

Fixpoint exec (sched : list event) (s : run_state) : option run_state :=
  match sched with
  | [] => Some s
  | ev :: rest =>
      match step s ev with
      | Some s' => exec rest s'
      | None => None
      end
  end.

Definition is_Done (g : goroutine) : bool :=
  match at_ g with Done => true | _ => false end.

(** After [wg.Wait()]: the first error of [errChan], if any. [None] while
    some goroutine has not finished. *)
Definition Run_return (s : run_state) : option (option error) :=
  if forallb is_Done (goroutines s) then Some (head (errChan s)) else None.

(** Run starts all tasks and waits for them to complete, under the
    interleaving [sched]. *)
Definition Run (tasks : list string) (parent_cancelled : bool) (sched : list event)
  : option (option error) :=
  match exec sched (start_all tasks parent_cancelled) with
  | Some s => Run_return s
  | None => None
  end.

(** Counting goroutines by where they are, and the events that queue an
    error. *)
Definition is_Failed (p : pc) : bool :=
  match p with Failed _ => true | _ => false end.

Definition is_Sent (p : pc) : bool :=
  match p with Sent => true | _ => false end.

Definition is_Sends (ev : event) : bool :=
  match ev with Sends _ => true | _ => false end.

Fixpoint count (f : pc → bool) (gs : list goroutine) : nat :=
  match gs with
  | [] => 0
  | g :: rest => (if f (at_ g) then 1 else 0) + count f rest
  end.

(** While the context is live, every queued error belongs to a goroutine
    that has not yet called [cancel()]. *)
Definition uncancelled_inv (s : run_state) : Prop :=
  ctx_cancelled s = false → length (errChan s) = count is_Sent (goroutines s).

(** A goroutine waiting to call [cancel()] has its error in the queue. *)
Definition sent_inv (s : run_state) : Prop :=
  (count is_Sent (goroutines s) ≤ length (errChan s))%nat.

(** Errors queued or about to be queued are never lost. *)
Definition pending (s : run_state) : nat :=
  length (errChan s) + count is_Failed (goroutines s).

End runner.

(** ** Package runner, watcher.go: registration, debouncing, pulses *)
Module watcher.
Import config.

(** What [os.Lstat] and a directory listing show of a file tree. A directory
    lists its entries by name, in the order [readDirNames] returns them;
    [File] is anything that is not a directory (a symbolic link included);
    [DirUnreadable] is a directory that cannot be listed and [Broken] an entry
    whose [Lstat] fails. *)
Inductive node : Type :=
| File
| Dir (entries : list (string * node))
| DirUnreadable (e : error)
| Broken (e : error).

Definition IsDir (n : node) : bool :=
  match n with
  | Dir _ | DirUnreadable _ => true
  | _ => false
  end.

(** The trees the process can reach, by the path handed to [Lstat]. *)
Abbreviation filesystem := (gmap string node).

(** [fsnotify.Watcher]: the watched paths, and the paths whose registration
    the operating system refuses. *)
Record fsWatcher : Type := mkFsWatcher {
  refused : gmap string error;
  watched : gset string
}.

Definition Add (fw : fsWatcher) (path : string) : result fsWatcher :=
  match refused fw !! path with
  | Some e => Err e
  | None => Ok (mkFsWatcher (refused fw) ({[path]} ∪ watched fw))
  end.

(** What a [filepath.WalkFunc] returns besides nil. *)
Inductive walk_err : Type :=
| SkipDir
| Fail (e : error).

(** The test of [addWatchRecursive] on a directory's base name. [Base]
    never returns the empty string, so [base[0]] is defined. *)
Definition skipped (base : string) : bool :=
  match base with
  | String c _ => Ascii.eqb c "."
  | EmptyString => false
  end
  || String.eqb base "node_modules" || String.eqb base "vendor"
  || String.eqb base "dist" || String.eqb base "build".

(** The function literal [addWatchRecursive] hands to [filepath.Walk]. *)
Definition walkFn (fw : fsWatcher) (path : string) (isDir : bool) (err : option error)
  : fsWatcher * option walk_err :=
  match err with
  | Some e => (fw, Some (Fail e))
  | None =>
      if isDir then
        let base := filepath.Base path in
        if skipped base then (fw, Some SkipDir)
        else
          match Add fw path with
          | Ok fw' => (fw', None)
          | Err e => (fw, Some (Fail e))
          end
      else (fw, None)
  end.

(** The loop of [filepath.walk] over the entries of the directory [path];
    [walk] is the recursive call. [SkipDir] from a directory entry skips that
    entry only. *)
Definition walk_entries
    (walk : string → node → fsWatcher → fsWatcher * option walk_err) (path : string)
  : list (string * node) → fsWatcher → fsWatcher * option walk_err :=
  fix loop (es : list (string * node)) (fw : fsWatcher) : fsWatcher * option walk_err :=
    match es with
    | [] => (fw, None)
    | (nm, entry) :: rest =>
        let filename := filepath.Join path nm in
        match walk filename entry fw with
        | (fw', None) => loop rest fw'
        | (fw', Some SkipDir) =>
            match entry with
            | Dir _ | DirUnreadable _ | Broken _ => loop rest fw'
            | File => (fw', Some SkipDir)
            end
        | (fw', Some (Fail e)) => (fw', Some (Fail e))
        end
    end.

(** [filepath.walk]: calls [walkFn] on [path], then descends into a
    directory's entries unless [walkFn] returned an error. *)
Fixpoint walk (path : string) (n : node) (fw : fsWatcher) : fsWatcher * option walk_err :=
  match n with
  | File => walkFn fw path false None
  | Broken e => walkFn fw path false (Some e)
  | DirUnreadable e => walkFn fw path true (Some e)
  | Dir entries =>
      match walkFn fw path true None with
      | (fw1, Some e) => (fw1, Some e)
      | (fw1, None) => walk_entries walk path entries fw1
      end
  end.

(** A tree that can be read throughout, with well-formed entry names. *)
Fixpoint plain (n : node) : Prop :=
  match n with
  | File => True
  | Dir entries =>
      (fix all (es : list (string * node)) : Prop :=
         match es with
         | [] => True
         | (nm, entry) :: rest => filepath.entry_name nm ∧ plain entry ∧ all rest
         end) entries
  | DirUnreadable _ | Broken _ => False
  end.

(** [filepath.Walk]: a [SkipDir] that reaches the root ends the walk with
    nil. *)
Definition Walk (fs : filesystem) (root : string) (fw : fsWatcher) : fsWatcher * option error :=
  match fs !! root with
  | None => (fw, Some ("lstat " +:+ root +:+ ": no such file or directory"))
  | Some n =>
      match walk root n fw with
      | (fw', Some (Fail e)) => (fw', Some e)
      | (fw', _) => (fw', None)
      end
  end.

(** addWatchRecursive adds a directory and all its subdirectories to the
    watcher. *)
Definition addWatchRecursive (fs : filesystem) (root : string) (fw : fsWatcher)
  : fsWatcher * option error :=
  Walk fs root fw.

(** Watcher manages file watching and task restarts. A restart channel is a
    [chan struct{}] of capacity 1, kept as the number of values it holds. *)
Record Watcher : Type := mkWatcher {
  cfg : Config;
  tasks : list string;
  verbose : bool;
  globalWatch : bool;
  fsW : fsWatcher;
  restartChans : gmap string nat
}.

Definition shouldWatch (c : Config) (global : bool) (taskName : string) : bool :=
  global || Watch (lookupTaskDef c taskName).

(** The first loop of [Start]: setup watchers for each task. *)
Fixpoint setup_watchers (fs : filesystem) (c : Config) (global : bool)
  (tasks : list string) (fw : fsWatcher) : result fsWatcher :=
  match tasks with
  | [] => Ok fw
  | taskName :: rest =>
      if shouldWatch c global taskName then
        let taskDef := lookupTaskDef c taskName in
        let watchDir := if String.eqb (Path taskDef) "" then "." else Path taskDef in
        match addWatchRecursive fs watchDir fw with
        | (_, Some err) =>
            Err ("failed to watch directory for task '" +:+ taskName +:+ "': " +:+ err)
        | (fw', None) => setup_watchers fs c global rest fw'
        end
      else setup_watchers fs c global rest fw
  end.

(** The paths [Start] has registered when its first loop is over. *)
Definition Start_watched (fs : filesystem) (w : Watcher) : result (gset string) :=
  match setup_watchers fs (cfg w) (globalWatch w) (tasks w) (fsW w) with
  | Ok fw => Ok (watched fw)
  | Err e => Err e
  end.

(** *** The event loop *)

(** [fsnotify.Op] is a bit mask. *)
Definition Create : Z := 1.
Definition Write : Z := 2.
Definition Remove : Z := 4.
Definition Rename : Z := 8.
Definition Chmod : Z := 16.

Record Event : Type := mkEvent {
  ev_Name : string;
  Op : Z
}.

(** Only watch Write and Create events. *)
Definition significant (e : Event) : bool :=
  Z.eqb (Z.land (Op e) Write) Write || Z.eqb (Z.land (Op e) Create) Create.

(** What [watchLoop] can receive in its select. *)
Inductive input : Type :=
| FsEvent (e : Event)
| FsError (e : error)
| EventsClosed
| CtxDone.

(** Milliseconds. *)
Definition debounceDuration : Z := 500.

Definition chan_cap : nat := 1.

(** [select { case restartChan <- struct{}{}: ... default: }]: the send
    happens only when the buffer has room. *)
Definition try_send (len : nat) : nat :=
  if Nat.ltb len chan_cap then S len else len.

(** triggerRestarts signals all watched tasks to restart. *)
Definition triggerRestarts (c : Config) (global : bool) (chans : gmap string nat)
  : gmap string nat :=
  map_imap (fun taskName len =>
              Some (if shouldWatch c global taskName then try_send len else len))
           chans.

(** The loop and its timer: [debounceTimer] is the time at which the pending
    [time.AfterFunc] fires, [fired] the times at which [triggerRestarts] has
    run, [looping] whether [watchLoop] has not returned. *)
Record loop_state : Type := mkLoop {
  looping : bool;
  debounceTimer : option Z;
  chans : gmap string nat;
  fired : list Z
}.

(** Time passes up to [now]: a timer that is due runs its function. *)
Definition elapse (c : Config) (global : bool) (now : Z) (s : loop_state) : loop_state :=
  match debounceTimer s with
  | Some due =>
      if Z.leb due now then
        mkLoop (looping s) None (triggerRestarts c global (chans s)) (fired s ++ [due])%list
      else s
  | None => s
  end.

(** One iteration of the [for { select { ... } }] of [watchLoop], for the
    input received at time [now]. Stopping the old timer and starting a new
    one leaves one pending timer, due [debounceDuration] from [now]. *)
Definition receive (c : Config) (global : bool) (s : loop_state) (ti : Z * input)
  : loop_state :=
  let now := fst ti in
  let s := elapse c global now s in
  if looping s then
    match snd ti with
    | CtxDone | EventsClosed => mkLoop false (debounceTimer s) (chans s) (fired s)
    | FsEvent event =>
        if significant event then
          mkLoop true (Some (now + debounceDuration)%Z) (chans s) (fired s)
        else s
    | FsError _ => s
    end
  else s.

(** watchLoop monitors file system events: the inputs in the order received,
    each with its time, observed at time [until]. *)
Definition watchLoop (c : Config) (global : bool) (inputs : list (Z * input))
  (until : Z) (s : loop_state) : loop_state :=
  elapse c global until (fold_left (receive c global) inputs s).

Definition loop_start (chans0 : gmap string nat) : loop_state :=
  mkLoop true None chans0 [].

(** The second loop of [Start] makes one empty restart channel per task
    name. *)
Definition make_restartChans (tasks : list string) : gmap string nat :=
  fold_left (λ m taskName, <[taskName := 0]> m) tasks ∅.

(** Filesystem events with their arrival times, as inputs of the loop. *)
Definition timed (evs : list (Z * Event)) : list (Z * input) :=
  map (λ te, (fst te, FsEvent (snd te))) evs.

End watcher.

(** ** Package main: the command line *)
Module cli.

(** The variables the flags of [main] are bound to. *)
Record flags : Type := mkFlags {
  configPath : string;
  verbose : bool;
  list_ : bool;
  showHelp : bool;
  interactive : bool;
  watch : bool
}.

Inductive flag_var : Type :=
| ConfigPath
| Verbose
| List_
| ShowHelp
| Interactive
| WatchAll.

(** [flag.String] binds a string variable, [flag.Bool] a boolean one. *)
Definition IsBoolFlag (v : flag_var) : bool :=
  match v with ConfigPath => false | _ => true end.

(** The flag set after the calls that precede [flag.Parse()] in the [main]
    that starts the watcher and the dashboard: every variable is registered
    under a short and a long name. *)
Definition formal : list (string * flag_var) :=
  [("c", ConfigPath); ("config", ConfigPath);
   ("v", Verbose); ("verbose", Verbose);
   ("l", List_); ("list", List_);
   ("h", ShowHelp); ("help", ShowHelp);
   ("i", Interactive); ("interactive", Interactive);
   ("w", WatchAll); ("watch", WatchAll)].

(** The flag set of the [main] of cmd/prun/main.go, which starts the plain
    runner only: it binds neither [interactive] nor [watch]. *)
Definition formal_initial : list (string * flag_var) :=
  [("c", ConfigPath); ("config", ConfigPath);
   ("v", Verbose); ("verbose", Verbose);
   ("l", List_); ("list", List_);
   ("h", ShowHelp); ("help", ShowHelp)].

Definition defaults : flags :=
  mkFlags "prun.toml" false false false false false.

Fixpoint lookup_flag (fset : list (string * flag_var)) (name : string) : option flag_var :=
  match fset with
  | [] => None
  | (n, v) :: rest => if String.eqb n name then Some v else lookup_flag rest name
  end.

(** [strconv.ParseBool]. *)
Definition ParseBool (s : string) : option bool :=
  if String.eqb s "1" || String.eqb s "t" || String.eqb s "T"
     || String.eqb s "TRUE" || String.eqb s "true" || String.eqb s "True" then Some true
  else if String.eqb s "0" || String.eqb s "f" || String.eqb s "F"
     || String.eqb s "FALSE" || String.eqb s "false" || String.eqb s "False" then Some false
  else None.

Definition set_bool (f : flags) (v : flag_var) (b : bool) : flags :=
  match v with
  | ConfigPath => f
  | Verbose => mkFlags (configPath f) b (list_ f) (showHelp f) (interactive f) (watch f)
  | List_ => mkFlags (configPath f) (verbose f) b (showHelp f) (interactive f) (watch f)
  | ShowHelp => mkFlags (configPath f) (verbose f) (list_ f) b (interactive f) (watch f)
  | Interactive => mkFlags (configPath f) (verbose f) (list_ f) (showHelp f) b (watch f)
  | WatchAll => mkFlags (configPath f) (verbose f) (list_ f) (showHelp f) (interactive f) b
  end.

Definition set_string (f : flags) (v : flag_var) (s : string) : flags :=
  match v with
  | ConfigPath => mkFlags s (verbose f) (list_ f) (showHelp f) (interactive f) (watch f)
  | _ => f
  end.

(** [name=value] split at the first [=] that is not the first character. *)
Fixpoint split_eq (s : string) : string * option string :=
  match s with
  | EmptyString => ("", None)
  | String c rest =>
      if Ascii.eqb c "=" then ("", Some rest)
      else let '(n, v) := split_eq rest in (String c n, v)
  end.

Definition name_value (s : string) : string * option string :=
  match s with
  | EmptyString => ("", None)
  | String c rest => let '(n, v) := split_eq rest in (String c n, v)
  end.

(** The result of [flag.Parse()] with the [ExitOnError] policy of
    [flag.CommandLine]: the variables and the positional arguments, or the
    message printed before [os.Exit(2)]. *)
Inductive parsed : Type :=
| Parsed (f : flags) (args : list string)
| Exit2 (msg : string).

(** [FlagSet.Parse]: [parseOne] until the first argument that is not a flag. *)
Fixpoint Parse (fset : list (string * flag_var)) (f : flags) (args : list string) : parsed :=
  match args with
  | [] => Parsed f []
  | s :: rest =>
      match s with
      | String "-" (String c1 tl1 as after1) =>
          let body := if Ascii.eqb c1 "-" then tl1 else after1 in
          if Ascii.eqb c1 "-" && String.eqb tl1 "" then Parsed f rest
          else
            match body with
            | EmptyString => Exit2 ("bad flag syntax: " +:+ s)
            | String b0 _ =>
                if Ascii.eqb b0 "-" || Ascii.eqb b0 "=" then Exit2 ("bad flag syntax: " +:+ s)
                else
                  let '(name, value) := name_value body in
                  match lookup_flag fset name with
                  | None => Exit2 ("flag provided but not defined: -" +:+ name)
                  | Some v =>
                      if IsBoolFlag v then
                        match value with
                        | Some val =>
                            match ParseBool val with
                            | Some b => Parse fset (set_bool f v b) rest
                            | None => Exit2 ("invalid boolean value for -" +:+ name)
                            end
                        | None => Parse fset (set_bool f v true) rest
                        end
                      else
                        match value with
                        | Some val => Parse fset (set_string f v val) rest
                        | None =>
                            match rest with
                            | val :: rest' => Parse fset (set_string f v val) rest'
                            | [] => Exit2 ("flag needs an argument: -" +:+ name)
                            end
                        end
                  end
            end
      | _ => Parsed f args
      end
  end.

End cli.

(** ** The specification's wording, for the claims that compare with it *)
Module spec.
Import config.

(** [strings.Fields]: the maximal runs of non-space bytes. *)
Definition isSpace (c : ascii) : bool :=
  let n := nat_of_ascii c in
  Nat.eqb n 32 || (Nat.leb 9 n && Nat.leb n 13).

Fixpoint Fields_go (cs : list ascii) (cur : list ascii) : list string :=
  match cs with
  | [] => match cur with [] => [] | _ => [string_of_list_ascii (rev cur)] end
  | c :: rest =>
      if isSpace c then
        match cur with
        | [] => Fields_go rest []
        | _ => string_of_list_ascii (rev cur) :: Fields_go rest []
        end
      else Fields_go rest (c :: cur)
  end.

Definition Fields (s : string) : list string :=
  Fields_go (list_ascii_of_string s) [].

(** The spawn policy in the specification's words: through the shell with
    [-c] when [useShell] holds, else the command tokenised by whitespace and
    executed directly. *)
Definition spawn_argv (taskDef : TaskDef) : list string :=
  if runner.useShell taskDef then ["/bin/sh"; "-c"; Cmd taskDef]
  else Fields (Cmd taskDef).

(** Directory registration in the specification's words: the root, and
    below it every directory reached through directories whose names are not
    excluded. *)
Definition dirs_below (dirs : string → watcher.node → gset string) (path : string)
  : list (string * watcher.node) → gset string :=
  fix below (es : list (string * watcher.node)) : gset string :=
    match es with
    | [] => ∅
    | (nm, entry) :: rest =>
        (if watcher.IsDir entry && negb (watcher.skipped nm)
         then dirs (filepath.Join path nm) entry else ∅)
        ∪ below rest
    end.

Fixpoint registered_dirs (path : string) (n : watcher.node) : gset string :=
  match n with
  | watcher.Dir entries => {[path]} ∪ dirs_below registered_dirs path entries
  | watcher.DirUnreadable _ => {[path]}
  | _ => ∅
  end.

(** What the walk of a readable tree adds to the watcher, and what it
    returns: a directory whose base name fails the test is skipped. *)
Definition walk_adds (path : string) (n : watcher.node)
  : gset string * option watcher.walk_err :=
  match n with
  | watcher.Dir _ =>
      if watcher.skipped (filepath.Base path) then (∅, Some watcher.SkipDir)
      else (registered_dirs path n, None)
  | _ => (∅, None)
  end.

(** Events arriving in order, each less than the debounce window after the
    one before it; [t] is the time of the event before the first of [ts]. *)
Fixpoint within_window (t : Z) (ts : list Z) : Prop :=
  match ts with
  | [] => True
  | t' :: rest => (t ≤ t' < t + watcher.debounceDuration)%Z ∧ within_window t' rest
  end.

(** A task is run again after its child has exited: some step takes the
    goroutine of index [i] from a finished [runTask] back to a running one. *)
Definition relaunched (s : runner.run_state) (i : nat) : Prop :=
  ∃ ev s' g', runner.step s ev = Some s'
              ∧ runner.goroutines s' !! i = Some g'
              ∧ runner.at_ g' = runner.Running.

(** The restart policy in the specification's words, for [restart = true]:
    a manifest that is accepted has the task restarted whenever it exits. *)
Definition restart_honoured_or_rejected : Prop :=
  ∀ (fs : files) (path : string) (c : Config) (i : nat) (taskName : string)
    (td : TaskDef) (sched : list runner.event) (s : runner.run_state) (g : runner.goroutine),
    Load fs path = Ok c →
    Tasks c !! i = Some taskName →
    TaskDefs c !! taskName = Some td →
    Restart td = Some (TBool true) →
    runner.exec sched (runner.start_all (Tasks c) false) = Some s →
    runner.goroutines s !! i = Some g →
    runner.at_ g = runner.Done →
    relaunched s i.

(** The manifest with every [restart] key of a task table removed. *)
Definition not_restart (kv : string * toml_value) : bool :=
  negb (String.eqb (fst kv) "restart").

Fixpoint filter_fields (fields : table) : table :=
  match fields with
  | [] => []
  | kv :: rest => if not_restart kv then kv :: filter_fields rest else filter_fields rest
  end.

Definition strip_task (entry : string * toml_value) : string * toml_value :=
  match snd entry with
  | TTable fields => (fst entry, TTable (filter_fields fields))
  | _ => entry
  end.

Definition strip_top (entry : string * toml_value) : string * toml_value :=
  if String.eqb (fst entry) "task" then
    match snd entry with
    | TTable defs => (fst entry, TTable (map strip_task defs))
    | _ => entry
    end
  else entry.

Definition strip_restart (data : file_text) : file_text :=
  match data with
  | Malformed msg => Malformed msg
  | Document top => Document (map strip_top top)
  end.

Definition erase_Restart (td : TaskDef) : TaskDef :=
  mkTaskDef (Cmd td) (Path td) (Env td) None (Shell td) (Watch td).

Definition erase_Config (c : Config) : Config :=
  mkConfig (Tasks c) (erase_Restart <$> TaskDefs c).

Definition result_map {A B} (f : A → B) (r : result A) : result B :=
  match r with Ok a => Ok (f a) | Err e => Err e end.

End spec.

(** ** Sample manifests, trees and inputs *)
Module samples.
Import config.

Definition nl : string := String bufio.LF "".

Definition task (cmd : string) : TaskDef :=
  mkTaskDef cmd "" ∅ None None false.

(** tasks = ["hello", "world"], each echoing its name. *)
Definition simple : Config :=
  mkConfig ["hello"; "world"]
    {[ "hello" := task "echo hello"; "world" := task "echo world" ]}.

(** A task that opts out of the shell. *)
Definition no_shell : TaskDef :=
  mkTaskDef "echo hi" "" ∅ None (Some false) false.

Definition exits (code : Z) : runner.child := runner.Exits [] [] code.

(** [hello] exits with status 1, queues its error and cancels; [world] is
    then killed and returns. *)
Definition hello_fails : list runner.event :=
  [runner.Returns 0 (exits 1); runner.Sends 0; runner.Cancels 0;
   runner.Returns 1 (exits (-1))].

Definition hello_failed : runner.run_state :=
  runner.mkRun true ["task 'hello': exit status 1"]
    [runner.mkGoroutine "hello" runner.Done; runner.mkGoroutine "world" runner.Done].

(** [app] is watched and has no [path]; [db] is not watched. *)
Definition watched_app : Config :=
  mkConfig ["app"; "db"]
    {[ "app" := mkTaskDef "go run ." "" ∅ None None true;
       "db" := task "redis-server" ]}.

Definition write_event : watcher.Event := watcher.mkEvent "main.go" watcher.Write.
Definition create_event : watcher.Event := watcher.mkEvent "new.go" watcher.Create.

(** The working directory of the supervisor: a project with sources, a
    repository directory and installed packages. *)
Definition project : watcher.node :=
  watcher.Dir
    [(".git", watcher.Dir [("objects", watcher.Dir [])]);
     ("cmd", watcher.Dir [("prun", watcher.Dir [("main.go", watcher.File)])]);
     ("node_modules", watcher.Dir [("left-pad", watcher.Dir [])]);
     ("prun.toml", watcher.File)].

Definition cwd : watcher.filesystem := {[ "." := project; "backend" := project ]}.

Definition watch_app : watcher.Watcher :=
  watcher.mkWatcher watched_app ["app"; "db"] false false
    (watcher.mkFsWatcher ∅ ∅) ∅.

(** The same manifest with [path = "backend"] for [app]. *)
Definition watch_backend : watcher.Watcher :=
  watcher.mkWatcher
    (mkConfig ["app"] {[ "app" := mkTaskDef "go run ." "backend" ∅ None None true ]})
    ["app"] false false (watcher.mkFsWatcher ∅ ∅) ∅.

(** A manifest whose only task asks to be restarted. *)
Definition restart_toml : table :=
  [("tasks", TArray [TString "app"]);
   ("task", TTable [("app", TTable [("cmd", TString "npm run dev");
                                    ("restart", TBool true)])])].

Definition restart_files : files := {[ "prun.toml" := Document restart_toml ]}.

Definition restart_task : TaskDef :=
  mkTaskDef "npm run dev" "" ∅ (Some (TBool true)) None false.

Definition restart_cfg : Config :=
  mkConfig ["app"] {[ "app" := restart_task ]}.

(** The supervisor after the child of [app] has exited with status 0. *)
Definition app_exited : runner.run_state :=
  runner.mkRun false [] [runner.mkGoroutine "app" runner.Done].

Fixpoint repeat_byte (n : nat) (b : ascii) : string :=
  match n with
  | O => ""
  | S n' => String b (repeat_byte n' b)
  end.

(** A child that prints one line of 70000 bytes, then [ok]. *)
Definition long_output : bufio.Reader :=
  [repeat_byte 70000 "a" +:+ nl +:+ "ok" +:+ nl].

End samples.

(** ** Lines of a byte stream, to state what [streamOutput] writes *)
Module text.

(** Everything a reader delivers, whatever the chunks. *)
Definition stream (rd : bufio.Reader) : string :=
  fold_right String.append "" rd.

(** The segments between newlines, in order; what follows the last newline
    is a line only when it is not empty. *)
Fixpoint lines_from (cur : string) (s : string) : list string :=
  match s with
  | EmptyString => if String.eqb cur "" then [] else [cur]
  | String c rest =>
      if Ascii.eqb c bufio.LF then cur :: lines_from "" rest
      else lines_from (cur +:+ String c "") rest
  end.

Definition lines (s : string) : list string := lines_from "" s.

(** The first line of a string and what follows its newline. *)
Definition next_line (s : string) : option (string * string) :=
  if String.eqb s "" then None
  else match bufio.IndexByte s bufio.LF with
       | Some i => Some (bufio.str_take i s, bufio.str_drop (S i) s)
       | None => Some (s, "")
       end.

(** The first line of what is left fits the scanner's buffer. *)
Definition fits (max : nat) (rest : string) : Prop :=
  match bufio.IndexByte rest bufio.LF with
  | Some i => (i < max)%nat
  | None => (String.length rest < max)%nat
  end.

(** What the scanner has not yet returned: its live data, then the stream
    of its reader. *)
Definition remaining (s : bufio.Scanner) : string :=
  bufio.data s +:+ stream (bufio.r s).

(** A scanner before any [ErrTooLong]: within bounds, and with [io.EOF]
    recorded only once the reader is exhausted. *)
Definition healthy (s : bufio.Scanner) : Prop :=
  bufio.bounded s ∧ (0 < bufio.maxTokenSize s)%nat
  ∧ (bufio.err s = None ∨ (bufio.err s = Some bufio.EOF ∧ stream (bufio.r s) = "")).

End text.

(** ** More sample inputs *)
Module examples.

Definition crlf : string := String bufio.CR (String bufio.LF "").

(** A child whose output arrives in three reads that split its lines: one
    line ending in CR LF, one ending in LF, and a last line without a
    newline. *)
Definition chunked_output : bufio.Reader :=
  ["build"; "ing..." +:+ crlf +:+ "do"; "ne" +:+ samples.nl +:+ "last"].

(** [hello] has exited with status 1 and [runTask] has returned; then its
    error is in [errChan]. *)
Definition hello_returned : runner.run_state :=
  runner.mkRun false []
    [runner.mkGoroutine "hello" (runner.Failed "task 'hello': exit status 1");
     runner.mkGoroutine "world" runner.Running].

Definition hello_sent : runner.run_state :=
  runner.mkRun false ["task 'hello': exit status 1"]
    [runner.mkGoroutine "hello" runner.Sent;
     runner.mkGoroutine "world" runner.Running].

(** Both children exit with status 0, [world] first; the caller cancels in
    between. *)
Definition both_succeed : list runner.event :=
  [runner.Returns 1 (samples.exits 0); runner.ParentCancels;
   runner.Returns 0 (samples.exits 0)].

Definition both_done : runner.run_state :=
  runner.mkRun true []
    [runner.mkGoroutine "hello" runner.Done; runner.mkGoroutine "world" runner.Done].

(** [hello] has exited with status 0 when the caller cancels the context;
    [world], still running, is then killed. *)
Definition hello_exits_first : list runner.event :=
  [runner.Returns 0 (samples.exits 0)].

Definition world_killed : list runner.event :=
  [runner.Returns 1 (samples.exits (-1))].

(** A manifest that lists [web] and defines only [api], without a [cmd]. *)
Definition undefined_toml : config.table :=
  [("tasks", config.TArray [config.TString "api"; config.TString "web"]);
   ("task", config.TTable [("api", config.TTable [("path", config.TString "api")])])].

Definition undefined_files : config.files :=
  {[ "prun.toml" := config.Document undefined_toml ]}.

(** A write, then a permission change and a watcher error, then a new
    file, all within the debounce window. *)
Definition noisy_inputs : list (Z * watcher.input) :=
  [(0%Z, watcher.FsEvent samples.write_event);
   (100%Z, watcher.FsEvent (watcher.mkEvent "main.go" watcher.Chmod));
   (200%Z, watcher.FsError "too many open files");
   (300%Z, watcher.FsEvent samples.create_event)].

(** Three writes, each more than 500 ms after the one before. *)
Definition slow_writes : list (Z * watcher.Event) :=
  [(1000%Z, samples.write_event); (2000%Z, samples.create_event)].

(** The restart channels of [app] and [db], both empty. *)
Definition empty_chans : gmap string nat := {[ "app" := 0; "db" := 0 ]}.

End examples.

(** ** What the executors of [Run] may still do *)
Module supervision.
Import runner.

(** An executor that has not sent on [errChan] and still may. *)
Definition may_send (p : pc) : bool :=
  match p with
  | Running | Failed _ => true
  | _ => false
  end.

(** An error of [Run]: the error of a [runTask] call, wrapped with the name
    of a task of the run. *)
Definition task_error (tasks : list string) (e : error) : Prop :=
  ∃ taskName cause, taskName ∈ tasks ∧ e = "task '" +:+ taskName +:+ "': " +:+ cause.

(** The executor returning in this step had a child that exited with
    status 0. *)
Definition exits_zero (ev : event) : bool :=
  match ev with
  | Returns _ (Exits _ _ code) => Z.eqb code 0
  | Returns _ _ => false
  | _ => true
  end.

(** The executor returning in this step had a child that was started. *)
Definition child_started (ev : event) : bool :=
  match ev with
  | Returns _ (Exits _ _ _) => true
  | Returns _ _ => false
  | _ => true
  end.

(** No executor has failed so far. *)
Definition no_failure (s : run_state) : Prop :=
  errChan s = [] ∧ Forall (λ g, at_ g = Running ∨ at_ g = Done) (goroutines s).

(** Every error in the system names a task of the run. *)
Definition named (tasks : list string) (s : run_state) : Prop :=
  Forall (task_error tasks) (errChan s)
  ∧ Forall (λ g, name g ∈ tasks ∧ ∀ e, at_ g = Failed e → task_error tasks e)
           (goroutines s).

End supervision.

(** ** Run from a failure to its return *)
Module completion.
Import runner.












End completion.

(** ** What [Load] checks *)
Module validity.
Import config.

(** The two checks of [Load] on a decoded manifest. *)
Definition valid (c : Config) : Prop :=
  Forall (λ taskName, is_Some (TaskDefs c !! taskName)) (Tasks c)
  ∧ map_Forall (λ _ task, Cmd task ≠ "") (TaskDefs c).

(** A task the executor can run: defined, with a command. *)
Definition runnable (c : Config) (taskName : string) : Prop :=
  ∃ task, TaskDefs c !! taskName = Some task ∧ Cmd task ≠ "".

(** Why [Load] fails. *)
Inductive load_failure (fs : files) (configPath : string) (e : error) : Prop :=
| NotRead :
    fs !! configPath = None →
    e = "open " +:+ configPath +:+ ": no such file or directory" →
    load_failure fs configPath e
| NotDecoded data cause :
    fs !! configPath = Some data →
    toml_Unmarshal data (mkConfig [] ∅) = Err cause →
    e = "failed to parse TOML: " +:+ cause →
    load_failure fs configPath e
| NotDefined data cfg before taskName after :
    fs !! configPath = Some data →
    toml_Unmarshal data (mkConfig [] ∅) = Ok cfg →
    Tasks cfg = (before ++ taskName :: after)%list →
    Forall (λ t, is_Some (TaskDefs cfg !! t)) before →
    TaskDefs cfg !! taskName = None →
    e = "task '" +:+ taskName +:+ "' listed but not defined" →
    load_failure fs configPath e
| NoCmd data cfg name task :
    fs !! configPath = Some data →
    toml_Unmarshal data (mkConfig [] ∅) = Ok cfg →
    Forall (λ t, is_Some (TaskDefs cfg !! t)) (Tasks cfg) →
    TaskDefs cfg !! name = Some task →
    Cmd task = "" →
    e = "task '" +:+ name +:+ "' missing required 'cmd' field" →
    load_failure fs configPath e.

End validity.

(** ** What [Start] registers and what the event loop disregards *)
Module watching.
Import config watcher.

(** The directory [Start] walks for a task: its [path], or "." when it
    has none. *)
Definition watchDir (c : Config) (taskName : string) : string :=
  let path := Path (lookupTaskDef c taskName) in
  if String.eqb path "" then "." else path.

(** The directories [Start] walks, in the order of the task list. *)
Fixpoint watched_roots (c : Config) (global : bool) (tasks : list string) : list string :=
  match tasks with
  | [] => []
  | taskName :: rest =>
      if shouldWatch c global taskName then watchDir c taskName :: watched_roots c global rest
      else watched_roots c global rest
  end.

(** The directories the specification lists for these roots. *)
Fixpoint spec_registered (fs : filesystem) (roots : list string) : gset string :=
  match roots with
  | [] => ∅
  | d :: rest =>
      match fs !! d with
      | Some n => spec.registered_dirs d n
      | None => ∅
      end ∪ spec_registered fs rest
  end.

(** The paths of the directories of the tree [n] found at [path], the
    root included, whatever their names: what [info.IsDir()] holds of. *)
Definition all_below (dirs : string → node → gset string) (path : string)
  : list (string * node) → gset string :=
  fix below (es : list (string * node)) : gset string :=
    match es with
    | [] => ∅
    | (nm, entry) :: rest => dirs (filepath.Join path nm) entry ∪ below rest
    end.

Fixpoint directories (path : string) (n : node) : gset string :=
  match n with
  | Dir entries => {[path]} ∪ all_below directories path entries
  | DirUnreadable _ => {[path]}
  | File | Broken _ => ∅
  end.

(** The directories a walk from [root] can meet. *)
Definition directories_from (fs : filesystem) (root : string) : gset string :=
  match fs !! root with
  | Some n => directories root n
  | None => ∅
  end.

(** [fw'] keeps the registrations of [fw], and what it adds are
    directories among [dirs] whose base name passes the test of
    [addWatchRecursive]. *)
Definition adds_only (dirs : gset string) (fw fw' : fsWatcher) : Prop :=
  refused fw' = refused fw
  ∧ watched fw ⊆ watched fw'
  ∧ ∀ path, path ∈ watched fw' →
      path ∈ watched fw ∨ (path ∈ dirs ∧ skipped (filepath.Base path) = false).

(** The inputs that [watchLoop] acts on: a Write or Create event, the
    cancellation of the context, the closing of the event channel. *)
Definition relevant (ti : Z * input) : bool :=
  match snd ti with
  | FsEvent e => significant e
  | FsError _ => false
  | EventsClosed | CtxDone => true
  end.

(** Times that never go back, from [t] on. *)
Fixpoint in_order (t : Z) (ts : list Z) : Prop :=
  match ts with
  | [] => True
  | t' :: rest => (t ≤ t')%Z ∧ in_order t' rest
  end.

(** Events more than the debounce window apart. *)
Fixpoint spaced (t : Z) (ts : list Z) : Prop :=
  match ts with
  | [] => True
  | t' :: rest => (t + debounceDuration < t')%Z ∧ spaced t' rest
  end.

End watching.

(** ** Start and runTaskWithRestart: the tasks under the watcher *)
Module restart.
Import config watcher.

(** One run of the task, started by an iteration of the loop: [runTask]
    has not returned ([Alive]), its result is in the [done] channel of the
    iteration ([Exited]), or the loop has received it ([Reaped]). *)
Inductive instance : Type :=
| Alive
| Exited
| Reaped.

(** Where the goroutine of [runTaskWithRestart] is: started by [Start] and
    not yet running ([Created]), blocked in its first select with a run under
    way, in [<-done] after cancelling the run for a restart, in its second
    select after the run has finished, or returned. *)
Inductive place : Type :=
| Created
| Selecting
| Draining
| Waiting
| Returned.

(** The channel a goroutine has in its variable [restartChan]: the one
    [w.restartChans] has under the name of its task, or one that [Start] has
    since replaced there, at a later element of [w.tasks] with the same name;
    such a channel is no longer in the map and is kept in a list of its own. *)
Inductive held : Type :=
| Current
| Replaced (j : nat).

(** One goroutine [Start] has started: its task, its [restartChan], where it
    is, and the runs it has started, in order (the last one is the one of the
    current iteration). *)
Record task_loop : Type := mkTaskLoop {
  task : string;
  restartChan : held;
  at_ : place;
  instances : list instance
}.

(** [Start] in its second loop, with what its goroutines share: the
    elements of [w.tasks] it has still to go through, the goroutines it has
    started, in order, the map [w.restartChans] with the length of each
    channel, the channels that a duplicate name has replaced, and whether
    [ctx] is cancelled. *)
Record start_state : Type := mkStart {
  todo : list string;
  loops : list task_loop;
  restartChans : gmap string nat;
  replaced : list nat;
  ctx_done : bool
}.

(** What a goroutine can do: start running (read its channel from the map
    and begin the first iteration), have its run of index [i] finish, or
    proceed with one of the cases of its select that is ready. *)
Inductive loop_event : Type :=
| Begin
| ChildExit (i : nat)
| TakeCtxDone
| TakeRestart
| TakeDone.

(** What can happen, as a scheduler interleaves it: [Start] goes through
    the next element of [w.tasks], the debounce timer runs
    [triggerRestarts], the context is cancelled, or the goroutine of index
    [k] moves. An assignment to the map, a range over it and a read of it
    are each taken as one step. *)
Inductive event : Type :=
| Spawn
| Trigger
| CtxCancel
| Loop (k : nat) (ev : loop_event).

(** The head of the [for] body: a new [taskCtx], a new [done] channel and a
    goroutine that runs the task. *)
Definition launch (runs : list instance) : list instance := (runs ++ [Alive])%list.

Definition reap (runs : list instance) : list instance :=
  <[pred (length runs) := Reaped]> runs.

(** One move of [runTaskWithRestart], [pulses] being the length of its
    [restartChan]; the boolean tells whether it has received from it. *)
Definition loop_step (watching done : bool) (pulses : nat) (l : task_loop)
  (ev : loop_event) : option (task_loop * bool) :=
  let move at' runs := mkTaskLoop (task l) (restartChan l) at' runs in
  match ev with
  | Begin =>
      match at_ l with
      | Created => Some (move Selecting (launch (instances l)), false)
      | _ => None
      end
  | ChildExit i =>
      match instances l !! i with
      | Some Alive => Some (move (at_ l) (<[i := Exited]> (instances l)), false)
      | _ => None
      end
  | TakeCtxDone =>
      if done then
        match at_ l with
        | Selecting | Waiting => Some (move Returned (instances l), false)
        | _ => None
        end
      else None
  | TakeRestart =>
      match pulses with
      | S _ =>
          match at_ l with
          | Selecting =>
              if watching then
                (* Cancel current task and restart *)
                Some (move Draining (instances l), true)
              else
                (* the select ends and the loop starts its next iteration *)
                Some (move Selecting (launch (instances l)), true)
          | Waiting => Some (move Selecting (launch (instances l)), true)
          | _ => None
          end
      | 0 => None
      end
  | TakeDone =>
      match last (instances l) with
      | Some Exited =>
          match at_ l with
          | Selecting =>
              (* If not watching, exit after first run *)
              Some (move (if watching then Waiting else Returned)
                      (reap (instances l)), false)
          | Draining => Some (move Selecting (launch (reap (instances l))), false)
          | _ => None
          end
      | _ => None
      end
  end.

(** The length of the channel a goroutine holds. *)
Definition pulses (s : start_state) (l : task_loop) : nat :=
  match restartChan l with
  | Current => default 0 (restartChans s !! task l)
  | Replaced j => default 0 (replaced s !! j)
  end.

(** A receive from the channel a goroutine holds. *)
Definition received (s : start_state) (l : task_loop) : gmap string nat * list nat :=
  match restartChan l with
  | Current => (<[task l := pred (pulses s l)]> (restartChans s), replaced s)
  | Replaced j => (restartChans s, <[j := pred (pulses s l)]> (replaced s))
  end.

(** [w.restartChans[taskName] = make(chan struct{}, 1)] where the map has a
    channel under that name already: a goroutine that has read the old one
    keeps it. *)
Definition keep_replaced (taskName : string) (j : nat) (l : task_loop) : task_loop :=
  match at_ l, restartChan l with
  | Created, _ => l
  | _, Current =>
      if String.eqb (task l) taskName
      then mkTaskLoop (task l) (Replaced j) (at_ l) (instances l)
      else l
  | _, Replaced _ => l
  end.

Definition step (c : Config) (global : bool) (s : start_state) (ev : event)
  : option start_state :=
  match ev with
  | Spawn =>
      match todo s with
      | [] => None
      | taskName :: rest =>
          let new := mkTaskLoop taskName Current Created [] in
          match restartChans s !! taskName with
          | None =>
              Some (mkStart rest (loops s ++ [new])
                      (<[taskName := 0]> (restartChans s)) (replaced s) (ctx_done s))
          | Some len =>
              Some (mkStart rest
                      ((keep_replaced taskName (length (replaced s)) <$> loops s)
                       ++ [new])
                      (<[taskName := 0]> (restartChans s)) (replaced s ++ [len])
                      (ctx_done s))
          end
      end
  | Trigger =>
      Some (mkStart (todo s) (loops s) (triggerRestarts c global (restartChans s))
              (replaced s) (ctx_done s))
  | CtxCancel => Some (mkStart (todo s) (loops s) (restartChans s) (replaced s) true)
  | Loop k ev =>
      match loops s !! k with
      | None => None
      | Some l =>
          match loop_step (shouldWatch c global (task l)) (ctx_done s) (pulses s l) l ev with
          | None => None
          | Some (l', false) =>
              Some (mkStart (todo s) (<[k := l']> (loops s)) (restartChans s)
                      (replaced s) (ctx_done s))
          | Some (l', true) =>
              Some (mkStart (todo s) (<[k := l']> (loops s)) (received s l).1
                      (received s l).2 (ctx_done s))
          end
      end
  end.

Fixpoint exec (c : Config) (global : bool) (sched : list event) (s : start_state)
  : option start_state :=
  match sched with
  | [] => Some s
  | ev :: rest =>
      match step c global s ev with
      | Some s' => exec c global rest s'
      | None => None
      end
  end.

(** [Start] at the head of its second loop: [NewWatcher] has made the map
    empty and no goroutine of a task is started. *)
Definition starting (tasks : list string) (cancelled : bool) : start_state :=
  mkStart tasks [] ∅ [] cancelled.

Definition is_Alive (i : instance) : bool :=
  match i with Alive => true | _ => false end.

Definition is_Trigger (ev : event) : bool :=
  match ev with Trigger => true | _ => false end.

(** The runs a goroutine has started, and those of them that have not
    finished. *)
Definition runs (l : task_loop) : nat := length (instances l).

Definition alive (l : task_loop) : nat := length (List.filter is_Alive (instances l)).

(** A count over all the goroutines of one task. *)
Definition of_task (count : task_loop → nat) (taskName : string) (ls : list task_loop)
  : nat :=
  sum_list_with (λ l, if String.eqb (task l) taskName then count l else 0) ls.

Definition pending (taskName : string) (s : start_state) : nat :=
  default 0 (restartChans s !! taskName).

(** Where the goroutines of one task are. *)
Definition places (taskName : string) (s : start_state) : list place :=
  at_ <$> List.filter (λ l, String.eqb (task l) taskName) (loops s).

Definition runs_no_select (p : place) : Prop :=
  p = Created ∨ p = Selecting ∨ p = Returned.

(** The runs before the current one are over and their results received;
    the current one is received exactly when the loop waits for a restart. *)
Definition one_current (l : task_loop) : Prop :=
  match at_ l with
  | Created => instances l = []
  | _ =>
      ∃ earlier cur,
        instances l = (earlier ++ [cur])%list
        ∧ Forall (λ i, i = Reaped) earlier
        ∧ (at_ l = Waiting → cur = Reaped)
        ∧ (at_ l = Selecting ∨ at_ l = Draining → cur ≠ Reaped)
  end.

(** What a goroutine keeps true, [p] being the length of its channel and
    [n] the number of times [triggerRestarts] has run: a goroutine that has
    not begun has its first run to start, and a restart that is under way has
    taken its pulse and not yet started its run. *)
Definition loop_inv (watching : bool) (p n : nat) (l : task_loop) : Prop :=
  one_current l
  ∧ (watching = false →
     p = 0 ∧ (runs l ≤ 1)%nat ∧ runs_no_select (at_ l))
  ∧ (runs l + p + (match at_ l with Created | Draining => 1 | _ => 0 end) ≤ 1 + n)%nat.

(** What [Start] keeps true where no name is twice in [w.tasks]: the
    goroutines started are those of the elements gone through, each holds the
    channel the map has under its name, and the map has the names gone
    through. *)
Definition start_inv (c : Config) (global : bool) (tasks : list string) (n : nat)
  (s : start_state) : Prop :=
  ((task <$> loops s) ++ todo s)%list = tasks
  ∧ Forall (λ l, restartChan l = Current) (loops s)
  ∧ (∀ taskName, is_Some (restartChans s !! taskName) ↔ taskName ∈ task <$> loops s)
  ∧ Forall (λ l, loop_inv (shouldWatch c global (task l)) (pending (task l) s) n l)
      (loops s).

End restart.

(** ** Sample runs of the watcher's goroutines *)
Module scenarios.
Import restart.

(** [Start] starts the goroutines of [app] and [db]; a file change
    restarts [app]: the pulse is taken, the first run is cancelled and waited
    for, the second run is started and exits. The same file change leaves
    [db] alone; its run exits and its goroutine returns. *)
Definition app_restarted : list event :=
  [Spawn; Loop 0 Begin; Spawn; Trigger; Loop 1 Begin; Loop 0 TakeRestart;
   Loop 0 (ChildExit 0); Loop 1 (ChildExit 0); Loop 0 TakeDone; Loop 1 TakeDone;
   Loop 0 (ChildExit 1); Loop 0 TakeDone].

Definition app_after_restart : start_state :=
  mkStart []
    [mkTaskLoop "app" Current Waiting [Reaped; Reaped];
     mkTaskLoop "db" Current Returned [Reaped]]
    {[ "app" := 0; "db" := 0 ]} [] false.

(** [prun -w app app]: [Start] starts two goroutines for [app], and each
    starts a run. *)
Definition app_twice : list event :=
  [Spawn; Loop 0 Begin; Spawn; Loop 1 Begin].

Definition app_running_twice : start_state :=
  mkStart []
    [mkTaskLoop "app" (Replaced 0) Selecting [Alive];
     mkTaskLoop "app" Current Selecting [Alive]]
    {[ "app" := 0 ]} [0] false.

End scenarios.

(** ** Package ui: the dashboard *)
Module ui.

(** Go's [int] on a 64-bit platform. *)
Definition wrap64 (z : Z) : Z := ((z + 2 ^ 63) mod 2 ^ 64 - 2 ^ 63)%Z.

Definition len {A} (l : list A) : Z := Z.of_nat (length l).

(** [l[i]]: [None] is the run-time panic for an index out of range. *)
Definition index {A} (l : list A) (i : Z) : option A :=
  if (0 <=? i)%Z && (i <? len l)%Z then l !! Z.to_nat i else None.

(** [l[lo:hi]]: [None] stands for bounds that are not within
    [0 <= lo <= hi <= len(l)]. *)
Definition slice {A} (l : list A) (lo hi : Z) : option (list A) :=
  if (0 <=? lo)%Z && (lo <=? hi)%Z && (hi <=? len l)%Z
  then Some (take (Z.to_nat (hi - lo)) (drop (Z.to_nat lo) l))
  else None.

(** Modelled from the spec: the [LogEvent] record of the event bus, whose
    declaration is not among the sources; the fields are those that
    [logEvent] in the watcher sets and [Update] reads ([Task], [Line] and
    [IsErr]; the timestamp is left out, nothing reads it). *)
Record LogEvent : Type := mkLogEvent {
  Task : string;
  Line : string;
  IsErr : bool
}.

(** Model implements a simple TUI with left task list and right log pane. *)
Record Model : Type := mkModel {
  tasks : list string;
  statuses : gmap string string;
  logs : list string;
  selected : Z;
  interacting : bool;
  width : Z;
  height : Z;
  autoScroll : bool;
  logOffset : Z
}.

(** StatusIcon returns the visual indicator for a task status. *)
Definition StatusIcon (status : string) : string :=
  if String.eqb status "running" then "▲"
  else if String.eqb status "done" then "✓"
  else if String.eqb status "failed" then "✗"
  else " ".

(** NewModel creates a new UI model. *)
Definition NewModel (tasks : list string) : Model :=
  mkModel tasks (fold_left (λ st t, <[t := "idle"]> st) tasks ∅) []
    0 false 80 24 true 0.

(** The messages [Update] distinguishes; a key message is given by its
    [String()]. *)
Inductive Msg : Type :=
| logMsg (ev : LogEvent)
| KeyMsg (key : string)
| tickMsg
| WindowSizeMsg (Width Height : Z)
| OtherMsg.

Inductive Cmd : Type :=
| NoCmd
| Quit
| Tick (ms : Z)
| ClearAndTick (ms : Z).

Definition is_key (key : string) (names : list string) : bool :=
  existsb (String.eqb key) names.

(** Update handles messages. *)
Definition Update (m : Model) (msg : Msg) : Model * Cmd :=
  match msg with
  | logMsg ev =>
      (* append to logs and update status *)
      let logs1 := (logs m ++ ["[" +:+ Task ev +:+ "] " +:+ Line ev])%list in
      let statuses1 := <[Task ev := "running"]> (statuses m) in
      (* keep logs bounded *)
      let logs2 := if (500 <? len logs1)%Z
                   then drop (Z.to_nat (len logs1 - 500)) logs1
                   else logs1 in
      (mkModel (tasks m) statuses1 logs2 (selected m) (interacting m)
         (width m) (height m) (autoScroll m) (logOffset m), NoCmd)
  | KeyMsg key =>
      if is_key key ["q"; "esc"; "ctrl+c"] then (m, Quit)
      else if is_key key ["up"; "k"] then
        (if (0 <? selected m)%Z then
           mkModel (tasks m) (statuses m) (logs m) (selected m - 1) (interacting m)
             (width m) (height m) true (logOffset m)
         else m, NoCmd)
      else if is_key key ["down"; "j"] then
        (if (selected m <? len (tasks m) - 1)%Z then
           mkModel (tasks m) (statuses m) (logs m) (selected m + 1) (interacting m)
             (width m) (height m) true (logOffset m)
         else m, NoCmd)
      else if is_key key ["pgup"] then
        (if (0 <? logOffset m)%Z then
           let off := (logOffset m - 10)%Z in
           let off := if (off <? 0)%Z then 0%Z else off in
           mkModel (tasks m) (statuses m) (logs m) (selected m) (interacting m)
             (width m) (height m) false off
         else m, NoCmd)
      else if is_key key ["pgdown"; " "] then
        (mkModel (tasks m) (statuses m) (logs m) (selected m) (interacting m)
           (width m) (height m) false (wrap64 (logOffset m + 10)), NoCmd)
      else if is_key key ["home"] then
        (mkModel (tasks m) (statuses m) (logs m) (selected m) (interacting m)
           (width m) (height m) false 0, NoCmd)
      else if is_key key ["end"] then
        (mkModel (tasks m) (statuses m) (logs m) (selected m) (interacting m)
           (width m) (height m) true 0, NoCmd)
      else (m, NoCmd)
  | tickMsg => (m, Tick 200)
  | WindowSizeMsg w h =>
      (mkModel (tasks m) (statuses m) (logs m) (selected m) (interacting m)
         w h (autoScroll m) (logOffset m), ClearAndTick 50)
  | OtherMsg => (m, NoCmd)
  end.

(** The model after the program has delivered [msgs] in order. *)
Definition run (msgs : list Msg) (m : Model) : Model :=
  fold_left (λ m msg, fst (Update m msg)) msgs m.

(** *** View

    What [View] puts on the screen, without the styling: the lines of the
    left pane, the task the right pane is about, and the content of the
    right pane. *)
Inductive left_line : Type :=
| TitleLine
| BlankLine
| TaskLine (icon : string) (is_selected : bool) (task : string).

Inductive right_pane : Type :=
| NoLogsYet
| NoLogsForTask
| LogLines (lines : list string).

Inductive view : Type :=
| TooSmall (w h : Z)
| Screen (shownLeft : list left_line) (selectedTask : string) (shownRight : right_pane).

Definition leftLines (m : Model) : list left_line :=
  TitleLine :: BlankLine
  :: imap (λ i t, TaskLine (StatusIcon (default "" (statuses m !! t)))
                    (bool_decide (Z.of_nat i = selected m)) t)
          (tasks m).

Definition availableTaskHeight (height : Z) : Z :=
  let a := (height - 8)%Z in
  if (a <? 3)%Z then 3%Z else a.

(** The window around the selected task: [(startIdx, endIdx)]. *)
Definition task_window (n_lines availableTaskHeight selected : Z) : Z * Z :=
  let selectedLineIndex := (selected + 2)%Z in
  let halfWindow := (availableTaskHeight ÷ 2)%Z in
  let startIdx := (selectedLineIndex - halfWindow)%Z in
  let startIdx := if (startIdx <? 2)%Z then 2%Z else startIdx in
  let endIdx := (startIdx + availableTaskHeight)%Z in
  if (n_lines <? endIdx)%Z then
    let endIdx := n_lines in
    let startIdx := (endIdx - availableTaskHeight)%Z in
    let startIdx := if (startIdx <? 2)%Z then 2%Z else startIdx in
    (startIdx, endIdx)
  else (startIdx, endIdx).

Definition displayedLeftLines (m : Model) : option (list left_line) :=
  let lines := leftLines m in
  let avail := availableTaskHeight (height m) in
  if (avail + 2 <? len lines)%Z then
    let '(startIdx, endIdx) := task_window (len lines) avail (selected m) in
    match slice lines startIdx endIdx with
    | Some shown => Some (TitleLine :: BlankLine :: shown)
    | None => None
    end
  else Some lines.

Definition availableHeight (height : Z) : Z :=
  let a := (height - 8)%Z in
  if (a <? 5)%Z then 5%Z else a.

Definition leftWidth (width : Z) : Z :=
  if (width - 10 <? 35)%Z then
    let w := (width ÷ 3)%Z in
    if (w <? 20)%Z then 20%Z else w
  else 35%Z.

Definition rightWidth (width : Z) : Z :=
  let w := (width - leftWidth width - 5)%Z in
  if (w <? 20)%Z then 20%Z else w.

Definition maxLineWidth (width : Z) : Z :=
  let w := (rightWidth width - 6)%Z in
  if (w <? 10)%Z then 10%Z else w.

Definition HasPrefix (s prefix : string) : bool := String.prefix prefix s.

Definition TrimPrefix (s prefix : string) : string :=
  if HasPrefix s prefix then bufio.str_drop (String.length prefix) s else s.

(** Filter logs for selected task. *)
Definition filteredLogs (logs : list string) (selectedTask : string) : list string :=
  flat_map (λ log,
              if HasPrefix log ("[" +:+ selectedTask +:+ "]")
              then [TrimPrefix log ("[" +:+ selectedTask +:+ "] ")]
              else [])
           logs.

(** The inner loop that wraps a long line: pieces of [maxLineWidth] bytes,
    then what is left. Each turn shortens the line, so [fuel] turns are
    enough when [fuel] is its length. *)
Fixpoint wrap_loop (fuel : nat) (maxLineWidth : nat) (line : string) : list string :=
  match fuel with
  | O => []
  | S fuel' =>
      if Nat.ltb maxLineWidth (String.length line) then
        bufio.str_take maxLineWidth line
        :: wrap_loop fuel' maxLineWidth (bufio.str_drop maxLineWidth line)
      else if Nat.ltb 0 (String.length line) then [line]
      else []
  end.

Definition wrapLine (maxLineWidth : nat) (line : string) : list string :=
  if Nat.leb (String.length line) maxLineWidth then [line]
  else wrap_loop (S (String.length line)) maxLineWidth line.

(** Show only the last N lines that fit in available height:
    [(start, end)]. *)
Definition log_window (n maxLogLines : Z) (autoScroll : bool) (logOffset : Z) : Z * Z :=
  let start :=
    if (maxLogLines <? n)%Z then
      if autoScroll then (n - maxLogLines)%Z
      else
        let start := logOffset in
        let start := if (n - maxLogLines <? start)%Z then (n - maxLogLines)%Z else start in
        if (start <? 0)%Z then 0%Z else start
    else 0%Z in
  let end_ := (start + maxLogLines)%Z in
  let end_ := if (n <? end_)%Z then n else end_ in
  (start, end_).

Definition wrappedLogs (m : Model) (selectedTask : string) : list string :=
  flat_map (wrapLine (Z.to_nat (maxLineWidth (width m))))
           (filteredLogs (logs m) selectedTask).

Definition rightPane (m : Model) (selectedTask : string) : option right_pane :=
  if (len (logs m) =? 0)%Z then Some NoLogsYet
  else if (len (filteredLogs (logs m) selectedTask) =? 0)%Z then Some NoLogsForTask
  else
    let wrapped := wrappedLogs m selectedTask in
    let '(start, end_) :=
      log_window (len wrapped) (availableHeight (height m)) (autoScroll m) (logOffset m) in
    match slice wrapped start end_ with
    | Some shown => Some (LogLines shown)
    | None => None
    end.

(** View renders the UI; [None] is a run-time panic. *)
Definition View (m : Model) : option view :=
  if (width m <? 60)%Z || (height m <? 10)%Z then Some (TooSmall (width m) (height m))
  else
    match displayedLeftLines m with
    | None => None
    | Some shownLeft =>
        match index (tasks m) (selected m) with
        | None => None
        | Some selectedTask =>
            match rightPane m selectedTask with
            | Some shownRight => Some (Screen shownLeft selectedTask shownRight)
            | None => None
            end
        end
    end.

(** The lines [Update] has formatted for the log messages among [msgs]. *)
Definition formatted (msgs : list Msg) : list string :=
  flat_map (λ msg, match msg with
                   | logMsg ev => ["[" +:+ Task ev +:+ "] " +:+ Line ev]
                   | _ => []
                   end) msgs.

Definition no_bracket (s : string) : Prop :=
  Forall (λ ch, ch ≠ "]"%char) (list_ascii_of_string s).

End ui.

(** ** What the dashboard keeps true *)
Module dashboard.
Import ui.

(** The selection stays on a task of the list (on index 0 when the list is
    empty), and a status is "idle" or "running". *)
Definition well_formed (tasks0 : list string) (m : Model) : Prop :=
  tasks m = tasks0
  ∧ (0 ≤ selected m)%Z
  ∧ (selected m = 0 ∨ selected m < len tasks0)%Z
  ∧ map_Forall (λ _ status, status = "idle" ∨ status = "running") (statuses m).

(** The icon of a task line is the blank of an idle task or the triangle
    of a running one. *)
Definition idle_or_running (l : left_line) : Prop :=
  match l with
  | TaskLine icon _ _ => icon = " " ∨ icon = StatusIcon "running"
  | _ => True
  end.

(** The last [n] elements. *)
Definition last_n {A} (n : nat) (l : list A) : list A := drop (length l - n) l.

(** The text of wrapped pieces put together again. *)
Definition joined (pieces : list string) : string := fold_right String.append "" pieces.

End dashboard.

(** ** Package main: from the command line to the supervisor *)
Module prun.
Import config cli.

Definition exitCodeConfigNotFound : Z := 2.
Definition exitCodeParseFailed : Z := 3.
Definition exitCodeRunFailed : Z := 1.

(** What [main] has done when it reaches the supervisor, or before: it has
    printed the help or the task list and exited with 0, it has written a
    message to standard error and exited with a code, or it starts the tasks,
    under the watcher or the plain runner, with or without the dashboard. *)
Inductive outcome : Type :=
| Help
| Fatal (code : Z) (stderr : string)
| Listed (stdout : list string)
| Launch (interactive needsWatcher : bool) (cfg : Config) (tasksToRun : list string)
    (verbose watch : bool).

(** Check if any task has watch enabled or global watch flag is set. *)
Definition needsWatcher (watch : bool) (cfg : Config) (tasksToRun : list string) : bool :=
  watch || existsb (λ taskName, Watch (lookupTaskDef cfg taskName)) tasksToRun.

(** [main] up to the start of the tasks: [fs] holds the files that exist,
    [newWatcher] is the error of [fsnotify.NewWatcher], if any, and [args] is
    the command line after the program name. *)
Definition main (fs : files) (newWatcher : option error) (args : list string) : outcome :=
  match Parse formal defaults args with
  | Exit2 msg => Fatal 2 msg
  | Parsed f positional =>
      if showHelp f then Help
      else
        (* Check if config file exists *)
        match fs !! configPath f with
        | None =>
            Fatal exitCodeConfigNotFound
              ("prun: no " +:+ configPath f +:+ " found — run `prun --help` to see usage")
        | Some _ =>
            match Load fs (configPath f) with
            | Err err => Fatal exitCodeParseFailed ("prun: failed to parse config: " +:+ err)
            | Ok cfg =>
                if list_ f then
                  Listed ("Configured tasks:"
                          :: map (λ taskName,
                                    "  " +:+ taskName +:+ ": "
                                    +:+ Cmd (lookupTaskDef cfg taskName))
                                 (Tasks cfg))
                else
                  match GetTasksToRun cfg positional with
                  | Err err => Fatal exitCodeRunFailed ("prun: " +:+ err)
                  | Ok tasksToRun =>
                      if Nat.eqb (length tasksToRun) 0 then Fatal 0 "prun: no tasks to run"
                      else
                        let needs := needsWatcher (watch f) cfg tasksToRun in
                        match (if needs then newWatcher else None) with
                        | Some err =>
                            Fatal exitCodeRunFailed
                              ("prun: failed to create watcher: " +:+ err)
                        | None =>
                            Launch (interactive f) needs cfg tasksToRun
                              (verbose f) (watch f)
                        end
                  end
            end
        end
  end.

End prun.

(** ** Sample screens *)
Module screens.

(** The dashboard for [app] and [db] after a line from each and a move of
    the selection down to [db], and what it shows. *)
Definition two_lines : list ui.Msg :=
  [ui.logMsg (ui.mkLogEvent "app" "listening" false);
   ui.logMsg (ui.mkLogEvent "db" "ready" false);
   ui.KeyMsg "down"].

Definition db_selected : list ui.left_line :=
  [ui.TitleLine; ui.BlankLine;
   ui.TaskLine (ui.StatusIcon "running") false "app";
   ui.TaskLine (ui.StatusIcon "running") true "db"].

End screens.

(** * Theorems *)

(** ** Task selection *)
Section Selection.
Import config.

Lemma validate_requested_defined defs args :
  Forall (λ n, is_Some (defs !! n)) args → validate_requested defs args = None.
Proof.
  induction 1 as [|n rest [td Hn] _ IH]; simpl; [done|].
  by rewrite Hn.
Qed.

Lemma validate_requested_undefined defs args :
  Exists (λ n, defs !! n = None) args →
  ∃ n, n ∈ args ∧ defs !! n = None
       ∧ validate_requested defs args
         = Some ("task '" +:+ n +:+ "' not defined in config").
Proof.
  induction 1 as [n rest Hn | n rest _ IH]; simpl.
  - rewrite Hn. exists n. split; [apply list_elem_of_here | done].
  - destruct (defs !! n) eqn:Hn.
    + destruct IH as (m & Hm & Hnone & ->). exists m.
      split; [by apply list_elem_of_further | done].
    + exists n. split; [apply list_elem_of_here | done].
Qed.

Lemma GetTasksToRun_defined (c : Config) (args : list string) :
  args ≠ [] → Forall (λ n, is_Some (TaskDefs c !! n)) args →
  GetTasksToRun c args = Ok args.
Proof.
  intros Hne Hall. unfold GetTasksToRun. destruct args as [|a rest]; [done|].
  simpl Nat.eqb. cbv iota. by rewrite validate_requested_defined.
Qed.

(** C7. With no positional argument the run set is the manifest's task
    order; with arguments that are all defined it is the argument list
    itself; with an argument that names no defined task, selection returns an
    error, which names such an argument, and no run set. *)
Theorem GetTasksToRun_selection (c : Config) (args : list string) :
  (args = [] → GetTasksToRun c args = Ok (Tasks c))
  ∧ (args ≠ [] → Forall (λ n, is_Some (TaskDefs c !! n)) args →
     GetTasksToRun c args = Ok args)
  ∧ (Exists (λ n, TaskDefs c !! n = None) args →
     ∃ n, n ∈ args ∧ TaskDefs c !! n = None
          ∧ GetTasksToRun c args = Err ("task '" +:+ n +:+ "' not defined in config")).
Proof.
  split; [|split].
  - intros ->. reflexivity.
  - intros Hne Hall. by apply GetTasksToRun_defined.
  - intros Hex. unfold GetTasksToRun.
    destruct args as [|a rest]; [by apply Exists_nil in Hex|].
    simpl Nat.eqb. cbv iota.
    destruct (validate_requested_undefined _ _ Hex) as (n & Hin & Hnone & ->).
    eauto.
Qed.

End Selection.

(** C7 at the sample manifest: no argument, one defined argument, one
    undefined argument. *)
Lemma GetTasksToRun_selection_witness :
  config.GetTasksToRun samples.simple [] = Ok ["hello"; "world"]
  ∧ config.GetTasksToRun samples.simple ["world"] = Ok ["world"]
  ∧ ∃ n, n ∈ ["nope"] ∧ config.TaskDefs samples.simple !! n = None
         ∧ config.GetTasksToRun samples.simple ["nope"]
           = Err ("task '" +:+ n +:+ "' not defined in config").
Proof.
  split; [|split].
  - apply (proj1 (GetTasksToRun_selection samples.simple [])). reflexivity.
  - apply (proj1 (proj2 (GetTasksToRun_selection samples.simple ["world"]))).
    + discriminate.
    + repeat constructor. vm_compute. eauto.
  - apply (proj2 (proj2 (GetTasksToRun_selection samples.simple ["nope"]))).
    constructor. vm_compute. reflexivity.
Defined.

(** ** The executor *)
Section Executor.
Import config runner.

(** Both branches of the [useShell] test build the same command. *)
Lemma runTask_cmd_always_shell environ taskDef :
  cmd_Path (runTask_cmd environ taskDef) = "/bin/sh"
  ∧ Args (runTask_cmd environ taskDef) = ["/bin/sh"; "-c"; config.Cmd taskDef].
Proof. unfold runTask_cmd. by destruct (useShell taskDef). Qed.

(** With [useShell] true the command is run by the shell with [-c], as the
    specification words it. *)
Lemma runTask_cmd_shell environ taskDef :
  useShell taskDef = true →
  Args (runTask_cmd environ taskDef) = spec.spawn_argv taskDef.
Proof.
  intros H. unfold spec.spawn_argv. rewrite H.
  apply runTask_cmd_always_shell.
Qed.

(** C1, at a task with [shell = false] and command [echo hi]: the executor
    still runs [/bin/sh -c "echo hi"], where the specification has the
    command tokenised into [echo], [hi] and executed without a shell. *)
Theorem runTask_shell_false_still_shell :
  useShell samples.no_shell = false
  ∧ cmd_Path (runTask_cmd [] samples.no_shell) = "/bin/sh"
  ∧ Args (runTask_cmd [] samples.no_shell) = ["/bin/sh"; "-c"; "echo hi"]
  ∧ spec.spawn_argv samples.no_shell = ["echo"; "hi"]
  ∧ Args (runTask_cmd [] samples.no_shell) ≠ spec.spawn_argv samples.no_shell.
Proof. vm_compute. repeat split; discriminate. Qed.

Lemma cmd_Wait_nil code : cmd_Wait code = None ↔ code = 0%Z.
Proof.
  unfold cmd_Wait. destruct (Z.eqb_spec code 0); [done|].
  destruct (code <? 0)%Z; split; intros; done.
Qed.

(** C3. A non-zero exit code of the child makes [runTask] return an error
    exactly when the context had not been cancelled; under cancellation the
    non-zero exit is returned as nil. *)
Theorem runTask_nonzero_exit (ctx_done : bool) (stdout stderr : bufio.Reader) (code : Z) :
  code ≠ 0%Z →
  (is_Some (runTask_result ctx_done (Exits stdout stderr code)) ↔ ctx_done = false)
  ∧ (ctx_done = true → runTask_result ctx_done (Exits stdout stderr code) = None).
Proof.
  intros Hcode. unfold runTask_result.
  destruct (cmd_Wait code) as [e|] eqn:Hw.
  - destruct ctx_done; (split; [split|]); intros H; try done; eauto;
      by destruct H.
  - apply cmd_Wait_nil in Hw. done.
Qed.

(** An exit code of zero is never a failure. *)
Lemma runTask_zero_exit ctx_done stdout stderr :
  runTask_result ctx_done (Exits stdout stderr 0) = None.
Proof. reflexivity. Qed.

End Executor.

(** C3 at exit code 2, with the context live and with it cancelled. *)
Lemma runTask_nonzero_exit_witness :
  (is_Some (runner.runTask_result false (samples.exits 2)) ↔ false = false)
  ∧ (is_Some (runner.runTask_result true (samples.exits 2)) ↔ true = false).
Proof.
  split.
  - apply (proj1 (runTask_nonzero_exit false [] [] 2 ltac:(lia))).
  - apply (proj1 (runTask_nonzero_exit true [] [] 2 ltac:(lia))).
Defined.

(** ** The supervisor *)
Section Supervisor.
Import runner.

Lemma count_insert f gs i g n p :
  gs !! i = Some g →
  count f (<[i:=mkGoroutine n p]> gs) + (if f (at_ g) then 1 else 0)
  = count f gs + (if f p then 1 else 0).
Proof.
  revert i. induction gs as [|h rest IH]; intros [|i] H; simpl in *; try done.
  - injection H as ->. lia.
  - specialize (IH i H). lia.
Qed.

Lemma count_zero f gs :
  Forall (λ g, f (at_ g) = false) gs → count f gs = 0.
Proof. induction 1 as [|g rest Hg _ IH]; simpl; [done|]. by rewrite Hg, IH. Qed.

Lemma count_pos f gs g :
  g ∈ gs → f (at_ g) = true → (0 < count f gs)%nat.
Proof.
  induction 1 as [g rest | g h rest _ IH]; simpl; intros Hf.
  - rewrite Hf. lia.
  - specialize (IH Hf). lia.
Qed.

(** The effect on a count of moving goroutine [i] from where [Hat] says it
    is to [p]. *)
Ltac moved f g Hg Hat p :=
  let Hcount := fresh "Hcount" in
  pose proof (count_insert f _ _ g (name g) p Hg) as Hcount;
  rewrite Hat in Hcount; simpl in Hcount.

(** What one step does to the shared state, by the kind of event. *)
Lemma step_inv s ev s' :
  step s ev = Some s' →
  match ev with
  | Returns i c =>
      ∃ g p, goroutines s !! i = Some g ∧ at_ g = Running
             ∧ (p = Done ∨ ∃ e, p = Failed e)
             ∧ s' = mkRun (ctx_cancelled s) (errChan s) (set_pc s i g p)
  | Sends i =>
      ∃ g e, goroutines s !! i = Some g ∧ at_ g = Failed e
             ∧ s' = mkRun (ctx_cancelled s) (errChan s ++ [e])%list (set_pc s i g Sent)
  | Cancels i =>
      ∃ g, goroutines s !! i = Some g ∧ at_ g = Sent
           ∧ s' = mkRun true (errChan s) (set_pc s i g Done)
  | ParentCancels => s' = mkRun true (errChan s) (goroutines s)
  end.
Proof.
  destruct ev as [i c | i | i |]; simpl.
  - destruct (goroutines s !! i) as [g|] eqn:Hg; [|done].
    destruct (at_ g) eqn:Hat; try done.
    destruct (runTask_result (ctx_cancelled s) c) as [e|]; intros [= <-].
    + exists g, (Failed ("task '" +:+ name g +:+ "': " +:+ e)). eauto 10.
    + exists g, Done. eauto 10.
  - destruct (goroutines s !! i) as [g|] eqn:Hg; [|done].
    destruct (at_ g) eqn:Hat; try done. intros [= <-]. eauto 10.
  - destruct (goroutines s !! i) as [g|] eqn:Hg; [|done].
    destruct (at_ g) eqn:Hat; try done. intros [= <-]. eauto 10.
  - by intros [= <-].
Qed.

Lemma exec_app pre post s :
  exec (pre ++ post) s = exec pre s ≫= exec post.
Proof.
  revert s. induction pre as [|ev pre IH]; intros s; simpl; [done|].
  destruct (step s ev); simpl; [apply IH | done].
Qed.

Lemma step_length s ev s' :
  step s ev = Some s' → length (goroutines s') = length (goroutines s).
Proof.
  intros H. apply step_inv in H. destruct ev.
  - destruct H as (g & p & _ & _ & _ & ->). apply length_insert.
  - destruct H as (g & e & _ & _ & ->). apply length_insert.
  - destruct H as (g & _ & _ & ->). apply length_insert.
  - by subst.
Qed.

Lemma exec_length sched s s' :
  exec sched s = Some s' → length (goroutines s') = length (goroutines s).
Proof.
  revert s. induction sched as [|ev rest IH]; intros s; simpl.
  - by intros [= <-].
  - destruct (step s ev) as [s1|] eqn:Hs; [|done].
    intros H. rewrite (IH _ H). by eapply step_length.
Qed.

(** [errChan] is a queue: a step appends at most one error, and only a
    send appends. *)
Lemma step_errChan s ev s' :
  step s ev = Some s' →
  ∃ l, errChan s' = (errChan s ++ l)%list ∧ (is_Sends ev = false → l = []).
Proof.
  intros H. apply step_inv in H. destruct ev.
  - destruct H as (g & p & _ & _ & _ & ->). exists []. by rewrite app_nil_r.
  - destruct H as (g & e & _ & _ & ->). by exists [e].
  - destruct H as (g & _ & _ & ->). exists []. by rewrite app_nil_r.
  - subst. exists []. by rewrite app_nil_r.
Qed.

Lemma exec_errChan sched s s' :
  exec sched s = Some s' → ∃ l, errChan s' = (errChan s ++ l)%list.
Proof.
  revert s. induction sched as [|ev rest IH]; intros s; simpl.
  - intros [= <-]. exists []. by rewrite app_nil_r.
  - destruct (step s ev) as [s1|] eqn:Hs; [|done]. intros H.
    destruct (step_errChan _ _ _ Hs) as (l1 & H1 & _).
    destruct (IH _ H) as (l2 & ->). exists (l1 ++ l2)%list.
    by rewrite H1, app_assoc.
Qed.

Lemma step_uncancelled s ev s' :
  step s ev = Some s' → uncancelled_inv s → uncancelled_inv s'.
Proof.
  intros H Inv. apply step_inv in H. unfold uncancelled_inv in *. destruct ev.
  - destruct H as (g & p & Hg & Hat & Hp & ->). simpl. intros Hc.
    rewrite (Inv Hc). unfold set_pc.
    moved is_Sent g Hg Hat p.
    destruct Hp as [-> | [e ->]]; simpl in *; lia.
  - destruct H as (g & e & Hg & Hat & ->). simpl. intros Hc.
    rewrite length_app, (Inv Hc). simpl. unfold set_pc.
    moved is_Sent g Hg Hat Sent. lia.
  - destruct H as (g & _ & _ & ->). simpl. done.
  - subst. simpl. done.
Qed.

Lemma exec_uncancelled sched s s' :
  exec sched s = Some s' → uncancelled_inv s → uncancelled_inv s'.
Proof.
  revert s. induction sched as [|ev rest IH]; intros s; simpl.
  - by intros [= <-].
  - destruct (step s ev) as [s1|] eqn:Hs; [|done]. intros H Inv.
    eapply IH; [done|]. by eapply step_uncancelled.
Qed.

Lemma step_sent s ev s' :
  step s ev = Some s' → sent_inv s → sent_inv s'.
Proof.
  intros H Inv. apply step_inv in H. unfold sent_inv in *. destruct ev.
  - destruct H as (g & p & Hg & Hat & Hp & ->). simpl. unfold set_pc.
    moved is_Sent g Hg Hat p.
    destruct Hp as [-> | [e ->]]; simpl in *; lia.
  - destruct H as (g & e & Hg & Hat & ->). simpl.
    rewrite length_app. simpl. unfold set_pc.
    moved is_Sent g Hg Hat Sent. lia.
  - destruct H as (g & Hg & Hat & ->). simpl. unfold set_pc.
    moved is_Sent g Hg Hat Done. lia.
  - subst. simpl. done.
Qed.

Lemma exec_sent sched s s' :
  exec sched s = Some s' → sent_inv s → sent_inv s'.
Proof.
  revert s. induction sched as [|ev rest IH]; intros s; simpl.
  - by intros [= <-].
  - destruct (step s ev) as [s1|] eqn:Hs; [|done]. intros H Inv.
    eapply IH; [done|]. by eapply step_sent.
Qed.

Lemma step_pending s ev s' :
  step s ev = Some s' → (pending s ≤ pending s')%nat.
Proof.
  intros H. apply step_inv in H. unfold pending. destruct ev.
  - destruct H as (g & p & Hg & Hat & Hp & ->). simpl. unfold set_pc.
    moved is_Failed g Hg Hat p.
    destruct Hp as [-> | [e ->]]; simpl in *; lia.
  - destruct H as (g & e & Hg & Hat & ->). simpl.
    rewrite length_app. simpl. unfold set_pc.
    moved is_Failed g Hg Hat Sent. lia.
  - destruct H as (g & Hg & Hat & ->). simpl. unfold set_pc.
    moved is_Failed g Hg Hat Done. lia.
  - subst. simpl. done.
Qed.

Lemma exec_pending sched s s' :
  exec sched s = Some s' → (pending s ≤ pending s')%nat.
Proof.
  revert s. induction sched as [|ev rest IH]; intros s; simpl.
  - by intros [= <-].
  - destruct (step s ev) as [s1|] eqn:Hs; [|done]. intros H.
    etrans; [by eapply step_pending | by apply IH].
Qed.

(** [Run] starts each executor once: no step takes a goroutine whose
    [runTask] has returned back to a running one. *)
Lemma step_never_reruns s ev s' i g g' :
  step s ev = Some s' →
  goroutines s !! i = Some g → at_ g ≠ Running →
  goroutines s' !! i = Some g' → at_ g' ≠ Running.
Proof.
  intros Hstep Hg Hat Hg'. apply step_inv in Hstep.
  assert (∀ j h p, goroutines s !! j = Some h → p ≠ Running →
            set_pc s j h p !! i = Some g' → at_ g' ≠ Running) as Hset.
  { intros j h p Hh Hp Hlook. unfold set_pc in Hlook.
    destruct (decide (j = i)) as [->|Hne].
    - rewrite list_lookup_insert_eq in Hlook by (by eapply lookup_lt_Some).
      by injection Hlook as <-.
    - rewrite list_lookup_insert_ne in Hlook by done. congruence. }
  destruct ev as [j ch | j | j |].
  - destruct Hstep as (h & p & Hh & _ & Hp & ->). simpl in Hg'.
    eapply Hset; [exact Hh | | exact Hg']. destruct Hp as [-> | [e ->]]; done.
  - destruct Hstep as (h & e & Hh & _ & ->). simpl in Hg'.
    eapply Hset; [exact Hh | | exact Hg']. done.
  - destruct Hstep as (h & Hh & _ & ->). simpl in Hg'.
    eapply Hset; [exact Hh | | exact Hg']. done.
  - subst. simpl in Hg'. congruence.
Qed.

(** The first error of the queue is the one the first send put there. *)
Lemma first_send sched s s' :
  exec sched s = Some s' → errChan s = [] → errChan s' ≠ [] →
  ∃ pre i post s1 g e,
    sched = (pre ++ Sends i :: post)%list
    ∧ Forall (λ ev, is_Sends ev = false) pre
    ∧ exec pre s = Some s1
    ∧ goroutines s1 !! i = Some g
    ∧ at_ g = Failed e
    ∧ head (errChan s') = Some e.
Proof.
  revert s. induction sched as [|ev rest IH]; intros s; simpl.
  - intros [= <-] Hnil Hne. done.
  - destruct (step s ev) as [s2|] eqn:Hs; [|done]. intros Hrest Hnil Hne.
    destruct (is_Sends ev) eqn:Hev.
    + destruct ev as [| i | |]; try done.
      pose proof (step_inv _ _ _ Hs) as (g & e & Hg & Hat & ->).
      destruct (exec_errChan _ _ _ Hrest) as [l Hl]. simpl in Hl.
      exists [], i, rest, s, g, e. rewrite Hl, Hnil. simpl. eauto 10.
    + destruct (step_errChan _ _ _ Hs) as (l & Hl & Hempty).
      rewrite (Hempty Hev), app_nil_r, Hnil in Hl.
      destruct (IH s2 Hrest Hl Hne) as (pre & i & post & s1 & g & e & -> & Hpre & Hex & Hg & Hat & Hhd).
      exists (ev :: pre), i, post, s1, g, e. simpl. rewrite Hs.
      repeat split; eauto.
Qed.

Lemma forallb_is_Done gs :
  forallb is_Done gs = true → Forall (λ g, at_ g = Done) gs.
Proof.
  induction gs as [|g rest IH]; simpl; [constructor|].
  intros [Hg Hrest]%andb_prop. constructor; [|by apply IH].
  unfold is_Done in Hg. by destruct (at_ g).
Qed.

Lemma start_all_invs tasks parent :
  uncancelled_inv (start_all tasks parent)
  ∧ sent_inv (start_all tasks parent)
  ∧ errChan (start_all tasks parent) = [].
Proof.
  assert (count is_Sent (goroutines (start_all tasks parent)) = 0) as H.
  { apply count_zero. simpl. apply Forall_fmap. by apply Forall_true. }
  unfold uncancelled_inv, sent_inv. rewrite H. simpl. split; [done|]. split; [lia|done].
Qed.

(** Under every interleaving of the executors, once [Run] returns: all
    executors have exited; a returned error is the one queued by the first
    executor to send on [errChan], and the shared context has been cancelled
    by then; nil is returned only when no [runTask] call has returned an error
    at any point of the run. *)
Lemma Run_returned (tasks : list string) (parent : bool) (sched : list event)
    (s : run_state) (r : option error) :
  exec sched (start_all tasks parent) = Some s →
  Run_return s = Some r →
  Forall (λ g, at_ g = Done) (goroutines s)
  ∧ length (goroutines s) = length tasks
  ∧ match r with
    | Some err =>
        ctx_cancelled s = true
        ∧ ∃ pre i post s1 g,
            sched = (pre ++ Sends i :: post)%list
            ∧ Forall (λ ev, is_Sends ev = false) pre
            ∧ exec pre (start_all tasks parent) = Some s1
            ∧ goroutines s1 !! i = Some g
            ∧ at_ g = Failed err
    | None =>
        ∀ pre post s1,
          sched = (pre ++ post)%list →
          exec pre (start_all tasks parent) = Some s1 →
          Forall (λ g, at_ g = Running ∨ at_ g = Done) (goroutines s1)
    end.
Proof.
  intros Hexec Hret. unfold Run_return in Hret.
  destruct (forallb is_Done (goroutines s)) eqn:Hall; [|done].
  injection Hret as <-. apply forallb_is_Done in Hall.
  destruct (start_all_invs tasks parent) as (Hun & Hsent & Hnil).
  split; [done|]. split.
  { rewrite (exec_length _ _ _ Hexec). simpl. apply length_fmap. }
  assert (count is_Sent (goroutines s) = 0) as Hno_sent.
  { apply count_zero. eapply Forall_impl; [exact Hall|]. by intros g ->. }
  assert (count is_Failed (goroutines s) = 0) as Hno_failed.
  { apply count_zero. eapply Forall_impl; [exact Hall|]. by intros g ->. }
  destruct (errChan s) as [|err l] eqn:Hchan; simpl.
  - intros pre post s1 -> Hpre.
    rewrite exec_app, Hpre in Hexec. simpl in Hexec.
    apply Forall_forall. intros g Hg.
    destruct (at_ g) as [| e | |] eqn:Hat; eauto.
    + pose proof (exec_pending _ _ _ Hexec) as Hmono. unfold pending in Hmono.
      rewrite Hchan, Hno_failed in Hmono. simpl in Hmono.
      assert (0 < count is_Failed (goroutines s1))%nat
        by (eapply count_pos; [exact Hg | by rewrite Hat]).
      lia.
    + pose proof (exec_sent _ _ _ Hpre Hsent) as Hs1. unfold sent_inv in Hs1.
      assert (0 < count is_Sent (goroutines s1))%nat
        by (eapply count_pos; [exact Hg | by rewrite Hat]).
      destruct (exec_errChan _ _ _ Hexec) as [l Hl]. rewrite Hchan in Hl.
      destruct (errChan s1); simpl in *; [lia | done].
  - split.
    + pose proof (exec_uncancelled _ _ _ Hexec Hun) as Hfin.
      unfold uncancelled_inv in Hfin. rewrite Hchan, Hno_sent in Hfin.
      destruct (ctx_cancelled s); [done|]. by specialize (Hfin eq_refl).
    + destruct (first_send _ _ _ Hexec Hnil) as (pre & i & post & s1 & g & e & H);
        [by rewrite Hchan|].
      destruct H as (-> & Hpre & Hex & Hg & Hat & Hhd).
      rewrite Hchan in Hhd. injection Hhd as <-.
      exists pre, i, post, s1, g. eauto 10.
Qed.

(** [Run] does return: when every child exits with status 0, the
    executors returning one after the other end the run with nil. *)
Lemma exec_all_exit_zero (rest : list string) : ∀ (finished : list goroutine) parent chan,
  exec (map (λ i, Returns i (Exits [] [] 0)) (seq (length finished) (length rest)))
       (mkRun parent chan (finished ++ map (λ n, mkGoroutine n Running) rest))
  = Some (mkRun parent chan (finished ++ map (λ n, mkGoroutine n Done) rest)).
Proof.
  induction rest as [|t rest IH]; intros finished parent chan; [done|].
  cbn [length seq map exec step goroutines ctx_cancelled errChan].
  rewrite list_lookup_middle by done.
  cbn [at_ name]. rewrite runTask_zero_exit.
  unfold set_pc. cbn [goroutines name].
  rewrite insert_app_r_alt, Nat.sub_diag by done. cbn [list_insert].
  specialize (IH (finished ++ [mkGoroutine t Done])%list parent chan).
  rewrite length_app, Nat.add_1_r, <- !app_assoc in IH. exact IH.
Qed.

Lemma Run_all_succeed (tasks : list string) (parent : bool) :
  Run tasks parent (map (λ i, Returns i (Exits [] [] 0)) (seq 0 (length tasks)))
  = Some None.
Proof.
  unfold Run, start_all.
  pose proof (exec_all_exit_zero tasks [] parent []) as H. simpl in H.
  rewrite H. unfold Run_return. simpl. clear H.
  assert (forallb is_Done (map (λ n, mkGoroutine n Done) tasks) = true) as ->; [|done].
  induction tasks as [|t rest IH]; [done|]. simpl. exact IH.
Qed.

End Supervisor.

(** At the sample manifest, when [hello] fails first: [Run] returns the
    error of [hello] with the context cancelled and both executors done. *)
Example Run_returned_hello :
  runner.exec samples.hello_fails (runner.start_all ["hello"; "world"] false)
  = Some samples.hello_failed
  ∧ runner.Run_return samples.hello_failed = Some (Some "task 'hello': exit status 1")
  ∧ Forall (λ g, runner.at_ g = runner.Done) (runner.goroutines samples.hello_failed)
  ∧ runner.ctx_cancelled samples.hello_failed = true.
Proof.
  assert (runner.exec samples.hello_fails (runner.start_all ["hello"; "world"] false)
          = Some samples.hello_failed) as Hexec by (vm_compute; reflexivity).
  assert (runner.Run_return samples.hello_failed
          = Some (Some "task 'hello': exit status 1")) as Hret by reflexivity.
  destruct (Run_returned ["hello"; "world"] false samples.hello_fails
              samples.hello_failed _ Hexec Hret) as (Hall & _ & Hc & _).
  repeat split; assumption.
Qed.

(** ** Repeated task names *)
Section Duplicates.
Import config runner.

Lemma filter_name_fmap (taskName : string) (args : list string) :
  length (filter (λ g, name g = taskName) (map (λ n, mkGoroutine n Running) args))
  = length (filter (λ n, n = taskName) args).
Proof.
  induction args as [|a rest IH]; [done|].
  cbn [map]. rewrite !filter_cons. simpl.
  destruct (decide (a = taskName)); simpl; by rewrite IH.
Qed.

(** C10. A non-empty argument list of defined names is returned as it is,
    and [Run] starts one executor per element: the goroutines are the
    arguments in order, each running, so a name given N times has N
    executors, each of which can return while the others still run. *)
Theorem duplicates_run_concurrently (c : Config) (args : list string) (parent : bool) :
  args ≠ [] →
  Forall (λ n, is_Some (TaskDefs c !! n)) args →
  GetTasksToRun c args = Ok args
  ∧ goroutines (start_all args parent) = map (λ n, mkGoroutine n Running) args
  ∧ (∀ taskName,
       length (filter (λ g, name g = taskName) (goroutines (start_all args parent)))
       = length (filter (λ n, n = taskName) args))
  ∧ (∀ i taskName child,
       args !! i = Some taskName →
       is_Some (step (start_all args parent) (Returns i child))).
Proof.
  intros Hne Hall. split.
  { by apply GetTasksToRun_defined. }
  split; [done|]. split.
  { intros taskName. apply filter_name_fmap. }
  intros i taskName child Hi. simpl.
  rewrite list_lookup_fmap, Hi. simpl.
  destruct (runTask_result parent child); eauto.
Qed.

End Duplicates.

(** C10 at [prun hello hello world]: two executors for [hello]. *)
Lemma duplicates_run_concurrently_witness :
  config.GetTasksToRun samples.simple ["hello"; "hello"; "world"]
  = Ok ["hello"; "hello"; "world"]
  ∧ length (filter (λ g, runner.name g = "hello")
              (runner.goroutines (runner.start_all ["hello"; "hello"; "world"] false)))
    = 2.
Proof.
  assert (Forall (λ n, is_Some (config.TaskDefs samples.simple !! n))
            ["hello"; "hello"; "world"]) as Hdef
    by (repeat constructor; vm_compute; eauto).
  destruct (duplicates_run_concurrently samples.simple ["hello"; "hello"; "world"] false
              ltac:(discriminate) Hdef) as (Hsel & _ & Hcount & _).
  split; [exact Hsel|]. rewrite (Hcount "hello"). reflexivity.
Defined.

(** ** The command line *)
Section CommandLine.
Import cli.

(** The flag set of the later [main], the one that starts the watcher and
    the dashboard, accepts [--config] and [-c] with a path, and [--verbose],
    [-v], [--list], [-l], [--help], [-h], [--interactive], [-i], [--watch],
    [-w] without a value; with no flag the configuration path is
    [prun.toml]. *)
Lemma main_flags :
  Parse formal defaults [] = Parsed defaults []
  ∧ configPath defaults = "prun.toml"
  ∧ filepath.Clean "./prun.toml" = configPath defaults
  ∧ (∀ p, Parse formal defaults ["--config"; p]
          = Parsed (mkFlags p false false false false false) [])
  ∧ (∀ p, Parse formal defaults ["-c"; p]
          = Parsed (mkFlags p false false false false false) [])
  ∧ Parse formal defaults ["--verbose"]
    = Parsed (mkFlags "prun.toml" true false false false false) []
  ∧ Parse formal defaults ["-v"]
    = Parsed (mkFlags "prun.toml" true false false false false) []
  ∧ Parse formal defaults ["--list"]
    = Parsed (mkFlags "prun.toml" false true false false false) []
  ∧ Parse formal defaults ["-l"]
    = Parsed (mkFlags "prun.toml" false true false false false) []
  ∧ Parse formal defaults ["--help"]
    = Parsed (mkFlags "prun.toml" false false true false false) []
  ∧ Parse formal defaults ["-h"]
    = Parsed (mkFlags "prun.toml" false false true false false) []
  ∧ Parse formal defaults ["--interactive"]
    = Parsed (mkFlags "prun.toml" false false false true false) []
  ∧ Parse formal defaults ["-i"]
    = Parsed (mkFlags "prun.toml" false false false true false) []
  ∧ Parse formal defaults ["--watch"]
    = Parsed (mkFlags "prun.toml" false false false false true) []
  ∧ Parse formal defaults ["-w"]
    = Parsed (mkFlags "prun.toml" false false false false true) [].
Proof. repeat split; reflexivity. Qed.

(** Flags combine, and the arguments after them are the task names. *)
Example main_flags_combined :
  Parse formal defaults ["-i"; "-w"; "-c"; "dev.toml"; "app"; "server"]
  = Parsed (mkFlags "dev.toml" false false false true true) ["app"; "server"].
Proof. reflexivity. Qed.

(** A name outside the flag set ends the program with status 2. *)
Example main_flags_unknown :
  Parse formal defaults ["--parallelism"]
  = Exit2 "flag provided but not defined: -parallelism".
Proof. reflexivity. Qed.

(** The first revision of main.go has neither [-i] nor [-w]. *)
Example initial_flags_lack_watch :
  Parse formal_initial defaults ["-w"] = Exit2 "flag provided but not defined: -w"
  ∧ Parse formal_initial defaults ["--interactive"]
    = Exit2 "flag provided but not defined: -interactive".
Proof. split; reflexivity. Qed.


End CommandLine.

(** ** Debouncing *)
Section Debounce.
Import config watcher.

Variables (c : Config) (global : bool).

Lemma elapse_early now s due :
  debounceTimer s = Some due → (now < due)%Z → elapse c global now s = s.
Proof.
  intros Hd Hlt. unfold elapse. rewrite Hd.
  destruct (Z.leb_spec due now); [lia | done].
Qed.

Lemma elapse_due now s due :
  debounceTimer s = Some due → (due ≤ now)%Z →
  elapse c global now s
  = mkLoop (looping s) None (triggerRestarts c global (chans s)) (fired s ++ [due])%list.
Proof.
  intros Hd Hle. unfold elapse. rewrite Hd.
  destruct (Z.leb_spec due now); [done | lia].
Qed.

(** A significant event that arrives before the timer is due re-arms it and
    delivers nothing. *)
Lemma receive_rearm s due now e :
  looping s = true → debounceTimer s = Some due → (now < due)%Z →
  significant e = true →
  receive c global s (now, FsEvent e)
  = mkLoop true (Some (now + debounceDuration)%Z) (chans s) (fired s).
Proof.
  intros Hl Hd Hlt He. unfold receive. simpl.
  rewrite (elapse_early _ _ _ Hd Hlt), Hl, He. done.
Qed.

Lemma last_nonempty (x : Z) (l : list Z) (d d' : Z) :
  List.last (x :: l) d = List.last (x :: l) d'.
Proof.
  revert x. induction l as [|y l IH]; intros x; [done|].
  change (List.last (y :: l) d = List.last (y :: l) d'). apply IH.
Qed.

Lemma burst_fold (rest : list (Z * Event)) :
  ∀ t s,
    looping s = true → debounceTimer s = Some (t + debounceDuration)%Z →
    spec.within_window t (map fst rest) →
    Forall (λ te, significant (snd te) = true) rest →
    fold_left (receive c global) (timed rest) s
    = mkLoop true (Some (List.last (map fst rest) t + debounceDuration)%Z)
        (chans s) (fired s).
Proof.
  induction rest as [|[t' e] rest IH]; intros t s Hl Hd Hw Hsig; simpl.
  - destruct s; simpl in *. by subst.
  - destruct Hw as [Ht' Hw]. apply Forall_cons in Hsig as [He Hsig].
    simpl in He, Ht', Hw.
    rewrite (receive_rearm s _ t' e Hl Hd ltac:(lia) He).
    rewrite (IH t' (mkLoop true (Some (t' + debounceDuration)%Z) (chans s) (fired s))
               eq_refl eq_refl Hw Hsig). simpl.
    f_equal. f_equal. f_equal.
    destruct (map fst rest) as [|x l]; [done|]. apply last_nonempty.
Qed.

Lemma triggerRestarts_lookup (m : gmap string nat) taskName :
  triggerRestarts c global m !! taskName
  = (λ len, if shouldWatch c global taskName then try_send len else len)
      <$> (m !! taskName).
Proof.
  unfold triggerRestarts. rewrite map_lookup_imap.
  by destruct (m !! taskName).
Qed.

(** C5. A burst of significant events, each less than 500 ms after the
    one before it, delivers nothing while the window is open and runs
    [triggerRestarts] once, 500 ms after the last event: every watched task's
    restart channel then holds exactly one pulse, whether it was empty (the
    pulse is sent) or already held one (the send is skipped), and the
    channels of the other tasks are as before. *)
Theorem debounce_one_pulse (chans0 : gmap string nat) (t0 : Z) (e0 : Event)
    (rest : list (Z * Event)) (until : Z) :
  Forall (λ te, significant (snd te) = true) ((t0, e0) :: rest) →
  spec.within_window t0 (map fst rest) →
  (List.last (map fst rest) t0 + debounceDuration ≤ until)%Z →
  let inputs := timed ((t0, e0) :: rest) in
  let t_last := List.last (map fst rest) t0 in
  let s := watchLoop c global inputs until (loop_start chans0) in
  fired s = [(t_last + debounceDuration)%Z]
  ∧ debounceTimer s = None
  ∧ chans s = triggerRestarts c global chans0
  ∧ (∀ before, (t_last ≤ before < t_last + debounceDuration)%Z →
       fired (watchLoop c global inputs before (loop_start chans0)) = []
       ∧ chans (watchLoop c global inputs before (loop_start chans0)) = chans0)
  ∧ (∀ taskName len,
       chans0 !! taskName = Some len → (len ≤ chan_cap)%nat →
       chans s !! taskName
       = Some (if shouldWatch c global taskName then chan_cap else len)).
Proof.
  intros Hsig Hw Huntil inputs t_last s.
  apply Forall_cons in Hsig as [He0 Hsig]. simpl in He0.
  set (armed := mkLoop true (Some (t_last + debounceDuration)%Z) chans0 []).
  assert (fold_left (receive c global) inputs (loop_start chans0) = armed) as Hfold.
  { unfold inputs. simpl. unfold receive at 2. simpl. rewrite He0.
    by rewrite (burst_fold rest t0
                  (mkLoop true (Some (t0 + debounceDuration)%Z) chans0 [])
                  eq_refl eq_refl Hw Hsig). }
  assert (s = mkLoop true None (triggerRestarts c global chans0)
                [(t_last + debounceDuration)%Z]) as Hs.
  { unfold s, watchLoop. rewrite Hfold.
    by rewrite (elapse_due until armed (t_last + debounceDuration)%Z eq_refl Huntil). }
  assert (∀ before, (t_last ≤ before < t_last + debounceDuration)%Z →
            watchLoop c global inputs before (loop_start chans0) = armed) as Hopen.
  { intros before Hb. unfold watchLoop. rewrite Hfold.
    apply (elapse_early before armed (t_last + debounceDuration)%Z eq_refl). lia. }
  rewrite Hs. simpl. repeat split.
  - by rewrite (Hopen before).
  - by rewrite (Hopen before).
  - intros taskName len Hlen Hcap. rewrite triggerRestarts_lookup, Hlen. simpl.
    destruct (shouldWatch c global taskName); [|done].
    unfold try_send, chan_cap in *. f_equal.
    destruct len as [|[|len]]; simpl; [done | done | lia].
Qed.

End Debounce.

(** C5 at three writes 100 ms and 450 ms apart, observed two seconds
    later: one run of [triggerRestarts], at 1050 ms; the watched task has one
    pulse, the other task none. *)
Lemma debounce_one_pulse_witness :
  let s := watcher.watchLoop samples.watched_app false
             (watcher.timed [(0%Z, samples.write_event); (100%Z, samples.write_event);
                             (550%Z, samples.create_event)])
             2000 (watcher.loop_start (watcher.make_restartChans ["app"; "db"])) in
  watcher.fired s = [1050%Z]
  ∧ watcher.chans s !! "app" = Some 1
  ∧ watcher.chans s !! "db" = Some 0.
Proof.
  assert (Forall (λ te, watcher.significant (snd te) = true)
            [(0%Z, samples.write_event); (100%Z, samples.write_event);
             (550%Z, samples.create_event)]) as Hsig
    by (repeat constructor).
  assert (spec.within_window 0
            (map fst [(100%Z, samples.write_event); (550%Z, samples.create_event)])) as Hw
    by (simpl; unfold watcher.debounceDuration; lia).
  destruct (debounce_one_pulse samples.watched_app false
              (watcher.make_restartChans ["app"; "db"])
              0 samples.write_event
              [(100%Z, samples.write_event); (550%Z, samples.create_event)] 2000
              Hsig Hw ltac:(simpl; unfold watcher.debounceDuration; lia))
    as (Hfired & _ & _ & _ & Hchans).
  split; [exact Hfired|]. split.
  - apply (Hchans "app" 0); [reflexivity | unfold watcher.chan_cap; lia].
  - apply (Hchans "db" 0); [reflexivity | unfold watcher.chan_cap; lia].
Defined.

(** ** Paths *)
Section Paths.
Import filepath.

Lemma list_ascii_app (a b : string) :
  list_ascii_of_string (a +:+ b) = (list_ascii_of_string a ++ list_ascii_of_string b)%list.
Proof. induction a as [|ch a IH]; simpl; [done|]. by rewrite IH. Qed.

Lemma split_go_sep xs ys cur :
  split_go (xs ++ Separator :: ys) cur = (split_go xs cur ++ split_go ys [])%list.
Proof.
  revert cur. induction xs as [|ch xs IH]; intros cur; simpl.
  - done.
  - destruct (IsPathSeparator ch); simpl; by rewrite IH.
Qed.

Lemma split_go_name ys cur :
  Forall (λ ch, IsPathSeparator ch = false) ys →
  split_go ys cur = [string_of_list_ascii (rev cur ++ ys)].
Proof.
  intros H. revert cur. induction H as [|ch ys Hch _ IH]; intros cur; simpl.
  - by rewrite app_nil_r.
  - rewrite Hch, IH. simpl. by rewrite <- app_assoc.
Qed.

Lemma split_child dir nm :
  entry_name nm → split (dir +:+ "/" +:+ nm) = (split dir ++ [nm])%list.
Proof.
  intros (_ & _ & _ & Hnm). unfold split.
  rewrite !list_ascii_app. simpl.
  change ("/"%char) with Separator. rewrite split_go_sep.
  rewrite (split_go_name _ [] Hnm). simpl.
  by rewrite string_of_list_ascii_of_string.
Qed.

Lemma clean_elems_app rooted es es' : ∀ kept,
  clean_elems rooted (es ++ es') kept = clean_elems rooted es' (clean_elems rooted es kept).
Proof.
  induction es as [|e es IH]; intros kept; simpl; [done|].
  destruct (String.eqb e "" || String.eqb e "."); [apply IH|].
  destruct (String.eqb e "..").
  - destruct kept as [|top below]; [destruct rooted; apply IH|].
    destruct (String.eqb top ".."); apply IH.
  - apply IH.
Qed.

Lemma clean_elems_name rooted nm kept :
  entry_name nm → clean_elems rooted [nm] kept = nm :: kept.
Proof.
  intros (H1 & H2 & H3 & _). simpl.
  apply String.eqb_neq in H1, H2, H3. by rewrite H1, H2, H3.
Qed.

Lemma join_sep_snoc xs nm :
  join_sep (xs ++ [nm])
  = match xs with [] => nm | _ => join_sep xs +:+ "/" +:+ nm end.
Proof.
  destruct xs as [|x xs]; [done|]. simpl. by rewrite fold_left_app.
Qed.

Lemma append_cons ch (a b : string) : String ch a +:+ b = String ch (a +:+ b).
Proof. reflexivity. Qed.

Lemma append_assoc (a b d : string) : (a +:+ b) +:+ d = a +:+ (b +:+ d).
Proof. induction a as [|ch a IH]; [done|]. by rewrite !append_cons, IH. Qed.

Lemma append_not_empty (a b : string) : b ≠ "" → a +:+ b ≠ "".
Proof. by destruct a, b. Qed.

(** The cleaned path of an entry is the entry's name after a prefix that is
    empty or ends with a separator. *)
Lemma Join_child dir nm :
  dir ≠ "" → entry_name nm →
  ∃ prefix, Join dir nm = prefix +:+ nm
            ∧ (prefix = "" ∨ ∃ q, prefix = q +:+ "/").
Proof.
  intros Hdir Hnm. pose proof Hnm as (Hne & _).
  unfold Join. apply String.eqb_neq in Hdir as Hd. rewrite Hd.
  apply String.eqb_neq in Hne as Hn. rewrite Hn.
  unfold Clean.
  assert (dir +:+ "/" +:+ nm ≠ "") as Hp by (by destruct dir).
  apply String.eqb_neq in Hp as Hp'. rewrite Hp'.
  rewrite (split_child dir nm Hnm), clean_elems_app, (clean_elems_name _ _ _ Hnm).
  simpl rev. rewrite join_sep_snoc.
  set (rooted := match dir +:+ "/" +:+ nm with
                 | String ch _ => IsPathSeparator ch
                 | EmptyString => false
                 end).
  set (kept := rev (clean_elems rooted (split dir) [])).
  set (lead := if rooted then "/" else "").
  assert (∃ prefix, lead +:+ match kept with
                            | [] => nm
                            | _ => join_sep kept +:+ "/" +:+ nm
                            end = prefix +:+ nm
                    ∧ (prefix = "" ∨ ∃ q, prefix = q +:+ "/")) as (prefix & Heq & Hpre).
  { destruct kept as [|k ks].
    - exists lead. split; [done|]. unfold lead. destruct rooted; [right; by exists "" | by left].
    - exists (lead +:+ join_sep (k :: ks) +:+ "/"). split.
      + by rewrite !append_assoc.
      + right. exists (lead +:+ join_sep (k :: ks)). by rewrite append_assoc. }
  rewrite Heq.
  assert (prefix +:+ nm ≠ "") as Hout by (by apply append_not_empty).
  apply String.eqb_neq in Hout. rewrite Hout. eauto.
Qed.

Lemma take_elem_name xs rest :
  Forall (λ ch, IsPathSeparator ch = false) xs →
  (rest = [] ∨ ∃ tl, rest = Separator :: tl) →
  take_elem (xs ++ rest) = xs.
Proof.
  intros H Hrest. induction H as [|ch xs Hch _ IH]; simpl.
  - by destruct Hrest as [-> | [tl ->]].
  - by rewrite Hch, IH.
Qed.

Lemma Base_child prefix nm :
  entry_name nm → (prefix = "" ∨ ∃ q, prefix = q +:+ "/") →
  Base (prefix +:+ nm) = nm.
Proof.
  intros (Hne & _ & _ & Hnm) Hpre. unfold Base.
  assert (prefix +:+ nm ≠ "") as Hp by (by apply append_not_empty).
  apply String.eqb_neq in Hp. rewrite Hp.
  rewrite list_ascii_app, rev_app_distr.
  set (name_rev := rev (list_ascii_of_string nm)).
  assert (Forall (λ ch, IsPathSeparator ch = false) name_rev) as Hrev
    by (by apply Forall_rev).
  assert (name_rev ≠ []) as Hnon.
  { unfold name_rev. destruct nm as [|ch nm]; [done|]. simpl.
    by destruct (rev (list_ascii_of_string nm)). }
  assert (drop_seps (name_rev ++ rev (list_ascii_of_string prefix))
          = (name_rev ++ rev (list_ascii_of_string prefix))%list) as ->.
  { destruct name_rev as [|ch tl]; [done|]. simpl.
    apply Forall_cons in Hrev as [-> _]. done. }
  rewrite (take_elem_name name_rev _ Hrev).
  - unfold name_rev. rewrite rev_involutive.
    destruct (list_ascii_of_string nm) as [|ch tl] eqn:Hl.
    + destruct nm; done.
    + rewrite <- Hl. apply string_of_list_ascii_of_string.
  - destruct Hpre as [-> | [q ->]]; [by left|]. right.
    rewrite list_ascii_app, rev_app_distr. simpl. eauto.
Qed.

(** The base name of an entry's path is the entry's name. *)
Lemma Base_Join dir nm :
  dir ≠ "" → entry_name nm → Base (Join dir nm) = nm.
Proof.
  intros Hdir Hnm. destruct (Join_child dir nm Hdir Hnm) as (prefix & -> & Hpre).
  by apply Base_child.
Qed.

Lemma Join_not_empty dir nm :
  dir ≠ "" → entry_name nm → Join dir nm ≠ "".
Proof.
  intros Hdir Hnm. destruct (Join_child dir nm Hdir Hnm) as (prefix & -> & _).
  apply append_not_empty. apply Hnm.
Qed.

End Paths.

(** ** Directory registration *)
Section Registration.
Import config watcher.

(** The walk from "." stops at its first call: the base name of "." is
    ".", which begins with a dot, so the function returns [SkipDir] for the
    root and nothing is added. *)
Lemma addWatchRecursive_dot (fs : filesystem) (fw : fsWatcher) entries :
  fs !! "." = Some (Dir entries) → addWatchRecursive fs "." fw = (fw, None).
Proof. intros H. unfold addWatchRecursive, Walk. rewrite H. reflexivity. Qed.

(** A watched task with no [path] therefore registers nothing, whatever the
    working directory holds. *)
Lemma setup_watchers_no_path (fs : filesystem) (c : Config) global taskName fw entries :
  fs !! "." = Some (Dir entries) →
  Path (lookupTaskDef c taskName) = "" →
  setup_watchers fs c global [taskName] fw = Ok fw.
Proof.
  intros Hfs Hpath. simpl. rewrite Hpath. simpl.
  rewrite (addWatchRecursive_dot fs fw entries Hfs).
  by destruct (shouldWatch c global taskName).
Qed.

Lemma node_induction (P : node → Prop) :
  P File → (∀ e, P (DirUnreadable e)) → (∀ e, P (Broken e)) →
  (∀ entries, Forall (λ ne, P (snd ne)) entries → P (Dir entries)) →
  ∀ n, P n.
Proof.
  intros HF HU HB HD. fix IH 1.
  intros [| entries | e | e]; [exact HF | | exact (HU e) | exact (HB e)].
  apply HD. induction entries as [|[nm e] rest IHrest]; constructor.
  - apply IH.
  - exact IHrest.
Qed.

Lemma walk_entries_plain path entries :
  path ≠ "" →
  Forall (λ ne, ∀ p fw, plain (snd ne) → p ≠ "" → refused fw = ∅ →
                  walk p (snd ne) fw
                  = (mkFsWatcher ∅ (fst (spec.walk_adds p (snd ne)) ∪ watched fw),
                     snd (spec.walk_adds p (snd ne)))) entries →
  plain (Dir entries) →
  ∀ fw, refused fw = ∅ →
    walk_entries walk path entries fw
    = (mkFsWatcher ∅ (spec.dirs_below spec.registered_dirs path entries ∪ watched fw), None).
Proof.
  intros Hpath Hall. induction Hall as [|[nm entry] rest Hentry _ IH]; intros Hplain fw Hfw.
  - simpl. rewrite union_empty_l_L. destruct fw; simpl in *. by subst.
  - destruct Hplain as (Hnm & Hp & Hrest). simpl in Hentry.
    cbn [walk_entries spec.dirs_below].
    rewrite (Hentry (filepath.Join path nm) fw Hp (Join_not_empty path nm Hpath Hnm) Hfw).
    unfold spec.walk_adds. rewrite (Base_Join path nm Hpath Hnm).
    destruct entry as [| es | e | e]; try done.
    + simpl. rewrite IH; [|exact Hrest|reflexivity]. simpl. f_equal. f_equal. set_solver.
    + simpl. destruct (skipped nm); simpl.
      * rewrite IH; [|exact Hrest|reflexivity]. simpl. f_equal. f_equal. set_solver.
      * rewrite IH; [|exact Hrest|reflexivity]. simpl. f_equal. f_equal. set_solver.
Qed.

Lemma walk_plain n : ∀ path fw,
  plain n → path ≠ "" → refused fw = ∅ →
  walk path n fw
  = (mkFsWatcher ∅ (fst (spec.walk_adds path n) ∪ watched fw), snd (spec.walk_adds path n)).
Proof.
  induction n as [| e | e | entries IH] using node_induction;
    intros path fw Hplain Hpath Hfw; try done.
  - simpl. rewrite union_empty_l_L. destruct fw; simpl in *. by subst.
  - cbn [walk walkFn spec.walk_adds]. destruct (skipped (filepath.Base path)).
    + simpl. rewrite union_empty_l_L. destruct fw; simpl in *. by subst.
    + unfold Add. rewrite Hfw, lookup_empty.
      rewrite (walk_entries_plain path entries Hpath IH Hplain); [|reflexivity].
      simpl. f_equal. f_equal. set_solver.
Qed.

(** Registration from a root whose base name passes the test is the
    specified one: the root and every directory below it that is reached
    through directories with admitted names. *)
Lemma addWatchRecursive_plain (fs : filesystem) root entries fw :
  fs !! root = Some (Dir entries) → plain (Dir entries) → root ≠ "" →
  refused fw = ∅ → skipped (filepath.Base root) = false →
  addWatchRecursive fs root fw
  = (mkFsWatcher ∅ (spec.registered_dirs root (Dir entries) ∪ watched fw), None).
Proof.
  intros Hfs Hplain Hroot Hfw Hbase. unfold addWatchRecursive, Walk. rewrite Hfs.
  rewrite (walk_plain (Dir entries) root fw Hplain Hroot Hfw).
  unfold spec.walk_adds. rewrite Hbase. done.
Qed.

(** From a root whose base name fails the test, nothing is registered. *)
Lemma addWatchRecursive_skipped_root (fs : filesystem) root entries fw :
  fs !! root = Some (Dir entries) → skipped (filepath.Base root) = true →
  addWatchRecursive fs root fw = (fw, None).
Proof.
  intros Hfs Hbase. unfold addWatchRecursive, Walk. rewrite Hfs.
  cbn [walk walkFn]. by rewrite Hbase.
Qed.

(** C4, at a watched task with no [path], run in a project directory:
    [Start] registers no directory at all, where the specification has the
    working directory and its sub-directories [cmd] and [cmd/prun]
    registered. With [path = "backend"] holding the same tree, the
    registration is the specified one. *)
Theorem Start_skips_working_directory :
  Start_watched samples.cwd samples.watch_app = Ok ∅
  ∧ spec.registered_dirs "." samples.project = {[ "."; "cmd"; "cmd/prun" ]}
  ∧ Start_watched samples.cwd samples.watch_backend
    = Ok (spec.registered_dirs "backend" samples.project).
Proof. split; [|split]; vm_compute; reflexivity. Qed.

End Registration.

(** ** Output streaming *)
Section Streaming.
Import bufio.

Lemma str_take_length n s : (String.length (str_take n s) ≤ n)%nat.
Proof.
  revert s. induction n as [|n IH]; intros [|ch s]; simpl; try lia.
  specialize (IH s). lia.
Qed.

Lemma str_drop_length n s :
  String.length (str_drop n s) = (String.length s - n)%nat.
Proof.
  revert s. induction n as [|n IH]; intros [|ch s]; simpl; try lia. apply IH.
Qed.

Lemma append_length (a b : string) :
  String.length (a +:+ b) = (String.length a + String.length b)%nat.
Proof. induction a as [|ch a IH]; simpl; [done|]. by rewrite IH. Qed.

Lemma Read_length rd space :
  (String.length (fst (fst (Read rd space))) ≤ space)%nat.
Proof.
  induction rd as [|chunk rest IH]; simpl; [lia|].
  destruct (String.eqb chunk ""); [apply IH|]. simpl. apply str_take_length.
Qed.

Lemma setErr_fields s e :
  maxTokenSize (setErr s e) = maxTokenSize s ∧ buf_len (setErr s e) = buf_len s
  ∧ start (setErr s e) = start s ∧ data (setErr s e) = data s.
Proof. unfold setErr. by destruct (err s) as [[]|]. Qed.

Lemma setErr_bounded s e : bounded s → bounded (setErr s e).
Proof.
  unfold bounded, buf_end.
  destruct (setErr_fields s e) as (-> & -> & -> & ->). done.
Qed.

Lemma shift_bounded s :
  bounded s → bounded (shift s) ∧ maxTokenSize (shift s) = maxTokenSize s.
Proof.
  unfold bounded, shift, buf_end. intros [H1 H2].
  destruct (_ && _); simpl; split; try done. lia.
Qed.

Lemma grow_bounded s s' :
  grow s = Some s' → bounded s → bounded s' ∧ maxTokenSize s' = maxTokenSize s.
Proof.
  unfold bounded, grow, buf_end. intros Hg [H1 H2].
  destruct (Nat.eqb_spec (start s + String.length (data s)) (buf_len s)) as [Hfull|Hroom].
  - destruct (Nat.leb_spec (maxTokenSize s) (buf_len s)) as [|Hlt]; [done|].
    injection Hg as <-. simpl.
    destruct (Nat.eqb_spec (buf_len s * 2) 0); lia.
  - injection Hg as <-. done.
Qed.

Lemma read_more_bounded s :
  bounded s → bounded (read_more s) ∧ maxTokenSize (read_more s) = maxTokenSize s.
Proof.
  unfold read_more. intros [H1 H2].
  pose proof (Read_length (r s) (buf_len s - buf_end s)) as Hlen.
  destruct (Read (r s) (buf_len s - buf_end s)) as [[got e] rd]. simpl in Hlen.
  assert (bounded (mkScanner rd (maxTokenSize s) (token s) (buf_len s) (start s)
                     (data s +:+ got) (err s))) as Hb.
  { unfold bounded, buf_end in *. simpl. rewrite append_length. lia. }
  destruct e as [e|]; [|done].
  split; [by apply setErr_bounded|].
  by destruct (setErr_fields (mkScanner rd (maxTokenSize s) (token s) (buf_len s)
                                (start s) (data s +:+ got) (err s)) e) as (-> & _).
Qed.

Lemma fill_bounded s s' :
  (fill s = inl s' ∨ fill s = inr s') → bounded s →
  bounded s' ∧ maxTokenSize s' = maxTokenSize s.
Proof.
  unfold fill. intros H Hb.
  destruct (shift_bounded s Hb) as [Hb1 Hm1].
  destruct (grow (shift s)) as [s2|] eqn:Hg.
  - destruct H as [H|H]; [done|]. injection H as <-.
    destruct (grow_bounded _ _ Hg Hb1) as [Hb2 Hm2].
    destruct (read_more_bounded s2 Hb2) as [Hb3 Hm3].
    split; [done | congruence].
  - destruct H as [H|H]; [|done]. injection H as <-.
    split; [by apply setErr_bounded|].
    destruct (setErr_fields (shift s) ErrTooLong) as (-> & _). done.
Qed.

Lemma IndexByte_lt d ch i :
  IndexByte d ch = Some i → (i < String.length d)%nat.
Proof.
  revert i. induction d as [|c' d IH]; intros i Hi; [done|].
  simpl in Hi. destruct (Ascii.eqb c' ch).
  - injection Hi as <-. simpl. lia.
  - destruct (IndexByte d ch) as [j|]; [|done]. injection Hi as <-.
    specialize (IH j eq_refl). simpl. lia.
Qed.

Lemma ScanLines_advance d at_eof :
  (fst (ScanLines d at_eof) ≤ String.length d)%nat.
Proof.
  unfold ScanLines. destruct (_ && _); simpl; [lia|].
  destruct (IndexByte d LF) as [i|] eqn:Hi; simpl.
  - apply IndexByte_lt in Hi. lia.
  - destruct at_eof; simpl; lia.
Qed.

Lemma try_token_bounded s :
  bounded s →
  bounded (fst (try_token s)) ∧ maxTokenSize (fst (try_token s)) = maxTokenSize s.
Proof.
  intros [H1 H2]. unfold try_token. destruct (_ || _); [|done].
  simpl. split; [|done]. unfold bounded, buf_end in *. simpl.
  rewrite str_drop_length.
  pose proof (ScanLines_advance (data s) (bool_decide (is_Some (err s)))). lia.
Qed.

(** Whatever the input, [Scan] keeps the scanner within its bounds. *)
Lemma Scan_bounded fuel : ∀ s b s',
  Scan fuel s = Some (b, s') → bounded s →
  bounded s' ∧ maxTokenSize s' = maxTokenSize s.
Proof.
  induction fuel as [|fuel IH]; intros s b s'; simpl; [done|].
  intros H Hb.
  destruct (try_token_bounded s Hb) as [Hb1 Hm1].
  destruct (try_token s) as [s1 found]. simpl in *.
  destruct found.
  - injection H as <- <-. done.
  - destruct (bool_decide (is_Some (err s1))).
    + injection H as <- <-. split; [|done].
      destruct Hb1 as [H1 H2]. unfold bounded, buf_end in *. simpl. lia.
    + destruct (fill s1) as [stopped|s2] eqn:Hf.
      * injection H as <- <-.
        destruct (fill_bounded s1 stopped (or_introl Hf) Hb1). split; [done|congruence].
      * destruct (fill_bounded s1 s2 (or_intror Hf) Hb1) as [Hb2 Hm2].
        destruct (IH _ _ _ H Hb2) as [Hb3 Hm3]. split; [done|congruence].
Qed.

(** From [NewScanner] on, the live data is at most 64 KiB. *)
Lemma NewScanner_held rd fuel b s' :
  Scan fuel (NewScanner rd) = Some (b, s') →
  (String.length (data s') ≤ MaxScanTokenSize)%nat.
Proof.
  intros H. destruct (Scan_bounded fuel _ _ _ H) as [[H1 H2] Hm].
  { unfold bounded, buf_end, NewScanner. simpl. lia. }
  unfold buf_end in H1. rewrite Hm in H2. simpl in H2. lia.
Qed.

(** *** The scan loop ends *)

Lemma str_take_drop n s :
  (String.length (str_take n s) + String.length (str_drop n s))%nat = String.length s.
Proof.
  revert s. induction n as [|n IH]; intros [|ch s]; simpl; try done.
  by rewrite IH.
Qed.

Lemma str_take_pos n s :
  (0 < n)%nat → s ≠ "" → (0 < String.length (str_take n s))%nat.
Proof. intros Hn Hs. destruct n, s; simpl; try done; lia. Qed.

(** A read moves bytes from the reader to the caller, at least one when
    there is room, and reports end of file only on an exhausted reader. *)
Lemma Read_moves rd space :
  let '(got, e, rd') := Read rd space in
  (String.length got + reader_len rd')%nat = reader_len rd
  ∧ match e with
    | None => (0 < space)%nat → (0 < String.length got)%nat
    | Some _ => e = Some EOF
    end.
Proof.
  induction rd as [|chunk rest IH]; simpl; [done|].
  destruct (String.eqb_spec chunk "") as [->|Hchunk]; [exact IH|].
  split; [|intros Hs; by apply str_take_pos].
  pose proof (str_take_drop space chunk) as Hlen.
  destruct (String.eqb_spec (str_drop space chunk) "") as [Hd|Hd]; simpl.
  - rewrite Hd in Hlen. simpl in Hlen. lia.
  - lia.
Qed.

Lemma ScanLines_token d at_eof tok :
  snd (ScanLines d at_eof) = Some tok → (0 < fst (ScanLines d at_eof))%nat.
Proof.
  unfold ScanLines.
  destruct (Nat.eqb_spec (String.length d) 0) as [Hz|Hnz].
  - destruct at_eof; simpl; [done|].
    destruct (IndexByte d LF); simpl; [lia | done].
  - rewrite andb_false_r.
    destruct (IndexByte d LF); simpl; [lia|].
    destruct at_eof; simpl; [lia | done].
Qed.

Lemma try_token_unread s :
  r (fst (try_token s)) = r s ∧ err (fst (try_token s)) = err s
  ∧ (unread (fst (try_token s)) ≤ unread s)%nat
  ∧ (snd (try_token s) = true → (unread (fst (try_token s)) < unread s)%nat).
Proof.
  unfold try_token. destruct (_ || _) eqn:Hany; [|simpl; repeat split; [lia|done]].
  simpl. unfold unread. simpl. rewrite str_drop_length.
  pose proof (ScanLines_advance (data s) (bool_decide (is_Some (err s)))) as Hadv.
  repeat split; [lia|].
  intros Hfound. apply bool_decide_eq_true in Hfound as [tok Htok].
  apply ScanLines_token in Htok. lia.
Qed.

Lemma grow_room s s' :
  grow s = Some s' → bounded s → (0 < maxTokenSize s)%nat →
  (buf_end s' < buf_len s')%nat ∧ r s' = r s ∧ data s' = data s ∧ err s' = err s.
Proof.
  unfold grow, bounded, buf_end. intros Hg [H1 H2] Hmax.
  destruct (Nat.eqb_spec (start s + String.length (data s)) (buf_len s)) as [Hfull|Hroom].
  - destruct (Nat.leb_spec (maxTokenSize s) (buf_len s)) as [|Hlt]; [done|].
    injection Hg as <-. simpl. repeat split.
    destruct (Nat.eqb_spec (buf_len s * 2) 0); unfold startBufSize; lia.
  - injection Hg as <-. repeat split. lia.
Qed.

Lemma shift_fields s :
  r (shift s) = r s ∧ data (shift s) = data s ∧ err (shift s) = err s.
Proof. unfold shift. by destruct (_ && _). Qed.

(** After a read that found the reader exhausted, the scanner has an error;
    after any other read, fewer bytes are left in the reader. *)
Lemma read_more_progress s :
  (buf_end s < buf_len s)%nat → err s = None →
  unread (read_more s) = unread s
  ∧ (is_Some (err (read_more s))
     ∨ (err (read_more s) = None
        ∧ (reader_len (r (read_more s)) < reader_len (r s))%nat)).
Proof.
  intros Hroom Herr. unfold read_more.
  pose proof (Read_moves (r s) (buf_len s - buf_end s)) as Hread.
  destruct (Read (r s) (buf_len s - buf_end s)) as [[got e] rd].
  destruct Hread as [Hlen He]. destruct e as [e|].
  - subst. unfold setErr. simpl. rewrite Herr. simpl. unfold unread. simpl.
    rewrite append_length. split; [lia | left; eauto].
  - simpl. unfold unread. simpl. rewrite append_length. split; [lia|].
    right. split; [done|]. specialize (He ltac:(lia)). lia.
Qed.

Lemma Scan_returns fuel : ∀ s,
  bounded s → (0 < maxTokenSize s)%nat → (scan_steps s ≤ fuel)%nat →
  ∃ b s', Scan fuel s = Some (b, s').
Proof.
  induction fuel as [|fuel IH]; intros s Hb Hmax Hfuel.
  { unfold scan_steps in Hfuel. destruct (err s); lia. }
  simpl.
  destruct (try_token_bounded s Hb) as [Hb1 Hm1].
  destruct (try_token_unread s) as (Hr1 & He1 & _ & _).
  destruct (try_token s) as [s1 found]. simpl in *.
  destruct found; [eauto|].
  destruct (err s1) as [e|] eqn:Herr1; simpl; [eauto|].
  unfold fill.
  destruct (shift_bounded s1 Hb1) as [Hb2 Hm2].
  destruct (shift_fields s1) as (Hr2 & Hd2 & He2).
  destruct (grow (shift s1)) as [s2|] eqn:Hg; [|eauto].
  destruct (grow_bounded _ _ Hg Hb2) as [Hb3 Hm3].
  destruct (grow_room _ _ Hg Hb2 ltac:(lia)) as (Hroom & Hr3 & Hd3 & He3).
  destruct (read_more_bounded s2 Hb3) as [Hb4 Hm4].
  destruct (read_more_progress s2 Hroom ltac:(congruence)) as [_ Hprog].
  apply IH; [done | lia |].
  unfold scan_steps in *. rewrite <- He1 in Hfuel.
  destruct Hprog as [[e He] | [He Hlt]]; rewrite He; [lia|].
  rewrite Hr3, Hr2, Hr1 in Hlt. lia.
Qed.

(** A scan never puts bytes back, and a scan that returns a token has
    consumed at least one. *)
Lemma Scan_unread fuel : ∀ s b s',
  Scan fuel s = Some (b, s') → bounded s → (0 < maxTokenSize s)%nat →
  (unread s' ≤ unread s)%nat ∧ (b = true → (unread s' < unread s)%nat).
Proof.
  induction fuel as [|fuel IH]; intros s b s' H Hb Hmax; [done|].
  simpl in H.
  destruct (try_token_bounded s Hb) as [Hb1 Hm1].
  destruct (try_token_unread s) as (Hr1 & He1 & Hle1 & Hlt1).
  destruct (try_token s) as [s1 found]. simpl in *.
  destruct found.
  { injection H as <- <-. split; [lia | intros _; by apply Hlt1]. }
  destruct (err s1) as [e|] eqn:Herr1; simpl in H.
  { injection H as <- <-.
    split; [|done]. unfold unread in *. simpl. lia. }
  unfold fill in H.
  destruct (shift_bounded s1 Hb1) as [Hb2 Hm2].
  destruct (shift_fields s1) as (Hr2 & Hd2 & He2).
  destruct (grow (shift s1)) as [s2|] eqn:Hg.
  - destruct (grow_bounded _ _ Hg Hb2) as [Hb3 Hm3].
    destruct (grow_room _ _ Hg Hb2 ltac:(lia)) as (Hroom & Hr3 & Hd3 & He3).
    destruct (read_more_bounded s2 Hb3) as [Hb4 Hm4].
    destruct (read_more_progress s2 Hroom ltac:(congruence)) as [Hsame _].
    destruct (IH _ _ _ H Hb4 ltac:(lia)) as [Hle Hlt].
    assert (unread s2 = unread s1) as Hs2.
    { unfold unread. by rewrite Hd3, Hd2, Hr3, Hr2. }
    split; [lia | intros Htrue; specialize (Hlt Htrue); lia].
  - injection H as <- <-. split; [|done].
    destruct (setErr_fields (shift s1) ErrTooLong) as (_ & _ & _ & Hd).
    unfold unread. rewrite Hd, Hd2.
    assert (r (setErr (shift s1) ErrTooLong) = r s1) as ->.
    { unfold setErr. rewrite He2, Herr1. simpl. done. }
    unfold unread in Hle1. lia.
Qed.

Lemma streamOutput_loop_returns fuel : ∀ taskName s written,
  bounded s → (0 < maxTokenSize s)%nat → (unread s + 2 ≤ fuel)%nat →
  is_Some (runner.streamOutput_loop fuel taskName s written).
Proof.
  induction fuel as [|fuel IH]; intros taskName s written Hb Hmax Hfuel; [lia|].
  cbn [runner.streamOutput_loop].
  destruct (Scan_returns (S fuel) s Hb Hmax) as (b & s' & Hscan).
  { unfold scan_steps, unread in *. destruct (err s); lia. }
  rewrite Hscan.
  destruct (Scan_bounded _ _ _ _ Hscan Hb) as [Hb' Hm'].
  destruct (Scan_unread _ _ _ _ Hscan Hb Hmax) as [_ Hlt].
  destruct b; [|eauto].
  apply IH; [done | lia |]. specialize (Hlt eq_refl). lia.
Qed.

(** [streamOutput] returns for every input: the fuel of the model is
    enough. *)
Lemma streamOutput_returns taskName reader :
  is_Some (runner.streamOutput taskName reader).
Proof.
  unfold runner.streamOutput. apply streamOutput_loop_returns.
  - unfold bounded, buf_end.
    cbn [NewScanner start data buf_len maxTokenSize String.length]. lia.
  - cbn [NewScanner maxTokenSize]. unfold MaxScanTokenSize. lia.
  - unfold unread. cbn [NewScanner data r String.length]. lia.
Qed.

(** C6, at a child that prints a line of 70000 bytes and then [ok]:
    [streamOutput] ends without writing anything, neither a part of the long
    line nor the line after it, where the specification has the long line
    split at the limit and every part emitted. *)
Theorem streamOutput_drops_long_line :
  runner.streamOutput "app" samples.long_output = Some [].
Proof. vm_compute. reflexivity. Qed.

End Streaming.

(** ** The restart field *)
Section RestartField.
Import config runner spec.

(** A key other than [restart] is stored the same way whatever [Restart]
    holds. *)
Lemma unify_field_other td k v :
  spec.not_restart (k, v) = true →
  unify_TaskDef_field (erase_Restart td) k v
  = result_map erase_Restart (unify_TaskDef_field td k v).
Proof.
  unfold spec.not_restart, unify_TaskDef_field. simpl. intros Hk.
  destruct (String.eqb k "cmd"); [by destruct (unify_string v)|].
  destruct (String.eqb k "path"); [by destruct (unify_string v)|].
  destruct (String.eqb k "env").
  { destruct v; try done. by destruct (unify_string_map fields ∅). }
  destruct (String.eqb k "restart"); [done|].
  destruct (String.eqb k "shell"); [by destruct (unify_bool v)|].
  destruct (String.eqb k "watch"); [by destruct (unify_bool v)|].
  done.
Qed.

(** The [restart] key is stored without a check of its type and changes no
    other field. *)
Lemma unify_field_restart td k v :
  spec.not_restart (k, v) = false →
  ∃ td', unify_TaskDef_field td k v = Ok td' ∧ Restart td' = Some v
         ∧ erase_Restart td' = erase_Restart td.
Proof.
  unfold spec.not_restart. simpl. intros Hk. apply negb_false_iff in Hk.
  apply String.eqb_eq in Hk as ->. eexists. split; [reflexivity|]. done.
Qed.

Lemma unify_TaskDef_strip fields : ∀ td,
  unify_TaskDef (filter_fields fields) (erase_Restart td)
  = result_map erase_Restart (unify_TaskDef fields td).
Proof.
  induction fields as [|[k v] rest IH]; intros td; simpl; [done|].
  destruct (spec.not_restart (k, v)) eqn:Hk; simpl.
  - rewrite (unify_field_other td k v Hk).
    destruct (unify_TaskDef_field td k v) as [td'|e]; simpl; [apply IH | done].
  - destruct (unify_field_restart td k v Hk) as (td' & -> & _ & He). simpl.
    rewrite <- He. apply IH.
Qed.

Lemma unify_TaskDefs_strip defs : ∀ acc,
  unify_TaskDefs (map strip_task defs) (erase_Restart <$> acc)
  = result_map (fmap erase_Restart) (unify_TaskDefs defs acc).
Proof.
  induction defs as [|[name v] rest IH]; intros acc; simpl; [done|].
  destruct v; try done. unfold strip_task at 1. simpl.
  change zeroTaskDef with (erase_Restart zeroTaskDef) at 1.
  rewrite unify_TaskDef_strip.
  destruct (unify_TaskDef fields zeroTaskDef) as [td|e]; simpl; [|done].
  rewrite <- fmap_insert. apply IH.
Qed.

Lemma unify_Config_field_strip cfg k v :
  unify_Config_field (erase_Config cfg) (fst (strip_top (k, v))) (snd (strip_top (k, v)))
  = result_map erase_Config (unify_Config_field cfg k v).
Proof.
  unfold strip_top, unify_Config_field. simpl.
  destruct (String.eqb_spec k "task") as [->|Hk].
  - simpl. destruct v; try done. simpl.
    rewrite (unify_TaskDefs_strip fields (TaskDefs cfg)).
    by destruct (unify_TaskDefs fields (TaskDefs cfg)).
  - simpl. destruct (String.eqb k "tasks").
    + destruct v; try done. by destruct (unify_string_slice items).
    + destruct (String.eqb_spec k "task"); done.
Qed.

Lemma unify_Config_strip top : ∀ cfg,
  unify_Config (map strip_top top) (erase_Config cfg)
  = result_map erase_Config (unify_Config top cfg).
Proof.
  induction top as [|[k v] rest IH]; intros cfg; simpl; [done|].
  destruct (strip_top (k, v)) as [k' v'] eqn:Hs.
  pose proof (unify_Config_field_strip cfg k v) as H. rewrite Hs in H. simpl in H.
  rewrite H. destruct (unify_Config_field cfg k v); simpl; [apply IH | done].
Qed.

Lemma validate_listed_erase defs tasks :
  validate_listed (erase_Restart <$> defs) tasks = validate_listed defs tasks.
Proof.
  induction tasks as [|t rest IH]; simpl; [done|].
  rewrite lookup_fmap. destruct (defs !! t); simpl; done.
Qed.

Lemma validate_cmds_erase entries :
  validate_cmds (prod_map id erase_Restart <$> entries) = validate_cmds entries.
Proof.
  induction entries as [|[n td] rest IH]; simpl; [done|].
  destruct (String.eqb (Cmd td) ""); done.
Qed.

Lemma validate_requested_erase defs args :
  validate_requested (erase_Restart <$> defs) args = validate_requested defs args.
Proof.
  induction args as [|t rest IH]; simpl; [done|].
  rewrite lookup_fmap. destruct (defs !! t); simpl; done.
Qed.

(** [Load] treats a manifest and the same manifest without its [restart]
    keys alike, up to the stored value. *)
Lemma Load_strip (fs : files) (path : string) :
  Load (strip_restart <$> fs) path = result_map erase_Config (Load fs path).
Proof.
  unfold Load, os_ReadFile. rewrite lookup_fmap.
  destruct (fs !! path) as [[msg|top]|]; simpl; try done.
  change (mkConfig [] ∅) with (erase_Config (mkConfig [] ∅)) at 1.
  rewrite unify_Config_strip.
  destruct (unify_Config top (mkConfig [] ∅)) as [cfg|e]; simpl; [|done].
  rewrite validate_listed_erase.
  destruct (validate_listed (TaskDefs cfg) (Tasks cfg)); [done|].
  rewrite map_to_list_fmap, validate_cmds_erase.
  by destruct (validate_cmds (map_to_list (TaskDefs cfg))).
Qed.

(** The watcher reads [Watch] and never [Restart]. *)
Lemma shouldWatch_erase (c : Config) global taskName :
  watcher.shouldWatch (erase_Config c) global taskName
  = watcher.shouldWatch c global taskName.
Proof.
  unfold watcher.shouldWatch, lookupTaskDef, erase_Config. simpl.
  rewrite lookup_fmap. by destruct (TaskDefs c !! taskName).
Qed.

Lemma restart_step_erase (c : Config) global s ev :
  restart.step (erase_Config c) global s ev = restart.step c global s ev.
Proof.
  destruct ev as [| | | k ev]; simpl; try done.
  - do 2 f_equal. unfold watcher.triggerRestarts. apply map_eq. intros taskName.
    rewrite !map_lookup_imap. destruct (restart.restartChans s !! taskName); [|done].
    simpl. by rewrite shouldWatch_erase.
  - destruct (restart.loops s !! k); [|done]. by rewrite shouldWatch_erase.
Qed.

(** A goroutine of the watcher starts a run when it begins, when it
    receives a pulse, and when the run it has cancelled at a pulse is over:
    the exit of its run starts none. *)
Lemma loop_step_runs watching done p l ev l' took :
  restart.loop_step watching done p l ev = Some (l', took) →
  (restart.runs l' ≠ restart.runs l →
   ev = restart.Begin ∨ (ev = restart.TakeRestart ∧ p ≠ 0)
   ∨ (ev = restart.TakeDone ∧ restart.at_ l = restart.Draining))
  ∧ (restart.at_ l' = restart.Draining →
     restart.at_ l = restart.Draining ∨ (ev = restart.TakeRestart ∧ p ≠ 0)).
Proof.
  unfold restart.runs.
  destruct ev as [| i | | |]; simpl; intros Hstep.
  - split; [by left|]. destruct (restart.at_ l); try done. by injection Hstep as <- <-.
  - destruct (restart.instances l !! i) as [[| |]|]; try done. injection Hstep as <- <-.
    simpl. rewrite length_insert. split; [done|]. by left.
  - destruct done; [|done]. destruct (restart.at_ l); try done; by injection Hstep as <- <-.
  - destruct p; [done|]. split; [by right; left|]. by right.
  - destruct (last (restart.instances l)) as [[| |]|]; try done.
    destruct (restart.at_ l); try done; injection Hstep as <- <-; simpl.
    + unfold restart.reap. rewrite length_insert. split; [done|]. by destruct watching.
    + split; [by right; right|]. done.
Qed.

Lemma run_started_by (c : Config) global s ev s' k l l' :
  restart.step c global s ev = Some s' →
  restart.loops s !! k = Some l → restart.loops s' !! k = Some l' →
  (restart.runs l' ≠ restart.runs l →
   ev = restart.Loop k restart.Begin
   ∨ (ev = restart.Loop k restart.TakeRestart ∧ restart.pulses s l ≠ 0)
   ∨ (ev = restart.Loop k restart.TakeDone ∧ restart.at_ l = restart.Draining))
  ∧ (restart.at_ l' = restart.Draining →
     restart.at_ l = restart.Draining
     ∨ (ev = restart.Loop k restart.TakeRestart ∧ restart.pulses s l ≠ 0)).
Proof.
  intros Hstep Hl Hl'.
  assert (restart.runs l' = restart.runs l ∧ restart.at_ l' = restart.at_ l →
          (restart.runs l' ≠ restart.runs l →
           ev = restart.Loop k restart.Begin
           ∨ (ev = restart.Loop k restart.TakeRestart ∧ restart.pulses s l ≠ 0)
           ∨ (ev = restart.Loop k restart.TakeDone ∧ restart.at_ l = restart.Draining))
          ∧ (restart.at_ l' = restart.Draining →
             restart.at_ l = restart.Draining
             ∨ (ev = restart.Loop k restart.TakeRestart ∧ restart.pulses s l ≠ 0)))
    as Hsame.
  { intros [Hr Ha]. split; [done|]. rewrite Ha. by left. }
  destruct ev as [| | | k0 ev]; simpl in Hstep.
  - destruct (restart.todo s) as [|taskName rest]; [done|].
    apply Hsame.
    destruct (restart.restartChans s !! taskName); injection Hstep as <-;
      simpl in Hl';
      rewrite lookup_app_l in Hl' by (rewrite ?length_fmap; by eapply lookup_lt_Some).
    + rewrite list_lookup_fmap, Hl in Hl'.
      injection Hl' as <-. unfold restart.keep_replaced.
      by repeat case_match.
    + rewrite Hl in Hl'. by injection Hl' as <-.
  - injection Hstep as <-. simpl in Hl'. rewrite Hl in Hl'. injection Hl' as <-.
    by apply Hsame.
  - injection Hstep as <-. simpl in Hl'. rewrite Hl in Hl'. injection Hl' as <-.
    by apply Hsame.
  - destruct (restart.loops s !! k0) as [l0|] eqn:Hk0; [|done].
    destruct (restart.loop_step (watcher.shouldWatch c global (restart.task l0))
                (restart.ctx_done s) (restart.pulses s l0) l0 ev)
      as [[l1 took]|] eqn:Hmove; [|done].
    assert (restart.loops s' = <[k0 := l1]> (restart.loops s)) as Hloops
      by (destruct took; by injection Hstep as <-).
    rewrite Hloops in Hl'.
    apply list_lookup_insert_Some in Hl' as [(<- & <- & _) | (Hne & Hl')].
    + rewrite Hk0 in Hl. injection Hl as <-.
      destruct (loop_step_runs _ _ _ _ _ _ _ Hmove) as [Hruns Hdrain]. split.
      * intros H. destruct (Hruns H) as [-> | [[-> ?] | [-> ?]]]; auto.
      * intros H. destruct (Hdrain H) as [? | [-> ?]]; auto.
    + rewrite Hl in Hl'. injection Hl' as <-. by apply Hsame.
Qed.

(** C9, as the program has it. A [restart] key of a task table is decoded
    into [TaskDef.Restart] whatever its TOML type, and nothing reads it:
    [Load] gives for a manifest what it gives for the same manifest without
    the key, up to the stored value (so the manifest is accepted exactly when
    the other is); task selection and the command an executor starts do not
    depend on the value; in a run of the accepted tasks by the plain runner no
    step starts an executor again once its [runTask] has returned; and under
    the watcher every step of [Start] and of its goroutines is the same as
    without the key, a goroutine starts a run only when it begins, when it
    receives a pulse from its restart channel, or when the run it has
    cancelled at such a pulse is over, and it cancels a run for a restart only
    at such a pulse: the exit of a run starts none. *)
Theorem restart_field_parsed_and_ignored (fs : files) (path : string) (c : Config) :
  Load fs path = Ok c →
  Load (strip_restart <$> fs) path = Ok (erase_Config c)
  ∧ (∀ td v, ∃ td', unify_TaskDef_field td "restart" v = Ok td' ∧ Restart td' = Some v)
  ∧ (∀ other, Load (strip_restart <$> other) path
              = result_map erase_Config (Load other path))
  ∧ (∀ args, GetTasksToRun (erase_Config c) args = GetTasksToRun c args)
  ∧ (∀ environ td, runTask_cmd environ (erase_Restart td) = runTask_cmd environ td)
  ∧ (∀ sched s ev s' i g g',
       exec sched (start_all (Tasks c) false) = Some s →
       goroutines s !! i = Some g → at_ g ≠ Running →
       step s ev = Some s' → goroutines s' !! i = Some g' →
       at_ g' ≠ Running)
  ∧ (∀ global taskName,
       watcher.shouldWatch (erase_Config c) global taskName
       = watcher.shouldWatch c global taskName)
  ∧ (∀ global s ev,
       restart.step (erase_Config c) global s ev = restart.step c global s ev)
  ∧ (∀ global s ev s' k l l',
       restart.step c global s ev = Some s' →
       restart.loops s !! k = Some l → restart.loops s' !! k = Some l' →
       (restart.runs l' ≠ restart.runs l →
        ev = restart.Loop k restart.Begin
        ∨ (ev = restart.Loop k restart.TakeRestart ∧ restart.pulses s l ≠ 0)
        ∨ (ev = restart.Loop k restart.TakeDone ∧ restart.at_ l = restart.Draining))
       ∧ (restart.at_ l' = restart.Draining →
          restart.at_ l = restart.Draining
          ∨ (ev = restart.Loop k restart.TakeRestart ∧ restart.pulses s l ≠ 0))).
Proof.
  intros HLoad. split; [|split; [|split; [|split; [|split; [|split; [|split; [|split]]]]]]];
    [..|apply shouldWatch_erase|apply restart_step_erase|apply run_started_by].
  - by rewrite Load_strip, HLoad.
  - intros td v. destruct (unify_field_restart td "restart" v eq_refl) as (td' & H1 & H2 & _).
    eauto.
  - intros other. apply Load_strip.
  - intros args. unfold GetTasksToRun. simpl.
    by rewrite validate_requested_erase.
  - done.
  - intros sched s ev s' i g g' _ Hg Hat Hstep Hg'.
    by eapply step_never_reruns.
Qed.

(** C9 as stated fails: the sample manifest sets [restart = true] for its
    only task, [Load] accepts it, and once the child has exited no step of
    the supervisor runs the task again. *)
Lemma restart_field_not_honoured : ¬ spec.restart_honoured_or_rejected.
Proof.
  intros Hclaim.
  assert (Load samples.restart_files "prun.toml" = Ok samples.restart_cfg) as HLoad
    by (vm_compute; reflexivity).
  assert (exec [Returns 0 (samples.exits 0)] (start_all (Tasks samples.restart_cfg) false)
          = Some samples.app_exited) as Hexec by reflexivity.
  destruct (Hclaim samples.restart_files "prun.toml" samples.restart_cfg 0 "app"
              samples.restart_task [Returns 0 (samples.exits 0)] samples.app_exited
              (mkGoroutine "app" Done) HLoad eq_refl ltac:(vm_compute; reflexivity)
              eq_refl Hexec eq_refl eq_refl)
    as (ev & s' & g' & Hstep & Hg' & Hat).
  apply (step_never_reruns samples.app_exited ev s' 0 (mkGoroutine "app" Done) g');
    done.
Qed.

End RestartField.

(** C9 as amended, at the sample manifest: it is accepted, the manifest
    without the key gives the same configuration up to [Restart], and after
    the child of [app] has exited a cancellation by the caller leaves its
    executor finished. *)
Lemma restart_field_parsed_and_ignored_witness :
  config.Load (spec.strip_restart <$> samples.restart_files) "prun.toml"
  = Ok (spec.erase_Config samples.restart_cfg)
  ∧ ∀ g', runner.goroutines (runner.mkRun true [] (runner.goroutines samples.app_exited))
            !! 0 = Some g' →
          runner.at_ g' ≠ runner.Running.
Proof.
  assert (config.Load samples.restart_files "prun.toml" = Ok samples.restart_cfg) as HLoad
    by (vm_compute; reflexivity).
  destruct (restart_field_parsed_and_ignored samples.restart_files "prun.toml"
              samples.restart_cfg HLoad) as (Hstrip & _ & _ & _ & _ & Hrun & _).
  split; [exact Hstrip|].
  intros g' Hg'.
  apply (Hrun [runner.Returns 0 (samples.exits 0)] samples.app_exited
           runner.ParentCancels
           (runner.mkRun true [] (runner.goroutines samples.app_exited))
           0 (runner.mkGoroutine "app" runner.Done) g');
    [reflexivity | reflexivity | discriminate | reflexivity | exact Hg'].
Defined.

(** ** What [streamOutput] writes *)
Section StreamedLines.
Import bufio text.

Lemma append_empty_r (s : string) : s +:+ "" = s.
Proof. induction s as [|ch s IH]; [done|]. by rewrite append_cons, IH. Qed.

Lemma str_take_drop_append n s : str_take n s +:+ str_drop n s = s.
Proof.
  revert s. induction n as [|n IH]; intros [|ch s]; try done.
  simpl. by rewrite append_cons, IH.
Qed.

Lemma stream_cons chunk rest : stream (chunk :: rest) = chunk +:+ stream rest.
Proof. done. Qed.

(** A read hands over the next bytes of the stream; it reports an error only
    when the stream is at its end. *)
Lemma Read_stream rd space :
  let '(got, e, rd') := Read rd space in
  got +:+ stream rd' = stream rd
  ∧ (is_Some e → e = Some EOF ∧ stream rd = "" ∧ got = "" ∧ stream rd' = "").
Proof.
  induction rd as [|chunk rest IH]; simpl.
  { split; [done|]. by intros _. }
  destruct (String.eqb_spec chunk "") as [->|Hchunk]; [exact IH|].
  split; [|by intros [? ?]].
  destruct (String.eqb_spec (str_drop space chunk) "") as [Hd|Hd].
  - rewrite <- (str_take_drop_append space chunk) at 2.
    by rewrite Hd, append_empty_r.
  - rewrite stream_cons, <- append_assoc. by rewrite str_take_drop_append.
Qed.

Lemma IndexByte_app_Some d x ch i :
  IndexByte d ch = Some i → IndexByte (d +:+ x) ch = Some i.
Proof.
  revert i. induction d as [|c' d IH]; intros i Hi; [done|].
  rewrite append_cons. simpl in *. destruct (Ascii.eqb c' ch); [done|].
  destruct (IndexByte d ch) as [j|]; [|done]. by rewrite (IH j eq_refl).
Qed.

Lemma IndexByte_app_None d x ch :
  IndexByte d ch = None →
  IndexByte (d +:+ x) ch = (λ j, String.length d + j)%nat <$> IndexByte x ch.
Proof.
  induction d as [|c' d IH]; intros Hd.
  { change ("" +:+ x) with x. by destruct (IndexByte x ch). }
  rewrite append_cons. simpl in *. destruct (Ascii.eqb c' ch); [done|].
  destruct (IndexByte d ch) as [j|]; [done|]. rewrite (IH eq_refl).
  by destruct (IndexByte x ch).
Qed.

Lemma str_take_app i d x :
  (i ≤ String.length d)%nat → str_take i (d +:+ x) = str_take i d.
Proof.
  revert d. induction i as [|i IH]; intros [|ch d] Hi; simpl in *; try done; try lia.
  rewrite ?append_cons. simpl. rewrite IH; [done | lia].
Qed.

Lemma str_drop_app i d x :
  (i ≤ String.length d)%nat → str_drop i (d +:+ x) = str_drop i d +:+ x.
Proof.
  revert d. induction i as [|i IH]; intros [|ch d] Hi; simpl in *; try done; try lia.
  rewrite ?append_cons. simpl. apply IH. lia.
Qed.

Lemma str_take_all s : str_take (String.length s) s = s.
Proof. induction s as [|ch s IH]; simpl; [done|]. by rewrite IH. Qed.

Lemma str_drop_all s : str_drop (String.length s) s = "".
Proof. induction s as [|ch s IH]; simpl; [done|]. by rewrite IH. Qed.

Lemma str_take_length_le i s :
  (i ≤ String.length s)%nat → String.length (str_take i s) = i.
Proof.
  revert s. induction i as [|i IH]; intros [|ch s] Hi; simpl in *; try done; try lia.
  rewrite IH; [done | lia].
Qed.

(** The lines of a string, read off the position of its first newline. *)
Lemma lines_from_newline cur s i :
  IndexByte s LF = Some i →
  lines_from cur s = (cur +:+ str_take i s) :: lines_from "" (str_drop (S i) s).
Proof.
  revert cur i. induction s as [|ch s IH]; intros cur i Hi; [done|].
  simpl in *. destruct (Ascii.eqb ch LF).
  - injection Hi as <-. simpl. by rewrite append_empty_r.
  - destruct (IndexByte s LF) as [j|] eqn:Hj; [|done]. injection Hi as <-.
    rewrite (IH _ j eq_refl). simpl. by rewrite append_assoc.
Qed.

Lemma lines_from_last cur s :
  IndexByte s LF = None →
  lines_from cur s = if String.eqb (cur +:+ s) "" then [] else [cur +:+ s].
Proof.
  revert cur. induction s as [|ch s IH]; intros cur Hi.
  { simpl. by rewrite append_empty_r. }
  simpl in *. destruct (Ascii.eqb ch LF); [done|].
  destruct (IndexByte s LF) as [j|] eqn:Hj; [done|].
  rewrite (IH _ eq_refl). by rewrite append_assoc.
Qed.

Lemma lines_next_line s :
  lines s = match next_line s with
            | None => []
            | Some (l, rest) => l :: lines rest
            end.
Proof.
  unfold lines, next_line. destruct (IndexByte s LF) as [i|] eqn:Hi.
  - rewrite (lines_from_newline "" s i Hi).
    destruct (String.eqb_spec s "") as [->|_]; [done|]. done.
  - rewrite (lines_from_last "" s Hi). change ("" +:+ s) with s.
    by destruct (String.eqb_spec s "").
Qed.

Lemma lines_fits max s :
  (0 < max)%nat →
  Forall (λ l, (String.length l < max)%nat) (lines s) → fits max s.
Proof.
  intros Hmax Hall. unfold fits. rewrite lines_next_line in Hall. unfold next_line in Hall.
  destruct (String.eqb_spec s "") as [->|Hs]; [simpl; lia|].
  destruct (IndexByte s LF) as [i|] eqn:Hi.
  - apply Forall_cons_1 in Hall as [Hl _].
    rewrite str_take_length_le in Hl; [done|]. apply IndexByte_lt in Hi. lia.
  - by apply Forall_cons_1 in Hall as [Hl _].
Qed.

Lemma try_token_newline s i :
  IndexByte (data s) LF = Some i →
  try_token s
  = (mkScanner (r s) (maxTokenSize s) (dropCR (str_take i (data s))) (buf_len s)
       (start s + (i + 1)) (str_drop (i + 1) (data s)) (err s), true).
Proof.
  intros Hi. pose proof (IndexByte_lt _ _ _ Hi) as Hlt.
  unfold try_token, ScanLines. rewrite Hi.
  destruct (String.length (data s)) as [|n] eqn:Hn; [lia|].
  simpl. by rewrite andb_false_r.
Qed.

Lemma try_token_open s :
  IndexByte (data s) LF = None → err s = None →
  snd (try_token s) = false ∧ data (fst (try_token s)) = data s.
Proof.
  intros Hi He. unfold try_token, ScanLines. rewrite Hi, He. simpl.
  by destruct (String.length (data s)).
Qed.

Lemma try_token_eof s :
  IndexByte (data s) LF = None → err s = Some EOF →
  try_token s
  = if String.eqb (data s) "" then
      (mkScanner (r s) (maxTokenSize s) "" (buf_len s) (start s + 0) "" (err s), false)
    else
      (mkScanner (r s) (maxTokenSize s) (dropCR (data s)) (buf_len s)
         (start s + String.length (data s)) "" (err s), true).
Proof.
  intros Hi He. unfold try_token, ScanLines. rewrite Hi, He. simpl.
  rewrite orb_true_r. destruct (data s) as [|ch d] eqn:Hd; [done|].
  simpl. by rewrite str_drop_all.
Qed.

Lemma grow_None s :
  grow s = None → buf_end s = buf_len s ∧ (maxTokenSize s ≤ buf_len s)%nat.
Proof.
  unfold grow. destruct (Nat.eqb_spec (buf_end s) (buf_len s)); [|done].
  by destruct (Nat.leb_spec (maxTokenSize s) (buf_len s)).
Qed.

Lemma shift_full s : buf_end (shift s) = buf_len (shift s) → start (shift s) = 0.
Proof.
  unfold shift, buf_end.
  destruct (Nat.ltb 0 (start s) && _) eqn:Hc; [done|]. intros Heq.
  apply andb_false_iff in Hc as [Hc|Hc].
  - apply Nat.ltb_ge in Hc. lia.
  - apply orb_false_iff in Hc as [Hc _]. by apply Nat.eqb_neq in Hc.
Qed.

(** A full buffer without a newline contradicts [fits]. *)
Lemma full_buffer_unfit s :
  bounded s → IndexByte (data s) LF = None → grow (shift s) = None →
  ¬ fits (maxTokenSize s) (remaining s).
Proof.
  intros Hb Hi Hgrow Hfit.
  assert (maxTokenSize s ≤ String.length (data s))%nat as Hfull.
  { apply grow_None in Hgrow as [Hend Hge]. pose proof (shift_full s Hend) as Hst.
    destruct (shift_bounded s Hb) as [_ Hmax].
    destruct (shift_fields s) as (_ & Hd & _).
    unfold buf_end in Hend. rewrite Hst, Hd in Hend. rewrite Hmax in Hge. simpl in Hend. lia. }
  unfold fits, remaining in Hfit. rewrite (IndexByte_app_None _ _ _ Hi) in Hfit.
  destruct (IndexByte (stream (r s)) LF) as [j|]; simpl in Hfit.
  - lia.
  - rewrite append_length in Hfit. lia.
Qed.

Lemma read_more_remaining s :
  err s = None →
  remaining (read_more s) = remaining s
  ∧ (err (read_more s) = None
     ∨ (err (read_more s) = Some EOF ∧ stream (r (read_more s)) = "")).
Proof.
  intros He. unfold read_more, remaining.
  pose proof (Read_stream (r s) (buf_len s - buf_end s)) as HR.
  destruct (Read (r s) (buf_len s - buf_end s)) as [[got e] rd].
  destruct HR as [Hgot Heof]. destruct e as [e|].
  - destruct (Heof (mk_is_Some _ _ eq_refl)) as ([= ->] & Hs & -> & Hrd).
    unfold setErr. rewrite He. simpl. rewrite Hrd, <- Hgot, Hrd.
    split; [by rewrite !append_empty_r | by right].
  - simpl. split; [|by left]. by rewrite append_assoc, Hgot.
Qed.

(** One call of [Scan] on a stream whose next line fits the buffer: it
    reports the end of the stream, or hands over the next line and keeps
    the rest. *)
Lemma Scan_line fuel : ∀ s b s',
  healthy s → fits (maxTokenSize s) (remaining s) →
  Scan fuel s = Some (b, s') →
  match next_line (remaining s) with
  | None => b = false
  | Some (l, rest) =>
      b = true ∧ token s' = dropCR l ∧ remaining s' = rest
      ∧ healthy s' ∧ maxTokenSize s' = maxTokenSize s
  end.
Proof.
  induction fuel as [|fuel IH]; intros s b s' Hs Hfit Hscan; [done|].
  destruct Hs as (Hb & Hmax & Herr).
  cbn [Scan] in Hscan.
  destruct (IndexByte (data s) LF) as [i|] eqn:Hi.
  - rewrite (try_token_newline s i Hi) in Hscan. injection Hscan as <- <-.
    pose proof (IndexByte_lt _ _ _ Hi) as Hlt.
    unfold next_line, remaining. rewrite (IndexByte_app_Some _ _ _ _ Hi).
    destruct (String.eqb_spec (data s +:+ stream (r s)) "") as [He|_].
    { apply (f_equal String.length) in He. rewrite append_length in He. simpl in He. lia. }
    split; [done|]. cbn [token data r maxTokenSize].
    split; [by rewrite str_take_app by lia|].
    split; [rewrite Nat.add_1_r; by rewrite str_drop_app by lia|].
    split; [|done]. split; [|done].
    destruct Hb as [Hend Hlen]. split; [|done]. unfold buf_end in *. simpl.
    rewrite str_drop_length. lia.
  - destruct Herr as [He|[He Hrd]].
    + destruct (try_token_open s Hi He) as [Hfound Hdata].
      pose proof (try_token_unread s) as (Hr1 & He1 & _).
      pose proof (try_token_bounded s Hb) as [Hb1 Hmax1].
      destruct (try_token s) as [s1 found]. simpl in *. subst found.
      rewrite He1, He in Hscan. simpl in Hscan.
      assert (remaining s1 = remaining s) as Hrem1 by (unfold remaining; congruence).
      unfold fill in Hscan. destruct (grow (shift s1)) as [s2|] eqn:Hgrow.
      * pose proof (shift_bounded s1 Hb1) as [Hb2 Hmax2].
        pose proof (shift_fields s1) as (Hr2 & Hd2 & He2).
        destruct (grow_room _ _ Hgrow Hb2 ltac:(lia)) as (_ & Hr3 & Hd3 & He3).
        destruct (grow_bounded _ _ Hgrow Hb2) as [Hb3 Hmax3].
        destruct (read_more_bounded s2 Hb3) as [Hb4 Hmax4].
        destruct (read_more_remaining s2 ltac:(congruence)) as [Hrem4 He4].
        assert (remaining (read_more s2) = remaining s) as Hrem.
        { rewrite Hrem4, <- Hrem1. unfold remaining. congruence. }
        assert (maxTokenSize (read_more s2) = maxTokenSize s) as Hm by congruence.
        specialize (IH (read_more s2) b s').
        rewrite Hrem, Hm in IH. apply IH; [|done|done].
        split; [done|]. split; [lia|done].
      * exfalso. apply (full_buffer_unfit s1 Hb1); [congruence|done|].
        by rewrite Hrem1, Hmax1.
    + rewrite (try_token_eof s Hi He) in Hscan.
      unfold next_line, remaining. rewrite Hrd, append_empty_r, Hi.
      destruct (String.eqb_spec (data s) "") as [Hd|Hd].
      * simpl in Hscan. rewrite He in Hscan. simpl in Hscan. by injection Hscan as <- _.
      * injection Hscan as <- <-. simpl. rewrite Hrd.
        split; [done|]. split; [done|]. split; [done|]. split; [|done].
        split; [|split; [done|by right]].
        destruct Hb as [Hend Hlen]. split; [|done]. unfold buf_end in *. simpl. lia.
Qed.

(** The loop of [streamOutput] writes one prefixed line for each line of
    the stream, when every line fits the scanner's buffer. *)
Lemma streamOutput_loop_lines fuel : ∀ taskName s written out,
  healthy s →
  Forall (λ l, (String.length l < maxTokenSize s)%nat) (lines (remaining s)) →
  runner.streamOutput_loop fuel taskName s written = Some out →
  out = (written
         ++ map (λ l, runner.WritePrefix taskName (dropCR l +:+ String LF ""))
                (lines (remaining s)))%list.
Proof.
  induction fuel as [|fuel IH]; intros taskName s written out Hs Hall Hloop; [done|].
  cbn [runner.streamOutput_loop] in Hloop.
  destruct (Scan (S fuel) s) as [[b s']|] eqn:Hscan; [|done].
  pose proof (Scan_line _ _ _ _ Hs (lines_fits _ _ (proj1 (proj2 Hs)) Hall) Hscan) as Hline.
  rewrite lines_next_line in Hall |- *.
  destruct (next_line (remaining s)) as [[l rest]|].
  - destruct Hline as (-> & Htok & Hrem & Hs' & Hmax').
    apply Forall_cons_1 in Hall as [_ Hall].
    apply IH in Hloop; [|done|by rewrite Hrem, Hmax'].
    rewrite Hloop, Hrem. unfold Text. rewrite Htok. simpl. by rewrite <- app_assoc.
  - subst b. injection Hloop as <-. simpl. by rewrite app_nil_r.
Qed.

(** X1. When every line of a child's output is shorter than 64 KiB,
    [streamOutput] writes exactly one prefixed line for each line of the
    stream, in order: a trailing carriage return is dropped, a newline is
    added, and a last line without a newline is written too, however the
    reads split the stream. *)
Theorem streamOutput_lines taskName reader :
  Forall (λ l, (String.length l < MaxScanTokenSize)%nat) (lines (stream reader)) →
  runner.streamOutput taskName reader
  = Some (map (λ l, runner.WritePrefix taskName (dropCR l +:+ String LF ""))
              (lines (stream reader))).
Proof.
  intros Hall. destruct (streamOutput_returns taskName reader) as [out Hout].
  rewrite Hout. f_equal. unfold runner.streamOutput in Hout.
  apply streamOutput_loop_lines in Hout; [by rewrite Hout| |done].
  split; [|split; [|by left]].
  - unfold bounded, buf_end.
    cbn [NewScanner start data buf_len maxTokenSize String.length]. lia.
  - cbn [NewScanner maxTokenSize]. unfold MaxScanTokenSize. lia.
Qed.

End StreamedLines.

Lemma streamOutput_lines_witness :
  runner.streamOutput "app" examples.chunked_output
  = Some ["[app] building..." +:+ samples.nl; "[app] done" +:+ samples.nl;
          "[app] last" +:+ samples.nl].
Proof.
  apply (streamOutput_lines "app" examples.chunked_output).
  refine (bool_decide_unpack _ _). vm_compute. exact I.
Defined.

Section Capacity.
Import runner supervision.

Lemma step_Returns s i c s' :
  step s (Returns i c) = Some s' →
  ∃ g, goroutines s !! i = Some g ∧ at_ g = Running
       ∧ s' = mkRun (ctx_cancelled s) (errChan s)
                (set_pc s i g
                   match runTask_result (ctx_cancelled s) c with
                   | Some e => Failed ("task '" +:+ name g +:+ "': " +:+ e)
                   | None => Done
                   end).
Proof.
  simpl. destruct (goroutines s !! i) as [g|] eqn:Hg; [|done].
  destruct (at_ g) eqn:Hat; try done.
  destruct (runTask_result (ctx_cancelled s) c) as [e|]; intros [= <-]; eauto.
Qed.

Lemma step_may_send s ev s' :
  step s ev = Some s' →
  (length (errChan s') + count may_send (goroutines s')
   ≤ length (errChan s) + count may_send (goroutines s))%nat.
Proof.
  intros H. apply step_inv in H. destruct ev.
  - destruct H as (g & p & Hg & Hat & Hp & ->). simpl. unfold set_pc.
    pose proof (count_insert may_send _ _ g (name g) p Hg) as Hcount.
    rewrite Hat in Hcount. destruct Hp as [-> | [e ->]]; simpl in *; lia.
  - destruct H as (g & e & Hg & Hat & ->). simpl. rewrite length_app. simpl.
    unfold set_pc.
    pose proof (count_insert may_send _ _ g (name g) Sent Hg) as Hcount.
    rewrite Hat in Hcount. simpl in *. lia.
  - destruct H as (g & Hg & Hat & ->). simpl. unfold set_pc.
    pose proof (count_insert may_send _ _ g (name g) Done Hg) as Hcount.
    rewrite Hat in Hcount. simpl in *. lia.
  - subst. simpl. done.
Qed.

Lemma exec_may_send sched s s' :
  exec sched s = Some s' →
  (length (errChan s') + count may_send (goroutines s')
   ≤ length (errChan s) + count may_send (goroutines s))%nat.
Proof.
  revert s. induction sched as [|ev rest IH]; intros s; simpl.
  - by intros [= <-].
  - destruct (step s ev) as [s1|] eqn:Hs; [|done]. intros H.
    etrans; [by apply IH | by eapply step_may_send].
Qed.

Lemma count_le_length f gs : (count f gs ≤ length gs)%nat.
Proof. induction gs as [|g rest IH]; simpl; [done|]. destruct (f (at_ g)); lia. Qed.

(** X2. [errChan] is made with room for one error per task, and that is
    enough: under every interleaving, whenever an executor sends its error
    the channel holds fewer than [len(r.tasks)] errors, so the send never
    blocks and the executor always reaches [cancel()]. *)
Theorem errChan_send_has_room (tasks : list string) (parent : bool) (sched : list event)
    (s s' : run_state) (i : nat) :
  exec sched (start_all tasks parent) = Some s →
  step s (Sends i) = Some s' →
  (length (errChan s) < length tasks)%nat
  ∧ (length (errChan s') ≤ length tasks)%nat.
Proof.
  intros Hexec Hstep.
  pose proof (exec_may_send _ _ _ Hexec) as Hs.
  pose proof (step_may_send _ _ _ Hstep) as Hs'.
  pose proof (count_le_length may_send (goroutines (start_all tasks parent))) as Hle.
  simpl in Hs, Hle. rewrite length_fmap in Hle.
  apply step_inv in Hstep as (g & e & Hg & Hat & _).
  assert (0 < count may_send (goroutines s))%nat.
  { eapply count_pos; [by eapply list_elem_of_lookup_2 | by rewrite Hat]. }
  lia.
Qed.

Lemma step_named tasks s ev s' :
  step s ev = Some s' → named tasks s → named tasks s'.
Proof.
  intros H [Hchan Hgs].
  assert (∀ i g p, goroutines s !! i = Some g →
            (∀ e, p = Failed e → task_error tasks e) →
            Forall (λ g, name g ∈ tasks ∧ ∀ e, at_ g = Failed e → task_error tasks e)
                   (set_pc s i g p)) as Hset.
  { intros i g p Hg Hp. apply Forall_insert; [done|]. simpl.
    split; [|done]. by apply (Forall_lookup_1 _ _ _ _ Hgs Hg). }
  destruct ev as [i c | i | i |].
  - apply step_Returns in H as (g & Hg & Hat & ->). split; [done|]. simpl.
    apply Hset; [done|]. intros e He.
    destruct (runTask_result (ctx_cancelled s) c) as [cause|]; [|done].
    injection He as <-. exists (name g), cause. split; [|done].
    by apply (Forall_lookup_1 _ _ _ _ Hgs Hg).
  - apply step_inv in H as (g & e & Hg & Hat & ->). split; simpl.
    + apply Forall_app. split; [done|]. apply Forall_singleton.
      by apply (Forall_lookup_1 _ _ _ _ Hgs Hg).
    + by apply Hset.
  - apply step_inv in H as (g & Hg & Hat & ->). split; [done|]. by apply Hset.
  - apply step_inv in H as ->. by split.
Qed.

Lemma exec_named tasks sched s s' :
  exec sched s = Some s' → named tasks s → named tasks s'.
Proof.
  revert s. induction sched as [|ev rest IH]; intros s; simpl.
  - by intros [= <-].
  - destruct (step s ev) as [s1|] eqn:Hs; [|done]. intros H Inv.
    eapply IH; [done|]. by eapply step_named.
Qed.

(** X3. An error returned by [Run] always has the form
    [task '<name>': <cause>], where [<name>] is one of the tasks handed to
    the runner, whatever the interleaving of the executors. *)
Theorem Run_error_names_task (tasks : list string) (parent : bool) (sched : list event)
    (err : error) :
  Run tasks parent sched = Some (Some err) → task_error tasks err.
Proof.
  unfold Run. destruct (exec sched (start_all tasks parent)) as [s|] eqn:Hexec; [|done].
  intros Hret. unfold Run_return in Hret.
  destruct (forallb is_Done (goroutines s)); [|done]. injection Hret as Hhead.
  assert (named tasks (start_all tasks parent)) as Hstart.
  { split; simpl; [done|]. apply Forall_fmap, Forall_forall. intros t Ht. by simpl. }
  destruct (exec_named _ _ _ _ Hexec Hstart) as [Hchan _].
  destruct (errChan s) as [|e rest]; [done|]. injection Hhead as ->.
  by apply Forall_cons_1 in Hchan as [? _].
Qed.

Lemma step_no_failure s ev s' :
  step s ev = Some s' → no_failure s →
  (∀ i c, ev = Returns i c → runTask_result (ctx_cancelled s) c = None) →
  no_failure s' ∧ (ctx_cancelled s' = true → ctx_cancelled s = true ∨ ev = ParentCancels).
Proof.
  intros H [Hchan Hgs] Hquiet. destruct ev as [i c | i | i |].
  - apply step_Returns in H as (g & Hg & Hat & ->).
    rewrite (Hquiet i c eq_refl). split; [|by left]. split; [done|]. simpl.
    apply Forall_insert; [done|]. by right.
  - apply step_inv in H as (g & e & Hg & Hat & _).
    destruct (Forall_lookup_1 _ _ _ _ Hgs Hg) as [?|?]; congruence.
  - apply step_inv in H as (g & Hg & Hat & _).
    destruct (Forall_lookup_1 _ _ _ _ Hgs Hg) as [?|?]; congruence.
  - apply step_inv in H as ->. split; [by split | by right].
Qed.

Lemma no_failure_nil s r : no_failure s → Run_return s = Some r → r = None.
Proof.
  intros [Hchan _]. unfold Run_return. rewrite Hchan.
  destruct (forallb is_Done (goroutines s)); [|done]. by intros [= <-].
Qed.

Lemma start_all_no_failure tasks parent : no_failure (start_all tasks parent).
Proof.
  split; [done|]. simpl. apply Forall_fmap, Forall_forall. intros t _. by left.
Qed.

Lemma exec_exits_zero sched : ∀ s s',
  Forall (λ ev, exits_zero ev = true) sched →
  exec sched s = Some s' → no_failure s →
  no_failure s'
  ∧ (ctx_cancelled s' = true → ctx_cancelled s = true ∨ ParentCancels ∈ sched).
Proof.
  induction sched as [|ev rest IH]; intros s s' Hall; simpl.
  - intros [= <-] Hs. split; [done|]. by left.
  - apply Forall_cons_1 in Hall as [Hev Hall].
    destruct (step s ev) as [s1|] eqn:Hstep; [|done]. intros Hexec Hs.
    destruct (step_no_failure _ _ _ Hstep Hs) as [Hs1 Hc1].
    { intros i c ->. simpl in Hev. destruct c as [| | |out errs code]; try done.
      apply Z.eqb_eq in Hev as ->. done. }
    destruct (IH _ _ Hall Hexec Hs1) as [Hs' Hc']. split; [done|].
    intros Hc. destruct (Hc' Hc) as [H1|Hin].
    + destruct (Hc1 H1) as [?| ->]; [by left|]. right. by left.
    + right. by right.
Qed.

(** X4. When every child exits with status 0, [Run] returns nil under
    every interleaving of the executors, and the context it shares with
    them is cancelled only if the caller's context is. *)
Theorem Run_nil_when_children_succeed (tasks : list string) (parent : bool)
    (sched : list event) (s : run_state) :
  Forall (λ ev, exits_zero ev = true) sched →
  exec sched (start_all tasks parent) = Some s →
  errChan s = []
  ∧ (∀ r, Run_return s = Some r → r = None)
  ∧ (ctx_cancelled s = true → parent = true ∨ ParentCancels ∈ sched).
Proof.
  intros Hall Hexec.
  destruct (exec_exits_zero _ _ _ Hall Hexec (start_all_no_failure tasks parent))
    as [Hs Hc].
  split; [by destruct Hs|]. split; [|done]. intros r. by apply no_failure_nil.
Qed.

Lemma exec_cancelled sched : ∀ s s',
  Forall (λ ev, child_started ev = true) sched →
  exec sched s = Some s' → no_failure s → ctx_cancelled s = true →
  no_failure s' ∧ ctx_cancelled s' = true.
Proof.
  induction sched as [|ev rest IH]; intros s s' Hall; simpl.
  - by intros [= <-] Hs Hc.
  - apply Forall_cons_1 in Hall as [Hev Hall].
    destruct (step s ev) as [s1|] eqn:Hstep; [|done]. intros Hexec Hs Hc.
    destruct (step_no_failure _ _ _ Hstep Hs) as [Hs1 _].
    { intros i c ->. simpl in Hev. destruct c as [| | |out errs code]; try done.
      rewrite Hc. simpl. by destruct (cmd_Wait code). }
    apply (IH _ _ Hall Hexec Hs1).
    apply step_inv in Hstep. destruct ev.
    + by destruct Hstep as (g & p & _ & _ & _ & ->).
    + by destruct Hstep as (g & e & _ & _ & ->).
    + by destruct Hstep as (g & _ & _ & ->).
    + by subst.
Qed.

Lemma exec_no_Sends sched : ∀ s s',
  exec sched s = Some s' → errChan s' = [] → Forall (λ ev, is_Sends ev = false) sched.
Proof.
  induction sched as [|ev rest IH]; intros s s'; simpl; [done|].
  destruct (step s ev) as [s1|] eqn:Hstep; [|done]. intros Hexec Hnil.
  constructor; [|by eapply IH].
  destruct ev as [| j | |]; try done.
  apply step_inv in Hstep as (g & e & _ & _ & ->).
  apply exec_errChan in Hexec as (l & Hl). simpl in Hl. rewrite Hnil in Hl.
  by destruct (errChan s).
Qed.

(** X5. When the caller cancels the context during the run, as [main] does
    at an interrupt, [Run] returns nil: if the executors that have returned
    before had children that exited with status 0, and the children still
    running were started, then whatever the status of these or the signal
    that kills them, [runTask] returns nil, nothing is ever sent on
    [errChan] and [Run] returns nil. *)
Theorem Run_nil_after_cancellation (tasks : list string) (before after : list event)
    (r : option error) :
  Forall (λ ev, exits_zero ev = true) before →
  Forall (λ ev, child_started ev = true) after →
  Run tasks false (before ++ ParentCancels :: after) = Some r →
  r = None ∧ Forall (λ ev, is_Sends ev = false) (before ++ ParentCancels :: after).
Proof.
  intros Hbefore Hafter. unfold Run.
  destruct (exec (before ++ ParentCancels :: after) (start_all tasks false))
    as [s|] eqn:Hexec; [|done]. intros Hret.
  pose proof Hexec as Hsplit. rewrite exec_app in Hsplit.
  destruct (exec before (start_all tasks false)) as [s1|] eqn:Hpre; [|done].
  simpl in Hsplit.
  destruct (exec_exits_zero _ _ _ Hbefore Hpre (start_all_no_failure tasks false))
    as [Hs1 _].
  destruct (exec_cancelled _ _ _ Hafter Hsplit Hs1 eq_refl) as [Hs _].
  split; [by eapply no_failure_nil|].
  eapply exec_no_Sends; [exact Hexec|]. by destruct Hs.
Qed.

End Capacity.

Lemma errChan_send_has_room_witness :
  (length (runner.errChan examples.hello_returned) < 2)%nat
  ∧ (length (runner.errChan examples.hello_sent) ≤ 2)%nat.
Proof.
  apply (errChan_send_has_room ["hello"; "world"] false
           [runner.Returns 0 (samples.exits 1)]
           examples.hello_returned examples.hello_sent 0); vm_compute; reflexivity.
Defined.

Lemma Run_error_names_task_witness :
  supervision.task_error ["hello"; "world"] "task 'hello': exit status 1".
Proof.
  apply (Run_error_names_task ["hello"; "world"] false samples.hello_fails).
  vm_compute. reflexivity.
Defined.

Lemma Run_nil_when_children_succeed_witness :
  runner.errChan examples.both_done = []
  ∧ (∀ r, runner.Run_return examples.both_done = Some r → r = None)
  ∧ (runner.ctx_cancelled examples.both_done = true →
     false = true ∨ runner.ParentCancels ∈ examples.both_succeed).
Proof.
  apply (Run_nil_when_children_succeed ["hello"; "world"] false
           examples.both_succeed examples.both_done).
  - repeat constructor.
  - vm_compute. reflexivity.
Defined.

Lemma Run_nil_after_cancellation_witness :
  (None : option error) = None
  ∧ Forall (λ ev, runner.is_Sends ev = false)
      (examples.hello_exits_first ++ runner.ParentCancels :: examples.world_killed).
Proof.
  apply (Run_nil_after_cancellation ["hello"; "world"] examples.hello_exits_first
           examples.world_killed None).
  - repeat constructor.
  - repeat constructor.
  - vm_compute. reflexivity.
Defined.

Section FailFast.
Import runner supervision completion.















End FailFast.


Section Validation.
Import config validity.

Lemma validate_listed_None defs tasks :
  validate_listed defs tasks = None ↔ Forall (λ t, is_Some (defs !! t)) tasks.
Proof.
  induction tasks as [|t rest IH]; simpl; [by split|].
  destruct (defs !! t) as [td|] eqn:Ht.
  - rewrite IH. split; [intros H; by constructor | by intros [_ H]%Forall_cons_1].
  - split; [done|]. intros [[td Htd] _]%Forall_cons_1. congruence.
Qed.

Lemma validate_listed_Some defs tasks e :
  validate_listed defs tasks = Some e →
  ∃ before t after,
    tasks = (before ++ t :: after)%list
    ∧ Forall (λ t, is_Some (defs !! t)) before
    ∧ defs !! t = None
    ∧ e = "task '" +:+ t +:+ "' listed but not defined".
Proof.
  induction tasks as [|t rest IH]; simpl; [done|].
  destruct (defs !! t) as [td|] eqn:Ht.
  - intros H. destruct (IH H) as (before & u & after & -> & Hb & Hu & ->).
    exists (t :: before), u, after. split; [done|]. split; [|done].
    constructor; [by rewrite Ht | done].
  - intros [= <-]. by exists [], t, rest.
Qed.

Lemma validate_cmds_None entries :
  validate_cmds entries = None
  ↔ Forall (uncurry (λ (_ : string) task, Cmd task ≠ "")) entries.
Proof.
  induction entries as [|[name task] rest IH]; simpl; [by split|].
  destruct (String.eqb_spec (Cmd task) "") as [He|Hne].
  - split; [done|]. by intros [? _]%Forall_cons_1.
  - rewrite IH. split; [intros H; by constructor | by intros [_ H]%Forall_cons_1].
Qed.

Lemma validate_cmds_Some entries e :
  validate_cmds entries = Some e →
  ∃ name task, (name, task) ∈ entries ∧ Cmd task = ""
               ∧ e = "task '" +:+ name +:+ "' missing required 'cmd' field".
Proof.
  induction entries as [|[name task] rest IH]; simpl; [done|].
  destruct (String.eqb_spec (Cmd task) "") as [He|Hne].
  - intros [= <-]. exists name, task. split; [apply list_elem_of_here | done].
  - intros H. destruct (IH H) as (n & t & Hin & Ht & ->). exists n, t.
    split; [by apply list_elem_of_further | done].
Qed.

Lemma Load_Ok_valid (fs : files) (configPath : string) (c : Config) :
  Load fs configPath = Ok c → valid c.
Proof.
  unfold Load, os_ReadFile, valid.
  destruct (fs !! configPath) as [data|]; [|done].
  destruct (toml_Unmarshal data (mkConfig [] ∅)) as [cfg|err]; [|done].
  destruct (validate_listed (TaskDefs cfg) (Tasks cfg)) as [e|] eqn:Hl; [done|].
  destruct (validate_cmds (map_to_list (TaskDefs cfg))) as [e|] eqn:Hc; [done|].
  intros [= <-]. split; [by apply validate_listed_None|].
  apply map_Forall_to_list. by apply validate_cmds_None.
Qed.

Lemma GetTasksToRun_Ok_defined (c : Config) (args tasksToRun : list string) :
  valid c → GetTasksToRun c args = Ok tasksToRun →
  Forall (runnable c) tasksToRun.
Proof.
  intros [Hlisted Hcmds] Hget.
  assert (Forall (λ t, is_Some (TaskDefs c !! t)) tasksToRun) as Hdef.
  { unfold GetTasksToRun in Hget. destruct (Nat.eqb (length args) 0).
    - by injection Hget as <-.
    - destruct (validate_requested (TaskDefs c) args) as [e|] eqn:Hreq; [done|].
      injection Hget as <-. clear -Hreq.
      induction args as [|a rest IH]; simpl in *; [done|].
      destruct (TaskDefs c !! a) eqn:Ha; [|done]. constructor; [by rewrite Ha | by apply IH]. }
  eapply Forall_impl; [exact Hdef|]. intros t [task Ht].
  exists task. split; [done|]. exact (Hcmds t task Ht).
Qed.

(** X6. [Load] accepts a manifest exactly when the file can be read, it
    decodes, every listed task has a definition and every definition,
    listed or not, has a non-empty [cmd]; the order in which the
    definitions are visited plays no part. *)
Theorem Load_accepts_valid (fs : files) (configPath : string) (c : Config) :
  Load fs configPath = Ok c
  ↔ ∃ data, fs !! configPath = Some data
            ∧ toml_Unmarshal data (mkConfig [] ∅) = Ok c
            ∧ valid c.
Proof.
  unfold Load, os_ReadFile, valid. split.
  - destruct (fs !! configPath) as [data|] eqn:Hfile; [|done].
    destruct (toml_Unmarshal data (mkConfig [] ∅)) as [cfg|err] eqn:Hdec; [|done].
    destruct (validate_listed (TaskDefs cfg) (Tasks cfg)) as [e|] eqn:Hl; [done|].
    destruct (validate_cmds (map_to_list (TaskDefs cfg))) as [e|] eqn:Hc; [done|].
    intros [= <-]. exists data. split; [done|]. split; [done|].
    split; [by apply validate_listed_None|].
    apply map_Forall_to_list. by apply validate_cmds_None.
  - intros (data & -> & -> & Hlisted & Hcmds).
    apply validate_listed_None in Hlisted. rewrite Hlisted.
    apply map_Forall_to_list, validate_cmds_None in Hcmds. by rewrite Hcmds.
Qed.

(** X7. Every error of [Load] tells the truth about its cause, and the
    checks come in a fixed order: an unreadable file, then a document that
    does not decode, then the first listed task without a definition, and
    only when every listed task is defined a definition without [cmd]. *)
Theorem Load_error_cause (fs : files) (configPath : string) (e : error) :
  Load fs configPath = Err e → load_failure fs configPath e.
Proof.
  unfold Load, os_ReadFile. destruct (fs !! configPath) as [data|] eqn:Hfile.
  - destruct (toml_Unmarshal data (mkConfig [] ∅)) as [cfg|err] eqn:Hdec.
    + destruct (validate_listed (TaskDefs cfg) (Tasks cfg)) as [e1|] eqn:Hl.
      * intros [= <-].
        destruct (validate_listed_Some _ _ _ Hl) as (before & t & after & Ht & Hb & Hu & ->).
        by eapply NotDefined.
      * destruct (validate_cmds (map_to_list (TaskDefs cfg))) as [e2|] eqn:Hc; [|done].
        intros [= <-].
        destruct (validate_cmds_Some _ _ Hc) as (name & task & Hin & Hcmd & ->).
        apply elem_of_map_to_list in Hin.
        eapply NoCmd; eauto. by apply validate_listed_None.
    + intros [= <-]. by eapply NotDecoded.
  - intros [= <-]. by apply NotRead.
Qed.

(** X8. Every task that selection hands to the runner out of a loaded
    manifest is defined and has a command: the executor never looks up a
    missing definition, and the command line it builds for the task is
    [/bin/sh -c <cmd>] with the non-empty [cmd] of the manifest. *)
Theorem loaded_tasks_runnable (fs : files) (configPath : string) (c : Config)
    (args tasksToRun : list string) (environ : list string) :
  Load fs configPath = Ok c →
  GetTasksToRun c args = Ok tasksToRun →
  Forall (λ taskName,
            runnable c taskName
            ∧ ∃ cmd, cmd ≠ ""
                     ∧ runner.Args (runner.runTask_cmd environ (lookupTaskDef c taskName))
                       = ["/bin/sh"; "-c"; cmd])
         tasksToRun.
Proof.
  intros Hload Hget.
  pose proof (GetTasksToRun_Ok_defined _ _ _ (Load_Ok_valid _ _ _ Hload) Hget) as Hrun.
  eapply Forall_impl; [exact Hrun|]. intros t (task & Ht & Hcmd).
  split; [by exists task|]. exists (Cmd task). split; [done|].
  unfold lookupTaskDef. rewrite Ht. simpl.
  unfold runner.runTask_cmd. by destruct (runner.useShell task).
Qed.

End Validation.

Lemma Load_error_cause_witness :
  validity.load_failure examples.undefined_files "prun.toml"
    "task 'web' listed but not defined".
Proof.
  apply (Load_error_cause examples.undefined_files "prun.toml").
  vm_compute. reflexivity.
Defined.

Lemma loaded_tasks_runnable_witness :
  Forall (λ taskName,
            validity.runnable samples.restart_cfg taskName
            ∧ ∃ cmd, cmd ≠ ""
                     ∧ runner.Args (runner.runTask_cmd ["HOME=/root"]
                                      (config.lookupTaskDef samples.restart_cfg taskName))
                       = ["/bin/sh"; "-c"; cmd])
         ["app"].
Proof.
  apply (loaded_tasks_runnable samples.restart_files "prun.toml" samples.restart_cfg
           [] ["app"] ["HOME=/root"]).
  - vm_compute. reflexivity.
  - reflexivity.
Defined.

Section Watched.
Import config watcher watching.

Lemma adds_only_refl dirs fw : adds_only dirs fw fw.
Proof. split; [done|]. split; [done|]. intros path Hp. by left. Qed.

Lemma adds_only_trans dirs fw1 fw2 fw3 :
  adds_only dirs fw1 fw2 → adds_only dirs fw2 fw3 → adds_only dirs fw1 fw3.
Proof.
  intros (Hr1 & Hs1 & Ha1) (Hr2 & Hs2 & Ha2). split; [congruence|]. split; [set_solver|].
  intros path Hp. destruct (Ha2 path Hp) as [H2|H2]; [by apply Ha1 | by right].
Qed.

Lemma adds_only_mono dirs dirs' fw fw' :
  dirs ⊆ dirs' → adds_only dirs fw fw' → adds_only dirs' fw fw'.
Proof.
  intros Hsub (Hr & Hs & Ha). split; [done|]. split; [done|].
  intros path Hp. destruct (Ha path Hp) as [H|[H1 H2]]; [by left|]. right. set_solver.
Qed.

Lemma walkFn_adds_only fw path (isDir : bool) err :
  adds_only (if isDir then ({[path]} : gset string) else ∅) fw
    (walkFn fw path isDir err).1.
Proof.
  unfold walkFn. destruct err as [e|]; [apply adds_only_refl|].
  destruct isDir; [|apply adds_only_refl].
  destruct (skipped (filepath.Base path)) eqn:Hbase; [apply adds_only_refl|].
  unfold Add. destruct (refused fw !! path); [apply adds_only_refl|]. simpl.
  split; [done|]. split; [set_solver|]. intros q Hq. simpl in Hq.
  apply elem_of_union in Hq as [Hq|Hq]; [|by left].
  apply elem_of_singleton in Hq as ->. right. split; [set_solver | done].
Qed.

Lemma walk_entries_adds_only path entries :
  Forall (λ ne, ∀ p fw, adds_only (directories p (snd ne)) fw (walk p (snd ne) fw).1)
         entries →
  ∀ fw, adds_only (all_below directories path entries) fw
          (walk_entries walk path entries fw).1.
Proof.
  induction 1 as [|[nm entry] rest Hentry _ IH]; intros fw; [apply adds_only_refl|].
  cbn [walk_entries all_below]. simpl in Hentry.
  specialize (Hentry (filepath.Join path nm) fw).
  assert (∀ fw', adds_only (directories (filepath.Join path nm) entry) fw fw' →
            adds_only (directories (filepath.Join path nm) entry
                       ∪ all_below directories path rest) fw fw') as Hhere.
  { intros fw'. apply adds_only_mono. set_solver. }
  assert (∀ fw', adds_only (directories (filepath.Join path nm) entry
                            ∪ all_below directories path rest) fw'
                   (walk_entries walk path rest fw').1) as Hrest.
  { intros fw'. eapply adds_only_mono; [|apply IH]. set_solver. }
  destruct (walk (filepath.Join path nm) entry fw) as [fw' [[|e]|]]; simpl in Hentry.
  - destruct entry; [by apply Hhere| | |];
      (eapply adds_only_trans; [by apply Hhere | apply Hrest]).
  - by apply Hhere.
  - eapply adds_only_trans; [by apply Hhere | apply Hrest].
Qed.

Lemma walk_adds_only n : ∀ path fw, adds_only (directories path n) fw (walk path n fw).1.
Proof.
  induction n as [| e | e | entries IH] using node_induction; intros path fw.
  - apply (walkFn_adds_only fw path false None).
  - apply (walkFn_adds_only fw path true (Some e)).
  - apply adds_only_refl.
  - cbn [walk directories]. pose proof (walkFn_adds_only fw path true None) as Hfn.
    destruct (walkFn fw path true None) as [fw1 [e|]].
    + eapply adds_only_mono; [|exact Hfn]. set_solver.
    + eapply adds_only_trans.
      * eapply adds_only_mono; [|exact Hfn]. set_solver.
      * eapply adds_only_mono; [|by apply walk_entries_adds_only]. set_solver.
Qed.

(** X9. Whatever the file tree holds, and whether the walk succeeds or
    fails on the way, [addWatchRecursive] only adds to the watcher, and what
    it adds are directories of the tree under its root whose own name passes
    its test: no file, no directory whose name begins with a dot, and no
    [node_modules], [vendor], [dist] or [build], is ever registered. *)
Theorem addWatchRecursive_adds_directories (fs : filesystem) (root : string)
    (fw : fsWatcher) :
  adds_only (directories_from fs root) fw (addWatchRecursive fs root fw).1.
Proof.
  unfold addWatchRecursive, Walk, directories_from.
  destruct (fs !! root) as [n|]; [|apply adds_only_refl].
  pose proof (walk_adds_only n root fw) as H.
  by destruct (walk root n fw) as [fw' [[|e]|]].
Qed.

Lemma watchDir_not_empty c taskName : watchDir c taskName ≠ "".
Proof.
  unfold watchDir. by destruct (String.eqb_spec (Path (lookupTaskDef c taskName)) "").
Qed.

Lemma watched_roots_not_empty c global tasks :
  Forall (λ d, d ≠ "") (watched_roots c global tasks).
Proof.
  induction tasks as [|t rest IH]; simpl; [done|].
  destruct (shouldWatch c global t); [|done]. constructor; [apply watchDir_not_empty | done].
Qed.

Lemma setup_watchers_plain (fs : filesystem) c global tasks : ∀ fw,
  refused fw = ∅ →
  Forall (λ d, skipped (filepath.Base d) = false
               ∧ ∃ entries, fs !! d = Some (Dir entries) ∧ plain (Dir entries))
         (watched_roots c global tasks) →
  setup_watchers fs c global tasks fw
  = Ok (mkFsWatcher ∅ (spec_registered fs (watched_roots c global tasks) ∪ watched fw)).
Proof.
  induction tasks as [|t rest IH]; intros fw Hfw Hall; simpl.
  - rewrite union_empty_l_L. destruct fw; simpl in *. by subst.
  - simpl in Hall. destruct (shouldWatch c global t).
    + apply Forall_cons_1 in Hall as [(Hbase & entries & Hfs & Hplain) Hall].
      fold (watchDir c t).
      rewrite (addWatchRecursive_plain fs _ entries fw Hfs Hplain
                 (watchDir_not_empty c t) Hfw Hbase).
      rewrite IH; [|done|done]. simpl. rewrite Hfs. f_equal. f_equal. set_solver.
    + by apply IH.
Qed.

(** X10. When every watched task names a directory that exists, can be
    read throughout and has a base name that passes the test, [Start]
    succeeds and registers exactly the directories the specification lists:
    each such root and, below it, every directory reached through
    directories with admitted names, for all watched tasks together. *)
Theorem Start_registers_listed_directories (fs : filesystem) (w : Watcher) :
  refused (fsW w) = ∅ →
  Forall (λ d, skipped (filepath.Base d) = false
               ∧ ∃ entries, fs !! d = Some (Dir entries) ∧ plain (Dir entries))
         (watched_roots (cfg w) (globalWatch w) (tasks w)) →
  Start_watched fs w
  = Ok (spec_registered fs (watched_roots (cfg w) (globalWatch w) (tasks w))
        ∪ watched (fsW w)).
Proof.
  intros Hfw Hall. unfold Start_watched. by rewrite setup_watchers_plain.
Qed.

(** X11. A watched task whose directory does not exist makes [Start]
    fail before any task is started, with an error that names a watched
    task of the list. *)
Theorem Start_fails_on_missing_directory (fs : filesystem) (w : Watcher)
    (taskName : string) :
  taskName ∈ tasks w →
  shouldWatch (cfg w) (globalWatch w) taskName = true →
  fs !! watchDir (cfg w) taskName = None →
  ∃ failed cause,
    failed ∈ tasks w
    ∧ shouldWatch (cfg w) (globalWatch w) failed = true
    ∧ Start_watched fs w
      = Err ("failed to watch directory for task '" +:+ failed +:+ "': " +:+ cause).
Proof.
  unfold Start_watched. generalize (fsW w) as fw.
  induction (tasks w) as [|t rest IH]; intros fw Hin Hwatch Hmissing.
  - by apply elem_of_nil in Hin.
  - simpl. destruct (shouldWatch (cfg w) (globalWatch w) t) eqn:Ht.
    + fold (watchDir (cfg w) t).
      destruct (addWatchRecursive fs (watchDir (cfg w) t) fw) as [fw' [cause|]] eqn:Hadd.
      * exists t, cause. split; [apply list_elem_of_here | done].
      * apply elem_of_cons in Hin as [->|Hin].
        { unfold addWatchRecursive, Walk in Hadd. by rewrite Hmissing in Hadd. }
        destruct (IH fw' Hin Hwatch Hmissing) as (failed & cause & Hf & Hw & Heq).
        exists failed, cause. split; [by apply list_elem_of_further | done].
    + apply elem_of_cons in Hin as [->|Hin]; [congruence|].
      destruct (IH fw Hin Hwatch Hmissing) as (failed & cause & Hf & Hw & Heq).
      exists failed, cause. split; [by apply list_elem_of_further | done].
Qed.

End Watched.

Lemma Start_registers_listed_directories_witness :
  watcher.Start_watched samples.cwd samples.watch_backend
  = Ok (watching.spec_registered samples.cwd ["backend"] ∪ ∅).
Proof.
  apply (Start_registers_listed_directories samples.cwd samples.watch_backend).
  - reflexivity.
  - constructor; [|constructor]. split; [vm_compute; reflexivity|].
    eexists. split; [vm_compute; reflexivity|].
    simpl. unfold filepath.entry_name. repeat split; try discriminate; repeat constructor.
Defined.

Lemma Start_fails_on_missing_directory_witness :
  ∃ failed cause,
    failed ∈ ["app"]
    ∧ watcher.shouldWatch (watcher.cfg samples.watch_backend) false failed = true
    ∧ watcher.Start_watched ∅ samples.watch_backend
      = Err ("failed to watch directory for task '" +:+ failed +:+ "': " +:+ cause).
Proof.
  apply (Start_fails_on_missing_directory ∅ samples.watch_backend "app").
  - constructor.
  - vm_compute. reflexivity.
  - vm_compute. reflexivity.
Defined.

Section EventLoop.
Import config watcher watching.

Variables (c : Config) (global : bool).

Lemma try_send_idem len : try_send (try_send len) = try_send len.
Proof. unfold try_send, chan_cap. by destruct len as [|[|len]]. Qed.

Lemma try_send_cap len : (len ≤ chan_cap → try_send len ≤ chan_cap)%nat.
Proof. unfold try_send, chan_cap. destruct len as [|[|len]]; simpl; lia. Qed.

Lemma triggerRestarts_idem (m : gmap string nat) :
  triggerRestarts c global (triggerRestarts c global m) = triggerRestarts c global m.
Proof.
  apply map_eq. intros taskName. rewrite !triggerRestarts_lookup.
  destruct (m !! taskName) as [len|]; simpl; [|done].
  destruct (shouldWatch c global taskName); [|done]. by rewrite try_send_idem.
Qed.

Lemma triggerRestarts_iter n (m : gmap string nat) :
  Nat.iter (S n) (triggerRestarts c global) m = triggerRestarts c global m.
Proof.
  induction n as [|n IH]; [done|].
  change (triggerRestarts c global (Nat.iter (S n) (triggerRestarts c global) m)
          = triggerRestarts c global m).
  by rewrite IH, triggerRestarts_idem.
Qed.

(** X12. [triggerRestarts] leaves at most one restart pending per task:
    it makes no channel and drops none, never fills a channel past its
    capacity of one, leaves the channels of tasks that are not watched
    untouched, and running it again before the pulse is taken changes
    nothing. *)
Theorem triggerRestarts_one_pending (m : gmap string nat) :
  dom (triggerRestarts c global m) = dom m
  ∧ (map_Forall (λ _ len, (len ≤ chan_cap)%nat) m →
     map_Forall (λ _ len, (len ≤ chan_cap)%nat) (triggerRestarts c global m))
  ∧ (∀ taskName, shouldWatch c global taskName = false →
       triggerRestarts c global m !! taskName = m !! taskName)
  ∧ (∀ taskName, shouldWatch c global taskName = true → m !! taskName = Some 0 →
       triggerRestarts c global m !! taskName = Some 1)
  ∧ (∀ n, Nat.iter (S n) (triggerRestarts c global) m = triggerRestarts c global m).
Proof.
  split; [|split; [|split; [|split]]].
  - apply set_eq. intros taskName. rewrite !elem_of_dom, triggerRestarts_lookup.
    by rewrite fmap_is_Some.
  - intros Hcap taskName len. rewrite triggerRestarts_lookup.
    destruct (m !! taskName) as [len0|] eqn:Hm; simpl; [|done]. intros [= <-].
    specialize (Hcap taskName len0 Hm). simpl in Hcap.
    destruct (shouldWatch c global taskName); [by apply try_send_cap | done].
  - intros taskName Hw. rewrite triggerRestarts_lookup, Hw. by destruct (m !! taskName).
  - intros taskName Hw Hm. by rewrite triggerRestarts_lookup, Hw, Hm.
  - intros n. apply triggerRestarts_iter.
Qed.

Lemma elapse_elapse now now' s :
  (now ≤ now')%Z → elapse c global now' (elapse c global now s) = elapse c global now' s.
Proof.
  intros Hle. unfold elapse. destruct (debounceTimer s) as [due|] eqn:Hd.
  - destruct (Z.leb_spec due now) as [H1|H1].
    + simpl. destruct (Z.leb_spec due now'); [done | lia].
    + by rewrite Hd.
  - by rewrite Hd.
Qed.

Lemma receive_elapse now s ti :
  (now ≤ fst ti)%Z → receive c global (elapse c global now s) ti = receive c global s ti.
Proof. intros Hle. unfold receive. by rewrite elapse_elapse. Qed.

Lemma watchLoop_elapse inputs now until s :
  in_order now (map fst inputs ++ [until]) →
  watchLoop c global inputs until (elapse c global now s) = watchLoop c global inputs until s.
Proof.
  unfold watchLoop. destruct inputs as [|ti rest]; simpl.
  - intros [Hle _]. by apply elapse_elapse.
  - intros [Hle _]. by rewrite receive_elapse.
Qed.

Lemma receive_irrelevant s ti :
  relevant ti = false → receive c global s ti = elapse c global (fst ti) s.
Proof.
  unfold relevant, receive. destruct ti as [now [e | e | |]]; simpl; try done.
  - intros ->. by destruct (looping (elapse c global now s)).
  - intros _. by destruct (looping (elapse c global now s)).
Qed.

(** X13. Events that are neither Write nor Create (Remove, Rename,
    Chmod) and errors of the watcher have no effect on restarts: with the
    inputs in the order of their times, leaving them out changes neither
    what [triggerRestarts] delivers nor when. *)
Theorem watchLoop_ignores_noise (inputs : list (Z * input)) (t0 until : Z)
    (s : loop_state) :
  in_order t0 (map fst inputs ++ [until]) →
  watchLoop c global (List.filter relevant inputs) until s
  = watchLoop c global inputs until s.
Proof.
  revert t0 s. induction inputs as [|ti rest IH]; intros t0 s Hord; [done|].
  destruct Hord as [_ Hord]. cbn [List.filter].
  destruct (relevant ti) eqn:Hrel.
  - unfold watchLoop in *. simpl. by apply (IH (fst ti)).
  - rewrite (IH (fst ti) s Hord). symmetry.
    unfold watchLoop at 1. simpl. rewrite (receive_irrelevant s ti Hrel).
    by apply watchLoop_elapse.
Qed.

Lemma receive_returned s ti :
  looping s = false →
  receive c global s ti = elapse c global (fst ti) s
  ∧ looping (receive c global s ti) = false.
Proof.
  intros Hl. unfold receive.
  assert (looping (elapse c global (fst ti) s) = false) as Hl'.
  { unfold elapse. destruct (debounceTimer s) as [due|]; [|done].
    by destruct (Z.leb due (fst ti)). }
  by rewrite Hl'.
Qed.

Lemma watchLoop_returned inputs : ∀ t0 until s,
  looping s = false → in_order t0 (map fst inputs ++ [until]) →
  watchLoop c global inputs until s = elapse c global until s.
Proof.
  induction inputs as [|ti rest IH]; intros t0 until s Hl Hord; [done|].
  destruct Hord as [_ Hord].
  destruct (receive_returned s ti Hl) as [Hrec Hl'].
  unfold watchLoop. simpl. rewrite Hrec.
  change (watchLoop c global rest until (elapse c global (fst ti) s)
          = elapse c global until s).
  rewrite watchLoop_elapse by done. apply (IH (fst ti)); [done|done].
Qed.

(** X14. Once the context is cancelled, or the event channel is closed,
    [watchLoop] has returned and no later event arms the timer again: what
    arrives afterwards changes nothing. A timer armed before the return is
    not stopped, so at most one more [triggerRestarts] can still run. *)
Theorem watchLoop_after_return (before after : list (Z * input)) (t until : Z)
    (stop : input) (s : loop_state) :
  stop = CtxDone ∨ stop = EventsClosed →
  in_order t (map fst after ++ [until]) →
  watchLoop c global (before ++ (t, stop) :: after) until s
  = watchLoop c global (before ++ [(t, stop)]) until s
  ∧ looping (watchLoop c global (before ++ (t, stop) :: after) until s) = false
  ∧ (length (fired (watchLoop c global (before ++ (t, stop) :: after) until s))
     ≤ S (length (fired (fold_left (receive c global) (before ++ [(t, stop)]) s))))%nat.
Proof.
  intros Hstop Hord. unfold watchLoop.
  rewrite (fold_left_app _ before ((t, stop) :: after)).
  rewrite (fold_left_app _ before [(t, stop)]).
  set (s1 := fold_left (receive c global) before s).
  cbn [fold_left].
  set (s2 := receive c global s1 (t, stop)).
  assert (looping s2 = false) as Hl.
  { unfold s2, receive. simpl.
    destruct (looping (elapse c global t s1)) eqn:Hl1; [|done].
    by destruct Hstop as [-> | ->]. }
  pose proof (watchLoop_returned after t until s2 Hl Hord) as Hret.
  unfold watchLoop in Hret. rewrite Hret.
  split; [done|]. unfold elapse. destruct (debounceTimer s2) as [due|]; [|by split; [|lia]].
  destruct (Z.leb due until); simpl; [|by split; [|lia]].
  split; [done|]. rewrite length_app. simpl. lia.
Qed.

Lemma spaced_fold (rest : list (Z * Event)) : ∀ t until s,
  looping s = true → debounceTimer s = Some (t + debounceDuration)%Z →
  Forall (λ te, significant (snd te) = true) rest →
  spaced t (map fst rest) →
  (List.last (map fst rest) t + debounceDuration ≤ until)%Z →
  watchLoop c global (timed rest) until s
  = mkLoop true None
      (Nat.iter (S (length rest)) (triggerRestarts c global) (chans s))
      (fired s ++ map (λ t', (t' + debounceDuration)%Z) (t :: map fst rest))%list.
Proof.
  induction rest as [|[t' e] rest IH]; intros t until s Hl Hd Hsig Hsp Huntil.
  - unfold watchLoop. simpl in *. rewrite (elapse_due c global until s _ Hd Huntil).
    by rewrite Hl.
  - apply Forall_cons_1 in Hsig as [He Hsig]. destruct Hsp as [Ht' Hsp]. simpl in He, Ht'.
    unfold watchLoop. simpl. unfold receive at 2. simpl.
    rewrite (elapse_due c global t' s _ Hd ltac:(lia)). simpl. rewrite Hl, He.
    set (s' := mkLoop true (Some (t' + debounceDuration)%Z)
                 (triggerRestarts c global (chans s))
                 (fired s ++ [(t + debounceDuration)%Z])%list).
    assert (List.last (map fst rest) t' + debounceDuration ≤ until)%Z as Huntil'.
    { simpl in Huntil. destruct (map fst rest) as [|x l]; [done|].
      by rewrite (last_nonempty x l t' t). }
    pose proof (IH t' until s' eq_refl eq_refl Hsig Hsp Huntil') as Hrest.
    unfold watchLoop in Hrest. rewrite Hrest. simpl.
    rewrite <- app_assoc. simpl. f_equal.
    by rewrite <- !Nat.iter_succ_r.
Qed.

(** X15. Write or Create events more than 500 ms apart are not merged:
    each runs [triggerRestarts] once, 500 ms after it arrived, so the runs
    are as many as the events; when nobody takes the pulses in between,
    every watched task still has one pending restart only. *)
Theorem isolated_events_each_trigger (chans0 : gmap string nat) (t0 : Z) (e0 : Event)
    (rest : list (Z * Event)) (until : Z) :
  Forall (λ te, significant (snd te) = true) ((t0, e0) :: rest) →
  spaced t0 (map fst rest) →
  (List.last (map fst rest) t0 + debounceDuration ≤ until)%Z →
  let s := watchLoop c global (timed ((t0, e0) :: rest)) until (loop_start chans0) in
  fired s = map (λ te, (fst te + debounceDuration)%Z) ((t0, e0) :: rest)
  ∧ debounceTimer s = None
  ∧ chans s = triggerRestarts c global chans0.
Proof.
  intros Hsig Hsp Huntil s. apply Forall_cons_1 in Hsig as [He0 Hsig]. simpl in He0.
  assert (s = mkLoop true None
                (Nat.iter (S (length rest)) (triggerRestarts c global) chans0)
                (map (λ t', (t' + debounceDuration)%Z) (t0 :: map fst rest))) as ->.
  { unfold s, watchLoop. simpl. unfold receive at 2. simpl. rewrite He0.
    pose proof (spaced_fold rest t0 until
                  (mkLoop true (Some (t0 + debounceDuration)%Z) chans0 [])
                  eq_refl eq_refl Hsig Hsp Huntil) as H.
    unfold watchLoop in H. exact H. }
  simpl. split; [|split; [done|]].
  - f_equal. by rewrite map_map.
  - apply (triggerRestarts_iter (length rest)).
Qed.

End EventLoop.

Lemma watchLoop_ignores_noise_witness :
  watcher.watchLoop samples.watched_app false
    (List.filter watching.relevant examples.noisy_inputs) 2000
    (watcher.loop_start examples.empty_chans)
  = watcher.watchLoop samples.watched_app false examples.noisy_inputs 2000
      (watcher.loop_start examples.empty_chans).
Proof.
  apply (watchLoop_ignores_noise samples.watched_app false examples.noisy_inputs 0 2000).
  simpl. lia.
Defined.

Lemma watchLoop_after_return_witness :
  watcher.watchLoop samples.watched_app false
    ([(0%Z, watcher.FsEvent samples.write_event)] ++ (100%Z, watcher.CtxDone)
       :: [(200%Z, watcher.FsEvent samples.create_event)]) 2000
    (watcher.loop_start examples.empty_chans)
  = watcher.watchLoop samples.watched_app false
      ([(0%Z, watcher.FsEvent samples.write_event)] ++ [(100%Z, watcher.CtxDone)]) 2000
      (watcher.loop_start examples.empty_chans)
  ∧ watcher.looping
      (watcher.watchLoop samples.watched_app false
         ([(0%Z, watcher.FsEvent samples.write_event)] ++ (100%Z, watcher.CtxDone)
            :: [(200%Z, watcher.FsEvent samples.create_event)]) 2000
         (watcher.loop_start examples.empty_chans)) = false
  ∧ (length
       (watcher.fired
          (watcher.watchLoop samples.watched_app false
             ([(0%Z, watcher.FsEvent samples.write_event)] ++ (100%Z, watcher.CtxDone)
                :: [(200%Z, watcher.FsEvent samples.create_event)]) 2000
             (watcher.loop_start examples.empty_chans)))
     ≤ S (length
            (watcher.fired
               (fold_left (watcher.receive samples.watched_app false)
                  ([(0%Z, watcher.FsEvent samples.write_event)]
                   ++ [(100%Z, watcher.CtxDone)])
                  (watcher.loop_start examples.empty_chans)))))%nat.
Proof.
  apply (watchLoop_after_return samples.watched_app false
           [(0%Z, watcher.FsEvent samples.write_event)]
           [(200%Z, watcher.FsEvent samples.create_event)] 100 2000 watcher.CtxDone).
  - by left.
  - simpl. lia.
Defined.

Lemma isolated_events_each_trigger_witness :
  let s := watcher.watchLoop samples.watched_app false
             (watcher.timed ((0%Z, samples.write_event) :: examples.slow_writes)) 3000
             (watcher.loop_start examples.empty_chans) in
  watcher.fired s = [500%Z; 1500%Z; 2500%Z]
  ∧ watcher.debounceTimer s = None
  ∧ watcher.chans s
    = watcher.triggerRestarts samples.watched_app false examples.empty_chans.
Proof.
  apply (isolated_events_each_trigger samples.watched_app false examples.empty_chans
           0 samples.write_event examples.slow_writes 3000).
  - repeat constructor.
  - simpl. unfold watcher.debounceDuration. lia.
  - simpl. unfold watcher.debounceDuration. lia.
Defined.

Section Restarts.
Import config watcher restart.

Variables (c : Config) (global : bool).

Lemma reap_snoc earlier cur : reap (earlier ++ [cur]) = (earlier ++ [Reaped])%list.
Proof.
  unfold reap. rewrite length_app, Nat.add_1_r. simpl.
  rewrite insert_app_r_alt by done. by rewrite Nat.sub_diag.
Qed.

Lemma lookup_current earlier cur i (x : instance) :
  Forall (λ i, i = Reaped) earlier → (earlier ++ [cur])%list !! i = Some x → x ≠ Reaped →
  i = length earlier ∧ x = cur.
Proof.
  intros Hall Hi Hx. apply lookup_app_Some in Hi as [Hi | [Hge Hi]].
  - by rewrite (Forall_lookup_1 _ _ _ _ Hall Hi) in Hx.
  - destruct (i - length earlier) as [|k] eqn:Hk; simpl in Hi; [|done].
    injection Hi as <-. split; [lia | done].
Qed.

Lemma one_current_begun l :
  at_ l ≠ Created → one_current l →
  ∃ earlier cur,
    instances l = (earlier ++ [cur])%list
    ∧ Forall (λ i, i = Reaped) earlier
    ∧ (at_ l = Waiting → cur = Reaped)
    ∧ (at_ l = Selecting ∨ at_ l = Draining → cur ≠ Reaped).
Proof. unfold one_current. by destruct (at_ l). Qed.

Lemma begun_one_current l earlier cur :
  at_ l ≠ Created →
  instances l = (earlier ++ [cur])%list →
  Forall (λ i, i = Reaped) earlier →
  (at_ l = Waiting → cur = Reaped) →
  (at_ l = Selecting ∨ at_ l = Draining → cur ≠ Reaped) →
  one_current l.
Proof.
  intros Hat H1 H2 H3 H4. unfold one_current.
  destruct (at_ l) eqn:E; [done|..]; by exists earlier, cur.
Qed.

Lemma one_current_alive l : one_current l → (alive l ≤ 1)%nat.
Proof.
  unfold one_current, alive. intros H.
  destruct (at_ l) eqn:Hat.
  { rewrite H. simpl. lia. }
  all: destruct H as (earlier & cur & -> & Hearlier & _);
    rewrite List.filter_app, length_app;
    assert (List.filter is_Alive earlier = []) as ->
      by (clear -Hearlier; induction Hearlier as [|x l0 -> _ IH]; [done|]; simpl; exact IH);
    simpl; destruct (is_Alive cur); simpl; lia.
Qed.

Lemma loop_inv_trigger w p n l :
  loop_inv w p n l → loop_inv w (if w then try_send p else p) (S n) l.
Proof.
  intros (Hone & Hquiet & Hcount). split; [done|]. split.
  - intros ->. by apply Hquiet.
  - destruct w; [|lia]. unfold try_send. destruct (Nat.ltb p chan_cap); lia.
Qed.

(** A move of a goroutine keeps what it keeps true, and receives a pulse
    only where there is one. *)
Lemma loop_step_inv w done p n l ev l' took :
  loop_step w done p l ev = Some (l', took) → loop_inv w p n l →
  task l' = task l ∧ restartChan l' = restartChan l ∧ at_ l' ≠ Created
  ∧ loop_inv w (if took then pred p else p) n l'.
Proof.
  intros Hstep (Hone & Hquiet & Hcount). unfold runs in *.
  destruct ev as [| i | | |]; simpl in Hstep.
  - (* Begin *)
    destruct (at_ l) eqn:Hat; try done. injection Hstep as <- <-.
    unfold one_current in Hone. rewrite Hat in Hone.
    split; [done|]. split; [done|]. split; [done|].
    unfold loop_inv, runs. cbn [at_ instances]. rewrite Hone in Hcount |- *.
    split; [|split].
    + by apply (begun_one_current _ [] Alive).
    + intros Hw. destruct (Hquiet Hw) as (Hp & _). split; [done|]. split; [simpl; lia|].
      right. by left.
    + simpl. lia.
  - (* ChildExit *)
    destruct (instances l !! i) as [[| |]|] eqn:Hi; try done. injection Hstep as <- <-.
    assert (at_ l ≠ Created) as Hat.
    { intros Hat. unfold one_current in Hone. rewrite Hat in Hone. by rewrite Hone in Hi. }
    destruct (one_current_begun _ Hat Hone) as (earlier & cur & Hruns & Hearlier & Hwait & Hbusy).
    rewrite Hruns in Hi.
    destruct (lookup_current _ _ _ _ Hearlier Hi ltac:(done)) as [-> <-].
    assert (<[length earlier := Exited]> (instances l) = (earlier ++ [Exited])%list) as Hset.
    { rewrite Hruns, insert_app_r_alt by done. by rewrite Nat.sub_diag. }
    split; [done|]. split; [done|]. split; [done|].
    unfold loop_inv, runs. cbn [at_ instances]. split; [|split].
    + apply (begun_one_current _ earlier Exited); cbn [at_ instances]; try done.
      intros Hw. by specialize (Hwait Hw).
    + intros Hw. destruct (Hquiet Hw) as (Hp & Hlen & Hpl).
      rewrite length_insert. by split.
    + rewrite length_insert. lia.
  - (* TakeCtxDone *)
    destruct done; [|done].
    destruct (at_ l) eqn:Hat; try done; injection Hstep as <- <-.
    all: destruct (one_current_begun l ltac:(by rewrite Hat) Hone)
           as (earlier & cur & Hruns & Hearlier & Hwait & Hbusy).
    all: split; [done|]; split; [done|]; split; [done|].
    all: unfold loop_inv, runs; cbn [at_ instances]; split; [|split].
    all: try (apply (begun_one_current _ earlier cur); cbn [at_ instances]; try done;
              by intros [?|?]).
    all: try (intros Hw; destruct (Hquiet Hw) as (Hp & Hlen & _);
              split; [done|]; split; [done|]; by right; right).
    all: lia.
  - (* TakeRestart *)
    destruct p as [|len]; [done|].
    assert (w = true) as ->.
    { destruct w; [done|]. by destruct (Hquiet eq_refl) as (Hp & _). }
    destruct (at_ l) eqn:Hat; try done; injection Hstep as <- <-.
    all: destruct (one_current_begun l ltac:(by rewrite Hat) Hone)
           as (earlier & cur & Hruns & Hearlier & Hwait & Hbusy).
    all: split; [done|]; split; [done|]; split; [done|].
    all: unfold loop_inv, runs; cbn [at_ instances Nat.pred]; split; [|split]; try done.
    + apply (begun_one_current _ earlier cur); cbn [at_ instances]; try done.
      intros _. apply Hbusy. by left.
    + lia.
    + apply (begun_one_current _ (earlier ++ [cur])%list Alive); cbn [at_ instances];
        unfold launch; try done.
      * by rewrite Hruns.
      * apply Forall_app. split; [done|]. apply Forall_singleton. by apply Hwait.
    + unfold launch. rewrite length_app. simpl. lia.
  - (* TakeDone *)
    assert (at_ l ≠ Created) as Hat'.
    { intros Hat. unfold one_current in Hone. rewrite Hat in Hone. by rewrite Hone in Hstep. }
    destruct (one_current_begun _ Hat' Hone) as (earlier & cur & Hruns & Hearlier & Hwait & Hbusy).
    rewrite Hruns, last_snoc in Hstep. destruct cur; try done.
    rewrite reap_snoc in Hstep.
    destruct (at_ l) eqn:Hat; try done; injection Hstep as <- <-.
    all: split; [done|]; split; [done|].
    + split; [by destruct w|].
      unfold loop_inv, runs. cbn [at_ instances]. split; [|split].
      * apply (begun_one_current _ earlier Reaped); cbn [at_ instances]; try done.
        -- by destruct w.
        -- intros [H|H]; by destruct w.
      * intros ->. destruct (Hquiet eq_refl) as (Hp & Hlen & _).
        rewrite Hruns in Hlen. rewrite !length_app in *.
        split; [done|]. split; [done|]. by right; right.
      * rewrite Hruns in Hcount. rewrite !length_app in *. simpl in *.
        destruct w; lia.
    + split; [done|].
      unfold loop_inv, runs. cbn [at_ instances]. split; [|split].
      * apply (begun_one_current _ (earlier ++ [Reaped])%list Alive); cbn [at_ instances];
          unfold launch; try done.
        apply Forall_app. split; [done|]. by apply Forall_singleton.
      * intros Hw. destruct (Hquiet Hw) as (_ & _ & [?|[?|?]]); congruence.
      * unfold launch. rewrite Hruns in Hcount.
        rewrite !length_app in *. simpl in *. lia.
Qed.

Lemma loop_step_took w done p l ev l' :
  loop_step w done p l ev = Some (l', true) → p ≠ 0.
Proof.
  destruct ev; simpl; repeat case_match; try done.
Qed.

Lemma started_names tasks n s :
  NoDup tasks → start_inv c global tasks n s → NoDup (task <$> loops s).
Proof.
  intros Hnd (Hnames & _). rewrite <- Hnames in Hnd.
  by apply NoDup_app in Hnd as (H & _).
Qed.

(** A goroutine that holds the channel of the map moves: what [Start]
    keeps true goes on, where the names are distinct. *)
Lemma moved_start_inv tasks n s k l l' chans' replaced' p' :
  NoDup tasks → start_inv c global tasks n s →
  loops s !! k = Some l →
  task l' = task l → restartChan l' = Current →
  (∀ taskName, taskName ≠ task l → chans' !! taskName = restartChans s !! taskName) →
  chans' !! task l = Some p' →
  loop_inv (shouldWatch c global (task l)) p' n l' →
  start_inv c global tasks n
    (mkStart (todo s) (<[k := l']> (loops s)) chans' replaced' (ctx_done s)).
Proof.
  intros Hnd Hinv Hk Htask Hheld Hother Hown Hl'.
  pose proof (started_names _ _ _ Hnd Hinv) as Hnames'.
  destruct Hinv as (Hnames & Hcur & Hdom & Hloops).
  assert (task <$> <[k := l']> (loops s) = task <$> loops s) as Hsame.
  { rewrite list_fmap_insert, Htask. apply list_insert_id.
    by rewrite list_lookup_fmap, Hk. }
  unfold start_inv. cbn [todo loops restartChans]. rewrite Hsame.
  split; [done|]. split; [by apply Forall_insert|]. split.
  - intros taskName. destruct (decide (taskName = task l)) as [->|Hne].
    + rewrite Hown. split; [|by eauto]. intros _.
      apply list_elem_of_lookup_2 with k. by rewrite list_lookup_fmap, Hk.
    + rewrite (Hother _ Hne). apply Hdom.
  - apply Forall_lookup. intros j lj Hj.
    apply list_lookup_insert_Some in Hj as [(<- & <- & _) | (Hne & Hj)].
    + unfold pending. cbn [restartChans]. by rewrite Htask, Hown.
    + assert (task lj ≠ task l) as Hdiff.
      { intros Heq. apply Hne.
        apply (NoDup_lookup _ k j (task l) Hnames').
        - by rewrite list_lookup_fmap, Hk.
        - by rewrite list_lookup_fmap, Hj, <- Heq. }
      unfold pending. cbn [restartChans]. rewrite (Hother _ Hdiff).
      apply (Forall_lookup_1 _ _ _ _ Hloops Hj).
Qed.

Lemma step_start_inv tasks n s ev s' :
  NoDup tasks → step c global s ev = Some s' → start_inv c global tasks n s →
  start_inv c global tasks (n + (if is_Trigger ev then 1 else 0)) s'.
Proof.
  intros Hnd Hstep Hinv.
  destruct ev as [| | | k ev]; cbn [is_Trigger]; simpl in Hstep;
    rewrite ?Nat.add_0_r.
  - (* Spawn *)
    destruct Hinv as (Hnames & Hcur & Hdom & Hloops).
    destruct (todo s) as [|taskName rest] eqn:Htodo; [done|].
    assert (taskName ∉ task <$> loops s) as Hfresh.
    { rewrite <- Hnames in Hnd. apply NoDup_app in Hnd as (_ & Hnd & _).
      intros Hin. apply (Hnd _ Hin). by left. }
    destruct (restartChans s !! taskName) as [len|] eqn:Hchan.
    { exfalso. apply Hfresh, Hdom. by rewrite Hchan. }
    injection Hstep as <-. unfold start_inv. cbn [todo loops restartChans].
    rewrite fmap_app. cbn [fmap list_fmap task]. split; [|split; [|split]].
    + by rewrite <- app_assoc.
    + apply Forall_app. split; [done|]. by apply Forall_singleton.
    + intros t. rewrite lookup_insert_is_Some, elem_of_app, Hdom.
      rewrite list_elem_of_singleton. split.
      * intros [->|[_ H]]; [by right | by left].
      * intros [H| ->]; [|by left]. right. split; [|done]. by intros ->.
    + apply Forall_app. split.
      * apply Forall_forall. intros l Hl.
        assert (task l ≠ taskName) as Hne.
        { intros <-. apply Hfresh. by apply list_elem_of_fmap_2. }
        unfold pending. cbn [restartChans]. rewrite lookup_insert_ne by done.
        by apply (proj1 (Forall_forall _ _) Hloops).
      * apply Forall_singleton. unfold pending. cbn [restartChans task].
        rewrite lookup_insert_eq. simpl.
        split; [done|]. split; [|unfold runs; simpl; lia].
        intros _. split; [done|]. split; [unfold runs; simpl; lia|]. by left.
  - (* Trigger *)
    destruct Hinv as (Hnames & Hcur & Hdom & Hloops).
    injection Hstep as <-. unfold start_inv. cbn [todo loops restartChans].
    split; [done|]. split; [done|]. split.
    + intros t. rewrite triggerRestarts_lookup, <- Hdom. by rewrite fmap_is_Some.
    + eapply Forall_impl; [exact Hloops|]. intros l Hl. simpl in Hl.
      unfold pending in *. cbn [restartChans]. rewrite triggerRestarts_lookup.
      replace (n + 1)%nat with (S n) by lia.
      destruct (restartChans s !! task l) as [len|]; simpl in *.
      * by apply loop_inv_trigger.
      * destruct Hl as (Hone & Hquiet & Hcount). split; [done|]. split; [done|]. lia.
  - (* CtxCancel *)
    injection Hstep as <-. exact Hinv.
  - (* a goroutine moves *)
    destruct (loops s !! k) as [l|] eqn:Hk; [|done].
    pose proof Hinv as (Hnames & Hcur & Hdom & Hloops).
    pose proof (Forall_lookup_1 _ _ _ _ Hcur Hk) as Hheld. simpl in Hheld.
    pose proof (Forall_lookup_1 _ _ _ _ Hloops Hk) as Hl. simpl in Hl.
    assert (pulses s l = pending (task l) s) as Hp
      by (unfold pulses, pending; by rewrite Hheld).
    assert (is_Some (restartChans s !! task l)) as [p0 Hp0].
    { apply Hdom. apply list_elem_of_lookup_2 with k. by rewrite list_lookup_fmap, Hk. }
    assert (pending (task l) s = p0) as Hp0' by (unfold pending; by rewrite Hp0).
    rewrite Hp, Hp0' in Hstep. rewrite Hp0' in Hl.
    destruct (loop_step (shouldWatch c global (task l)) (ctx_done s) p0 l ev)
      as [[l' took]|] eqn:Hmove; [|done].
    destruct (loop_step_inv _ _ _ _ _ _ _ _ Hmove Hl) as (Htask & Hsame & _ & Hl').
    destruct took; injection Hstep as <-.
    + unfold received. rewrite Hheld. cbn [fst snd].
      apply (moved_start_inv tasks n s k l l' _ _ (pred p0)); try done.
      * congruence.
      * intros t Hne. by rewrite lookup_insert_ne.
      * by rewrite Hp, Hp0', lookup_insert_eq.
    + apply (moved_start_inv tasks n s k l l' _ _ p0); try done.
      congruence.
Qed.

Lemma exec_start_inv tasks sched : ∀ n s s',
  NoDup tasks → exec c global sched s = Some s' → start_inv c global tasks n s →
  start_inv c global tasks (n + length (List.filter is_Trigger sched)) s'.
Proof.
  induction sched as [|ev rest IH]; intros n s s' Hnd; simpl.
  - intros [= <-] H. by rewrite Nat.add_0_r.
  - destruct (step c global s ev) as [s1|] eqn:Hstep; [|done]. intros Hexec Hinv.
    pose proof (IH _ _ _ Hnd Hexec (step_start_inv _ _ _ _ _ Hnd Hstep Hinv)) as H.
    destruct (is_Trigger ev); simpl in *.
    + replace (n + S (length (List.filter is_Trigger rest)))%nat
        with (n + 1 + length (List.filter is_Trigger rest))%nat by lia. exact H.
    + by rewrite Nat.add_0_r in H.
Qed.

Lemma starting_inv tasks cancelled :
  start_inv c global tasks 0 (starting tasks cancelled).
Proof.
  unfold start_inv, starting. cbn [todo loops restartChans].
  split; [done|]. split; [done|]. split; [|done].
  intros t. rewrite lookup_empty. split; [by intros [? ?]|]. by intros ?%elem_of_nil.
Qed.

(** Where the names are distinct, a count over the goroutines of a task is
    that of its one goroutine, or zero where [Start] has not come to it. *)
Lemma of_task_unique (count : task_loop → nat) taskName ls :
  NoDup (task <$> ls) →
  (taskName ∉ task <$> ls ∧ of_task count taskName ls = 0)
  ∨ (∃ l, l ∈ ls ∧ task l = taskName ∧ of_task count taskName ls = count l).
Proof.
  unfold of_task. induction ls as [|a ls IH]; intros Hnd.
  - left. split; [|done]. by intros ?%elem_of_nil.
  - rewrite fmap_cons in Hnd. apply NoDup_cons in Hnd as (Ha & Hnd).
    cbn [sum_list_with]. destruct (String.eqb (task a) taskName) eqn:Heq.
    + apply String.eqb_eq in Heq. right. exists a. split; [by left|]. split; [done|].
      destruct (IH Hnd) as [(_ & ->) | (l & Hl & Htask & _)]; [lia|].
      exfalso. apply Ha. rewrite Heq, <- Htask. by apply list_elem_of_fmap_2.
    + apply String.eqb_neq in Heq.
      destruct (IH Hnd) as [(Hout & ->) | (l & Hl & Htask & ->)].
      * left. split; [|done]. rewrite fmap_cons. intros [?|?]%elem_of_cons; [|done].
        by apply Heq.
      * right. exists l. split; [by right|]. by split.
Qed.

Lemma places_Forall (P : place → Prop) taskName s :
  (∀ l, l ∈ loops s → task l = taskName → P (at_ l)) → Forall P (places taskName s).
Proof.
  intros H. unfold places. apply Forall_fmap, Forall_forall. intros l Hl.
  apply list_elem_of_In, List.filter_In in Hl as (Hl & Heq).
  apply String.eqb_eq in Heq. apply list_elem_of_In in Hl. simpl. by apply H.
Qed.

(** X16. Where no task is named twice, the watcher never runs two
    instances of a task at once: under every interleaving of [Start]'s loop,
    file changes, cancellation, exits of the children and the steps of the
    goroutines of [runTaskWithRestart], every run a goroutine has started
    before its current one has finished and has been waited for, and at most
    one run of the task is alive. *)
Theorem one_instance_at_a_time (tasks : list string) (cancelled : bool)
    (sched : list event) (s : start_state) (taskName : string) :
  NoDup tasks →
  exec c global sched (starting tasks cancelled) = Some s →
  Forall one_current (loops s) ∧ (of_task alive taskName (loops s) ≤ 1)%nat.
Proof.
  intros Hnd Hexec.
  pose proof (exec_start_inv _ _ _ _ _ Hnd Hexec (starting_inv tasks cancelled)) as Hinv.
  pose proof (started_names _ _ _ Hnd Hinv) as Hnames.
  destruct Hinv as (_ & _ & _ & Hloops).
  assert (Forall one_current (loops s)) as Hone.
  { eapply Forall_impl; [exact Hloops|]. by intros l (H & _). }
  split; [done|].
  destruct (of_task_unique alive taskName _ Hnames) as [(_ & ->) | (l & Hl & _ & ->)];
    [lia|].
  apply one_current_alive. by apply (proj1 (Forall_forall _ _) Hone).
Qed.

(** [prun -w app app]: with a task named twice [Start] starts two
    goroutines for it, the second assignment to the map leaves the first
    goroutine with a channel that [triggerRestarts] no longer reaches, and
    two runs of the task are alive at once. *)
Example duplicate_runs_twice :
  exec samples.watched_app false scenarios.app_twice (starting ["app"; "app"] false)
  = Some scenarios.app_running_twice
  ∧ of_task alive "app" (loops scenarios.app_running_twice) = 2.
Proof. split; vm_compute; reflexivity. Qed.

(** X17. Where no task is named twice, a task that is not watched runs at
    most once under the watcher, and exactly once where its goroutine has
    begun: file changes never put a pulse in its restart channel, so its
    goroutine starts no second run, never waits for a restart, and is not
    yet running, in its first select, or has returned. *)
Theorem unwatched_task_runs_once (tasks : list string) (cancelled : bool)
    (sched : list event) (s : start_state) (taskName : string) :
  NoDup tasks →
  shouldWatch c global taskName = false →
  exec c global sched (starting tasks cancelled) = Some s →
  (of_task runs taskName (loops s) ≤ 1)%nat
  ∧ pending taskName s = 0
  ∧ Forall runs_no_select (places taskName s)
  ∧ (∀ l, l ∈ loops s → task l = taskName → at_ l ≠ Created → runs l = 1).
Proof.
  intros Hnd Hw Hexec.
  pose proof (exec_start_inv _ _ _ _ _ Hnd Hexec (starting_inv tasks cancelled)) as Hinv.
  pose proof (started_names _ _ _ Hnd Hinv) as Hnames.
  destruct Hinv as (_ & _ & Hdom & Hloops).
  assert (∀ l, l ∈ loops s → task l = taskName →
               one_current l ∧ pending taskName s = 0 ∧ (runs l ≤ 1)%nat
               ∧ runs_no_select (at_ l)) as Hmine.
  { intros l Hl Htask. pose proof (proj1 (Forall_forall _ _) Hloops l Hl) as H.
    simpl in H. rewrite Htask in H. destruct H as (Hone & Hquiet & _).
    by destruct (Hquiet Hw) as (? & ? & ?). }
  split; [|split; [|split]].
  - destruct (of_task_unique runs taskName _ Hnames) as [(_ & ->) | (l & Hl & Htask & ->)];
      [lia|]. by destruct (Hmine l Hl Htask) as (_ & _ & ? & _).
  - destruct (of_task_unique runs taskName _ Hnames) as [(Hout & _) | (l & Hl & Htask & _)].
    + unfold pending. destruct (restartChans s !! taskName) eqn:Hchan; [|done].
      exfalso. apply Hout, Hdom. by rewrite Hchan.
    + by destruct (Hmine l Hl Htask) as (_ & ? & _).
  - apply places_Forall. intros l Hl Htask.
    by destruct (Hmine l Hl Htask) as (_ & _ & _ & ?).
  - intros l Hl Htask Hat. destruct (Hmine l Hl Htask) as (Hone & _ & Hle & _).
    destruct (one_current_begun _ Hat Hone) as (earlier & cur & Hruns & _).
    unfold runs in *. rewrite Hruns in *. rewrite length_app in *. simpl in *. lia.
Qed.

(** X18. Where no task is named twice, every restart takes a pulse that
    [triggerRestarts] has sent: the runs of a task and the pulses still in
    its channel are together at most one more than the times
    [triggerRestarts] has run, whatever the interleaving. *)
Theorem restarts_bounded_by_triggers (tasks : list string) (cancelled : bool)
    (sched : list event) (s : start_state) (taskName : string) :
  NoDup tasks →
  exec c global sched (starting tasks cancelled) = Some s →
  (of_task runs taskName (loops s) + pending taskName s
   ≤ 1 + length (List.filter is_Trigger sched))%nat.
Proof.
  intros Hnd Hexec.
  pose proof (exec_start_inv _ _ _ _ _ Hnd Hexec (starting_inv tasks cancelled)) as Hinv.
  pose proof (started_names _ _ _ Hnd Hinv) as Hnames.
  destruct Hinv as (_ & _ & Hdom & Hloops). simpl in Hloops.
  destruct (of_task_unique runs taskName _ Hnames) as [(Hout & ->) | (l & Hl & Htask & ->)].
  - unfold pending. destruct (restartChans s !! taskName) eqn:Hchan; [|simpl; lia].
    exfalso. apply Hout, Hdom. by rewrite Hchan.
  - pose proof (proj1 (Forall_forall _ _) Hloops l Hl) as H. simpl in H.
    rewrite Htask in H. destruct H as (_ & _ & Hcount). lia.
Qed.

End Restarts.

Lemma one_instance_at_a_time_witness :
  Forall restart.one_current (restart.loops scenarios.app_after_restart)
  ∧ (restart.of_task restart.alive "app" (restart.loops scenarios.app_after_restart)
     ≤ 1)%nat.
Proof.
  apply (one_instance_at_a_time samples.watched_app false ["app"; "db"] false
           scenarios.app_restarted scenarios.app_after_restart "app").
  - apply (bool_decide_unpack _). vm_compute. exact I.
  - vm_compute. reflexivity.
Defined.

Lemma unwatched_task_runs_once_witness :
  (restart.of_task restart.runs "db" (restart.loops scenarios.app_after_restart) ≤ 1)%nat
  ∧ restart.pending "db" scenarios.app_after_restart = 0
  ∧ Forall restart.runs_no_select (restart.places "db" scenarios.app_after_restart)
  ∧ (∀ l, l ∈ restart.loops scenarios.app_after_restart → restart.task l = "db" →
          restart.at_ l ≠ restart.Created → restart.runs l = 1).
Proof.
  apply (unwatched_task_runs_once samples.watched_app false ["app"; "db"] false
           scenarios.app_restarted scenarios.app_after_restart "db").
  - apply (bool_decide_unpack _). vm_compute. exact I.
  - vm_compute. reflexivity.
  - vm_compute. reflexivity.
Defined.

Lemma restarts_bounded_by_triggers_witness :
  (restart.of_task restart.runs "app" (restart.loops scenarios.app_after_restart)
   + restart.pending "app" scenarios.app_after_restart
   ≤ 1 + length (List.filter restart.is_Trigger scenarios.app_restarted))%nat.
Proof.
  apply (restarts_bounded_by_triggers samples.watched_app false ["app"; "db"] false
           scenarios.app_restarted scenarios.app_after_restart "app").
  - apply (bool_decide_unpack _). vm_compute. exact I.
  - vm_compute. reflexivity.
Defined.

Section Dashboard.
Import ui.

Lemma run_snoc msgs msg m : run (msgs ++ [msg]) m = fst (Update (run msgs m) msg).
Proof. unfold run. by rewrite fold_left_app. Qed.

Lemma formatted_snoc msgs msg :
  formatted (msgs ++ [msg])
  = (formatted msgs ++ match msg with
                       | logMsg ev => ["[" +:+ Task ev +:+ "] " +:+ Line ev]
                       | _ => []
                       end)%list.
Proof. unfold formatted. rewrite flat_map_app. simpl. by rewrite app_nil_r. Qed.

(** What [Update] does to the task list, the log and the statuses. *)
Lemma Update_fields m msg :
  tasks (fst (Update m msg)) = tasks m
  ∧ match msg with
    | logMsg ev =>
        logs (fst (Update m msg))
        = (let logs1 := (logs m ++ ["[" +:+ Task ev +:+ "] " +:+ Line ev])%list in
           if (500 <? len logs1)%Z then drop (Z.to_nat (len logs1 - 500)) logs1 else logs1)
        ∧ statuses (fst (Update m msg)) = <[Task ev := "running"]> (statuses m)
    | _ =>
        logs (fst (Update m msg)) = logs m
        ∧ statuses (fst (Update m msg)) = statuses m
    end.
Proof.
  destruct msg as [ev | key | | w h |]; simpl; try done.
  repeat case_match; done.
Qed.

Lemma keep_last (all : list string) (x : string) :
  (let logs1 := (drop (length all - 500) all ++ [x])%list in
   if (500 <? len logs1)%Z then drop (Z.to_nat (len logs1 - 500)) logs1 else logs1)
  = drop (length (all ++ [x]) - 500) (all ++ [x])%list.
Proof.
  cbv zeta. unfold len. rewrite !length_app, length_drop. simpl.
  destruct (Z.ltb_spec 500 (Z.of_nat (length all - (length all - 500) + 1))) as [H|H].
  - replace (Z.to_nat (Z.of_nat (length all - (length all - 500) + 1) - 500)) with 1 by lia.
    rewrite drop_app_le by (rewrite length_drop; lia).
    rewrite drop_drop.
    replace (length all + 1 - 500) with (length all - 500 + 1) by lia.
    by rewrite drop_app_le by lia.
  - replace (length all - 500) with 0 by lia.
    replace (length all + 1 - 500) with 0 by lia. done.
Qed.

(** X19. The dashboard keeps exactly the most recent 500 log lines:
    after any sequence of messages its log is the last 500 of the lines
    formatted for the log events received so far, in their order (all of
    them while they are fewer). *)
Theorem logs_keep_last_500 (tasks0 : list string) (msgs : list Msg) :
  logs (run msgs (NewModel tasks0))
  = drop (length (formatted msgs) - 500) (formatted msgs)
  ∧ (length (logs (run msgs (NewModel tasks0))) ≤ 500)%nat.
Proof.
  assert (logs (run msgs (NewModel tasks0))
          = drop (length (formatted msgs) - 500) (formatted msgs)) as H.
  { induction msgs as [|msg msgs IH] using rev_ind; [done|].
    rewrite run_snoc, formatted_snoc.
    destruct (Update_fields (run msgs (NewModel tasks0)) msg) as [_ Hmsg].
    destruct msg as [ev | key | | w h |]; destruct Hmsg as [-> _];
      rewrite ?app_nil_r; try exact IH.
    rewrite IH. apply keep_last. }
  split; [done|]. rewrite H, length_drop. lia.
Qed.

Ltac key_cases :=
  repeat match goal with
         | |- context [if is_key ?k ?l then _ else _] => destruct (is_key k l)
         | |- context [if (?a <? ?b)%Z then _ else _] => destruct (Z.ltb_spec a b)
         end.

Lemma Update_well_formed tasks0 m msg :
  dashboard.well_formed tasks0 m → dashboard.well_formed tasks0 (fst (Update m msg)).
Proof.
  intros (Htasks & Hsel0 & Hsel & Hst). unfold dashboard.well_formed.
  destruct msg as [ev | key | | w h |]; cbn [Update].
  - simpl. split; [done|]. split; [done|]. split; [exact Hsel|].
    apply map_Forall_insert_2; [by right | exact Hst].
  - unfold len in *. key_cases; simpl; (split; [done|]); (split; [lia|]);
      (split; [|exact Hst]); rewrite <- ?Htasks in *; lia.
  - simpl. split; [done|]. split; [done|]. split; [exact Hsel|exact Hst].
  - simpl. split; [done|]. split; [done|]. split; [exact Hsel|exact Hst].
  - simpl. split; [done|]. split; [done|]. split; [exact Hsel|exact Hst].
Qed.

Lemma NewModel_well_formed tasks0 : dashboard.well_formed tasks0 (NewModel tasks0).
Proof.
  split; [done|]. split; [done|]. split; [by left|]. simpl.
  assert (∀ st : gmap string string,
            map_Forall (λ _ status, status = "idle" ∨ status = "running") st →
            map_Forall (λ _ status, status = "idle" ∨ status = "running")
                       (fold_left (λ st t, <[t:="idle"]> st) tasks0 st)) as H.
  { induction tasks0 as [|t rest IH]; intros st Hst; simpl; [done|].
    apply IH. apply map_Forall_insert_2; [by left | exact Hst]. }
  apply H. apply map_Forall_empty.
Qed.

Lemma run_well_formed tasks0 msgs :
  dashboard.well_formed tasks0 (run msgs (NewModel tasks0)).
Proof.
  induction msgs as [|msg msgs IH] using rev_ind; [apply NewModel_well_formed|].
  rewrite run_snoc. by apply Update_well_formed.
Qed.

(** X20. No message ever sets a status to "done" or "failed": after any
    sequence of messages every status is "idle" or "running", so the task
    list only ever shows the blank icon or the triangle, never the check
    mark or the cross. *)
Theorem statuses_idle_or_running (tasks0 : list string) (msgs : list Msg) :
  map_Forall (λ _ status, status = "idle" ∨ status = "running")
             (statuses (run msgs (NewModel tasks0)))
  ∧ Forall dashboard.idle_or_running (leftLines (run msgs (NewModel tasks0))).
Proof.
  destruct (run_well_formed tasks0 msgs) as (_ & _ & _ & Hst). split; [done|].
  unfold leftLines. constructor; [done|]. constructor; [done|].
  apply Forall_forall. intros l Hl.
  apply elem_of_lookup_imap_1 in Hl as (i & t & -> & _). simpl.
  destruct (statuses (run msgs (NewModel tasks0)) !! t) as [status|] eqn:Hs; simpl.
  - destruct (Hst t status Hs) as [-> | ->]; [by left | by right].
  - by left.
Qed.

Lemma slice_Some {A} (l : list A) lo hi :
  (0 ≤ lo ≤ hi)%Z → (hi ≤ len l)%Z →
  slice l lo hi = Some (take (Z.to_nat (hi - lo)) (drop (Z.to_nat lo) l)).
Proof.
  intros [H1 H2] H3. unfold slice.
  destruct (Z.leb_spec 0 lo); [|lia]. destruct (Z.leb_spec lo hi); [|lia].
  by destruct (Z.leb_spec hi (len l)); [|lia].
Qed.

Lemma task_window_bounds n avail sel :
  (3 ≤ avail)%Z → (avail + 2 < n)%Z → (0 ≤ sel)%Z → (sel + 2 < n)%Z →
  let '(startIdx, endIdx) := task_window n avail sel in
  (2 ≤ startIdx ≤ sel + 2)%Z ∧ (sel + 2 < endIdx ≤ n)%Z
  ∧ (endIdx - startIdx = avail)%Z.
Proof.
  intros Havail Hn Hsel0 Hsel. unfold task_window.
  rewrite (Z.quot_div_nonneg avail 2) by lia.
  assert (0 ≤ avail / 2 < avail)%Z as Hhalf.
  { split; [apply Z.div_pos; lia | apply Z.div_lt; lia]. }
  revert Hhalf. generalize (avail / 2)%Z as half. intros half Hhalf.
  destruct (Z.ltb_spec (sel + 2 - half) 2);
    [destruct (Z.ltb_spec n (2 + avail)) | destruct (Z.ltb_spec n (sel + 2 - half + avail))];
    try destruct (Z.ltb_spec (n - avail) 2); lia.
Qed.

Lemma log_window_bounds n maxLogLines auto off :
  (0 ≤ n)%Z → (0 < maxLogLines)%Z →
  let '(start, end_) := log_window n maxLogLines auto off in
  (0 ≤ start ≤ end_)%Z ∧ (end_ ≤ n)%Z
  ∧ (end_ - start = Z.min n maxLogLines)%Z
  ∧ (auto = true → end_ = n).
Proof.
  intros Hn Hmax. unfold log_window.
  destruct (Z.ltb_spec maxLogLines n); [destruct auto|].
  - destruct (Z.ltb_spec n (n - maxLogLines + maxLogLines)); lia.
  - destruct (Z.ltb_spec (n - maxLogLines) off).
    + destruct (Z.ltb_spec (n - maxLogLines) 0); [lia|].
      destruct (Z.ltb_spec n (n - maxLogLines + maxLogLines)); lia.
    + destruct (Z.ltb_spec off 0).
      * destruct (Z.ltb_spec n (0 + maxLogLines)); lia.
      * destruct (Z.ltb_spec n (off + maxLogLines)); lia.
  - destruct (Z.ltb_spec n (0 + maxLogLines)); split; try lia.
    all: split; [lia|]; split; [lia|]; intros _; lia.
Qed.

Lemma availableTaskHeight_min h : (3 ≤ availableTaskHeight h)%Z.
Proof. unfold availableTaskHeight. destruct (Z.ltb_spec (h - 8) 3); lia. Qed.

Lemma availableHeight_min h : (5 ≤ availableHeight h)%Z.
Proof. unfold availableHeight. destruct (Z.ltb_spec (h - 8) 5); lia. Qed.

Lemma maxLineWidth_min w : (10 ≤ maxLineWidth w)%Z.
Proof. unfold maxLineWidth. destruct (Z.ltb_spec (rightWidth w - 6) 10); lia. Qed.

Lemma len_leftLines m : len (leftLines m) = (len (tasks m) + 2)%Z.
Proof. unfold leftLines, len. simpl. rewrite length_imap. lia. Qed.

Lemma index_Some {A} (l : list A) i :
  (0 ≤ i < len l)%Z → ∃ x, index l i = Some x ∧ l !! Z.to_nat i = Some x.
Proof.
  intros [H0 H1]. unfold index.
  destruct (Z.leb_spec 0 i); [|lia]. destruct (Z.ltb_spec i (len l)); [|lia]. simpl.
  destruct (lookup_lt_is_Some_2 l (Z.to_nat i)) as [x Hx]; [unfold len in *; lia|].
  by exists x.
Qed.

Lemma selected_in_range tasks0 m :
  tasks0 ≠ [] → dashboard.well_formed tasks0 m → (0 ≤ selected m < len (tasks m))%Z.
Proof.
  intros Hne (-> & H0 & Hsel & _). split; [done|].
  destruct Hsel as [-> | H]; [|done]. unfold len. destruct tasks0; [done|]. simpl. lia.
Qed.

Lemma displayedLeftLines_Some tasks0 m :
  tasks0 ≠ [] → dashboard.well_formed tasks0 m → is_Some (displayedLeftLines m).
Proof.
  intros Hne Hwf. pose proof (selected_in_range _ _ Hne Hwf) as Hsel.
  unfold displayedLeftLines.
  destruct (Z.ltb_spec (availableTaskHeight (height m) + 2) (len (leftLines m))) as [H|H];
    [|done].
  pose proof (task_window_bounds (len (leftLines m)) (availableTaskHeight (height m))
                (selected m) (availableTaskHeight_min _) H ltac:(lia)
                ltac:(rewrite len_leftLines; lia)) as Hw.
  destruct (task_window _ _ _) as [a b]. destruct Hw as (Ha & Hb & _).
  by rewrite slice_Some by lia.
Qed.

Lemma rightPane_Some m selectedTask : is_Some (rightPane m selectedTask).
Proof.
  unfold rightPane. destruct (len (logs m) =? 0)%Z; [done|].
  destruct (len (filteredLogs (logs m) selectedTask) =? 0)%Z; [done|].
  pose proof (log_window_bounds (len (wrappedLogs m selectedTask))
                (availableHeight (height m)) (autoScroll m) (logOffset m)
                ltac:(unfold len; lia)
                ltac:(pose proof (availableHeight_min (height m)); lia)) as Hw.
  destruct (log_window _ _ _ _) as [a b]. destruct Hw as (Ha & Hb & _).
  by rewrite slice_Some by lia.
Qed.

(** X21. [View] never panics on a dashboard started with at least one
    task: after any sequence of messages (keys, resizes to any size, log
    events) the selected index is within the task list and both slices it
    takes are within bounds, so it returns a screen. *)
Theorem View_never_panics (tasks0 : list string) (msgs : list Msg) :
  tasks0 ≠ [] → is_Some (View (run msgs (NewModel tasks0))).
Proof.
  intros Hne. pose proof (run_well_formed tasks0 msgs) as Hwf.
  set (m := run msgs (NewModel tasks0)) in *. unfold View.
  destruct ((width m <? 60)%Z || (height m <? 10)%Z); [done|].
  destruct (displayedLeftLines_Some _ _ Hne Hwf) as [shown ->].
  destruct (index_Some (tasks m) (selected m) (selected_in_range _ _ Hne Hwf))
    as (sel & -> & _).
  by destruct (rightPane_Some m sel) as [pane ->].
Qed.

Lemma wrap_loop_pieces fuel w : ∀ line,
  (0 < w)%nat → (String.length line < fuel)%nat →
  dashboard.joined (wrap_loop fuel w line) = line
  ∧ Forall (λ p, 0 < String.length p ≤ w)%nat (wrap_loop fuel w line).
Proof.
  induction fuel as [|fuel IH]; intros line Hw Hfuel; [lia|]. cbn [wrap_loop].
  destruct (Nat.ltb_spec w (String.length line)) as [Hlong|Hshort].
  - destruct (IH (bufio.str_drop w line) Hw) as [Hjoin Hall].
    { rewrite str_drop_length. lia. }
    split.
    + unfold dashboard.joined in *. cbn [fold_right]. rewrite Hjoin.
      apply str_take_drop_append.
    + constructor; [|done]. rewrite str_take_length_le by lia. lia.
  - destruct (Nat.ltb_spec 0 (String.length line)) as [Hpos|Hzero].
    + split; [apply append_empty_r|]. constructor; [lia|done].
    + split; [|done]. destruct line; [done|]. simpl in Hzero. lia.
Qed.

Lemma wrapLine_fits w line :
  (0 < w)%nat →
  wrapLine w line ≠ [] ∧ Forall (λ p, String.length p ≤ w)%nat (wrapLine w line).
Proof.
  intros Hw. unfold wrapLine.
  destruct (Nat.leb_spec (String.length line) w) as [Hshort|Hlong].
  - split; [done|]. by constructor.
  - destruct (wrap_loop_pieces (S (String.length line)) w line Hw ltac:(lia)) as [_ Hall].
    split.
    + cbn [wrap_loop]. by destruct (Nat.ltb_spec w (String.length line)); [|lia].
    + eapply Forall_impl; [exact Hall|]. simpl. lia.
Qed.

(** X22. Wrapping a log line to the width of the pane loses nothing:
    the pieces put together are the line again, there is at least one piece,
    every piece fits the width, and no piece of a non-empty line is empty. *)
Theorem wrapLine_pieces (w : nat) (line : string) :
  (0 < w)%nat →
  dashboard.joined (wrapLine w line) = line
  ∧ wrapLine w line ≠ []
  ∧ Forall (λ p, String.length p ≤ w)%nat (wrapLine w line)
  ∧ (line ≠ "" → Forall (λ p, p ≠ "") (wrapLine w line)).
Proof.
  intros Hw. destruct (wrapLine_fits w line Hw) as [Hne Hfit].
  split; [|split; [done|split; [done|]]].
  - unfold wrapLine. destruct (Nat.leb_spec (String.length line) w) as [Hshort|Hlong].
    + apply append_empty_r.
    + by destruct (wrap_loop_pieces (S (String.length line)) w line Hw ltac:(lia)).
  - intros Hline. unfold wrapLine.
    destruct (Nat.leb_spec (String.length line) w) as [Hshort|Hlong].
    + by constructor.
    + destruct (wrap_loop_pieces (S (String.length line)) w line Hw ltac:(lia)) as [_ Hall].
      eapply Forall_impl; [exact Hall|]. intros p [Hp _] ->. simpl in Hp. lia.
Qed.

Lemma leftLines_selected m sel :
  (0 ≤ selected m)%Z → tasks m !! Z.to_nat (selected m) = Some sel →
  ∃ icon, leftLines m !! S (S (Z.to_nat (selected m))) = Some (TaskLine icon true sel).
Proof.
  intros H0 Hsel. unfold leftLines. eexists.
  rewrite lookup_cons_ne_0 by done. cbn [Nat.pred].
  rewrite lookup_cons_ne_0 by done. cbn [Nat.pred].
  rewrite list_lookup_imap, Hsel. simpl. f_equal. f_equal.
  apply bool_decide_eq_true. lia.
Qed.

Lemma index_inv {A} (l : list A) i x :
  index l i = Some x → (0 ≤ i < len l)%Z ∧ l !! Z.to_nat i = Some x.
Proof.
  unfold index. destruct (Z.leb_spec 0 i); [|done].
  destruct (Z.ltb_spec i (len l)); [|done]. simpl. intros Hx. by split; [lia|].
Qed.

Lemma slice_inv {A} (l shown : list A) lo hi :
  slice l lo hi = Some shown →
  (0 ≤ lo ≤ hi)%Z ∧ (hi ≤ len l)%Z
  ∧ shown = take (Z.to_nat (hi - lo)) (drop (Z.to_nat lo) l).
Proof.
  unfold slice. destruct (Z.leb_spec 0 lo); [|done].
  destruct (Z.leb_spec lo hi); [|done]. destruct (Z.leb_spec hi (len l)); [|done].
  simpl. intros [= <-]. by split; [lia|split; [lia|]].
Qed.

Lemma displayedLeftLines_inv m shown sel :
  (0 ≤ selected m < len (tasks m))%Z → tasks m !! Z.to_nat (selected m) = Some sel →
  displayedLeftLines m = Some shown →
  (∃ icon, TaskLine icon true sel ∈ shown)
  ∧ (len shown ≤ availableTaskHeight (height m) + 2)%Z.
Proof.
  intros Hrange Hsel. destruct (leftLines_selected m sel ltac:(lia) Hsel) as [icon Hicon].
  unfold displayedLeftLines.
  destruct (Z.ltb_spec (availableTaskHeight (height m) + 2) (len (leftLines m))) as [H|H].
  - pose proof (task_window_bounds (len (leftLines m)) (availableTaskHeight (height m))
                  (selected m) (availableTaskHeight_min _) H ltac:(lia)
                  ltac:(rewrite len_leftLines; lia)) as Hw.
    destruct (task_window _ _ _) as [a b]. destruct Hw as (Ha & Hb & Hab).
    destruct (slice (leftLines m) a b) as [win|] eqn:Hslice; [|done]. intros [= <-].
    apply slice_inv in Hslice as (_ & _ & ->). split.
    + exists icon. do 2 apply list_elem_of_further.
      apply (list_elem_of_lookup_2 _ (Z.to_nat (selected m + 2 - a))).
      rewrite lookup_take_lt by lia. rewrite lookup_drop.
      replace (Z.to_nat a + Z.to_nat (selected m + 2 - a))
        with (S (S (Z.to_nat (selected m)))) by lia. exact Hicon.
    + unfold len in *. simpl. rewrite length_take, length_drop. lia.
  - intros [= <-]. split; [|done]. exists icon. by eapply list_elem_of_lookup_2.
Qed.

Lemma wrappedLogs_fit m sel :
  Forall (λ l, Z.of_nat (String.length l) ≤ maxLineWidth (width m))%Z (wrappedLogs m sel)
  ∧ (filteredLogs (logs m) sel ≠ [] → wrappedLogs m sel ≠ []).
Proof.
  pose proof (maxLineWidth_min (width m)) as Hmin. unfold wrappedLogs. split.
  - apply Forall_flat_map, Forall_forall. intros line _.
    destruct (wrapLine_fits (Z.to_nat (maxLineWidth (width m))) line ltac:(lia)) as [_ H].
    eapply Forall_impl; [exact H|]. intros p Hp. simpl in Hp. lia.
  - destruct (filteredLogs (logs m) sel) as [|line rest]; [done|]. intros _. simpl.
    destruct (wrapLine_fits (Z.to_nat (maxLineWidth (width m))) line ltac:(lia)) as [H _].
    by destruct (wrapLine _ line).
Qed.

(** X23. Whatever [View] puts on the screen is about the selected task
    and fits the panes: the right pane is headed by the task under the
    selection, the line of that task is among the lines shown on the left
    however long the task list is, the left pane has at most
    [availableTaskHeight + 2] lines, and the log lines shown are at least one,
    at most [availableHeight], each at most [maxLineWidth] bytes wide, and with
    auto-scroll on they are the most recent ones. *)
Theorem View_shows_selection (m : Model) (shown : list left_line) (sel : string)
    (pane : right_pane) :
  View m = Some (Screen shown sel pane) →
  tasks m !! Z.to_nat (selected m) = Some sel
  ∧ (∃ icon, TaskLine icon true sel ∈ shown)
  ∧ (len shown ≤ availableTaskHeight (height m) + 2)%Z
  ∧ match pane with
    | LogLines lines =>
        lines ≠ []
        ∧ (len lines ≤ availableHeight (height m))%Z
        ∧ Forall (λ l, Z.of_nat (String.length l) ≤ maxLineWidth (width m))%Z lines
        ∧ (autoScroll m = true →
           lines = dashboard.last_n (Z.to_nat (availableHeight (height m)))
                     (wrappedLogs m sel))
    | _ => True
    end.
Proof.
  unfold View. destruct ((width m <? 60)%Z || (height m <? 10)%Z); [done|].
  destruct (displayedLeftLines m) as [shown'|] eqn:Hleft; [|done].
  destruct (index (tasks m) (selected m)) as [sel'|] eqn:Hidx; [|done].
  destruct (rightPane m sel') as [pane'|] eqn:Hright; [|done].
  intros [= <- <- <-]. apply index_inv in Hidx as [Hrange Hsel].
  destruct (displayedLeftLines_inv m shown' sel' Hrange Hsel Hleft) as [Hin Hlen].
  split; [done|]. split; [done|]. split; [done|].
  destruct pane' as [| | lines]; try done.
  unfold rightPane in Hright. destruct (len (logs m) =? 0)%Z; [done|].
  destruct (Z.eqb_spec (len (filteredLogs (logs m) sel')) 0) as [|Hfilt]; [done|].
  destruct (wrappedLogs_fit m sel') as [Hfit Hne].
  assert (0 < len (wrappedLogs m sel'))%Z as Hpos.
  { unfold len in *. destruct (wrappedLogs m sel'); [|simpl; lia].
    exfalso. apply Hne; [|done]. by destruct (filteredLogs (logs m) sel'). }
  pose proof (availableHeight_min (height m)) as Hmin.
  pose proof (log_window_bounds (len (wrappedLogs m sel'))
                (availableHeight (height m)) (autoScroll m) (logOffset m)
                ltac:(lia) ltac:(lia)) as Hw.
  destruct (log_window _ _ _ _) as [a b]. destruct Hw as (Ha & Hb & Hab & Hauto).
  destruct (slice (wrappedLogs m sel') a b) as [win|] eqn:Hslice; [|done].
  injection Hright as <-. apply slice_inv in Hslice as (_ & _ & ->).
  assert (length (take (Z.to_nat (b - a)) (drop (Z.to_nat a) (wrappedLogs m sel')))
          = Z.to_nat (b - a)) as Hlen'.
  { rewrite length_take, length_drop. unfold len in *. lia. }
  split; [|split; [|split]].
  - intros Hnil. rewrite Hnil in Hlen'. simpl in Hlen'. lia.
  - unfold len. rewrite Hlen'. lia.
  - by apply Forall_take, Forall_drop.
  - intros Hscroll. specialize (Hauto Hscroll). subst b. unfold dashboard.last_n.
    rewrite take_ge by (rewrite length_drop; unfold len in *; lia).
    f_equal. unfold len in *. lia.
Qed.

Lemma prefix_cons a b (s1 s2 : string) :
  String.prefix (String a s1) (String b s2)
  = if ascii_dec a b then String.prefix s1 s2 else false.
Proof. done. Qed.

Lemma prefix_app (p x : string) : String.prefix p (p +:+ x) = true.
Proof.
  induction p as [|ch p IH]; [by destruct x|].
  rewrite append_cons, prefix_cons. by destruct (ascii_dec ch ch).
Qed.

Lemma prefix_until_bracket (sel t rest : string) :
  no_bracket sel → no_bracket t →
  String.prefix (sel +:+ "]") (t +:+ String "]" rest) = true → sel = t.
Proof.
  unfold no_bracket. revert t. induction sel as [|a sel IH]; intros [|b t] Hsel Ht.
  - done.
  - rewrite append_cons. change ("" +:+ "]") with "]". rewrite prefix_cons.
    cbn [list_ascii_of_string] in Ht. apply Forall_cons_1 in Ht as [Hb _].
    by destruct (ascii_dec "]" b) as [<-|].
  - rewrite append_cons. change ("" +:+ String "]" rest) with (String "]" rest).
    rewrite prefix_cons.
    cbn [list_ascii_of_string] in Hsel. apply Forall_cons_1 in Hsel as [Ha _].
    by destruct (ascii_dec a "]") as [->|].
  - rewrite !append_cons, prefix_cons. cbn [list_ascii_of_string] in Hsel, Ht.
    apply Forall_cons_1 in Hsel as [_ Hsel]. apply Forall_cons_1 in Ht as [_ Ht].
    destruct (ascii_dec a b) as [->|]; [|done]. intros H. by rewrite (IH t Hsel Ht H).
Qed.

Lemma formatted_logMsg (evs : list LogEvent) :
  formatted (map logMsg evs) = map (λ ev, "[" +:+ Task ev +:+ "] " +:+ Line ev) evs.
Proof. induction evs as [|ev evs IH]; [done|]. unfold formatted in *. simpl. by rewrite IH. Qed.

(** X24. Formatting a log event and filtering the log by a task are
    inverse to each other when task names hold no "]": the lines the right
    pane takes for the selected task are the lines of exactly the events of
    that task, in their order and without the prefix. *)
Theorem filteredLogs_round_trip (evs : list LogEvent) (sel : string) :
  no_bracket sel → Forall (λ ev, no_bracket (Task ev)) evs →
  filteredLogs (formatted (map logMsg evs)) sel
  = map Line (List.filter (λ ev, String.eqb (Task ev) sel) evs).
Proof.
  intros Hsel Hall. rewrite formatted_logMsg.
  induction Hall as [|ev evs Hev _ IH]; [done|]. cbn [map filteredLogs flat_map List.filter].
  fold (filteredLogs (map (λ ev, "[" +:+ Task ev +:+ "] " +:+ Line ev) evs) sel).
  rewrite IH. clear IH.
  destruct (String.eqb_spec (Task ev) sel) as [Heq|Hne].
  - rewrite Heq. unfold HasPrefix, TrimPrefix, HasPrefix.
    assert ("[" +:+ sel +:+ "] " +:+ Line ev
            = ("[" +:+ sel +:+ "]") +:+ " " +:+ Line ev) as E1.
    { rewrite !append_assoc. reflexivity. }
    assert ("[" +:+ sel +:+ "] " +:+ Line ev
            = ("[" +:+ sel +:+ "] ") +:+ Line ev) as E2.
    { rewrite !append_assoc. reflexivity. }
    rewrite E1 at 1. rewrite prefix_app. rewrite E2.
    rewrite prefix_app, str_drop_app by done. by rewrite str_drop_all.
  - unfold HasPrefix.
    destruct (String.prefix ("[" +:+ sel +:+ "]") ("[" +:+ Task ev +:+ "] " +:+ Line ev))
      eqn:Hp; [|done].
    exfalso. apply Hne. symmetry.
    change ("[" +:+ sel +:+ "]") with (String "[" (sel +:+ "]")) in Hp.
    change ("[" +:+ Task ev +:+ "] " +:+ Line ev)
      with (String "[" (Task ev +:+ String "]" (" " +:+ Line ev))) in Hp.
    rewrite prefix_cons in Hp. destruct (ascii_dec "[" "[") as [_|]; [|done].
    by apply (prefix_until_bracket sel (Task ev) (" " +:+ Line ev)).
Qed.

End Dashboard.

Section CommandLineToSupervisor.
Import config cli prun validity.

Lemma needsWatcher_shouldWatch (w : bool) (cfg : Config) (tasksToRun : list string) :
  tasksToRun ≠ [] →
  needsWatcher w cfg tasksToRun = true
  ↔ ∃ taskName, taskName ∈ tasksToRun ∧ watcher.shouldWatch cfg w taskName = true.
Proof.
  intros Hne. unfold needsWatcher, watcher.shouldWatch. split.
  - intros [Hw | Hex]%orb_true_iff.
    + destruct tasksToRun as [|t rest]; [done|]. exists t.
      split; [apply list_elem_of_here | by rewrite Hw].
    + apply existsb_exists in Hex as (t & Hin & Ht). exists t.
      split; [by apply list_elem_of_In | by rewrite Ht, orb_true_r].
  - intros (t & Hin & [Hw | Ht]%orb_true_iff); apply orb_true_iff; [by left | right].
    apply existsb_exists. exists t. split; [by apply list_elem_of_In | done].
Qed.

(** X25. Whenever [main] gets as far as starting tasks, the manifest it
    loaded is a valid one, the run set is not empty, every task of it is
    defined with a non-empty command, and the watcher is used exactly when
    some task of the run set is watched (by the [-w] flag or by its own
    [watch] key); with the plain runner no task of the run set is watched. *)
Theorem main_launches_runnable_tasks (fs : files) (newWatcher : option error)
    (args : list string) (i needs : bool) (cfg : Config) (tasksToRun : list string)
    (v w : bool) :
  main fs newWatcher args = Launch i needs cfg tasksToRun v w →
  valid cfg
  ∧ tasksToRun ≠ []
  ∧ Forall (runnable cfg) tasksToRun
  ∧ (needs = true
     ↔ ∃ taskName, taskName ∈ tasksToRun ∧ watcher.shouldWatch cfg w taskName = true)
  ∧ (needs = true → newWatcher = None).
Proof.
  unfold main. destruct (Parse formal defaults args) as [f positional | msg]; [|done].
  destruct (showHelp f); [done|].
  destruct (fs !! configPath f) as [data|]; [|done].
  destruct (Load fs (configPath f)) as [c|err] eqn:Hload; [|done].
  destruct (list_ f); [done|].
  destruct (GetTasksToRun c positional) as [ts|err] eqn:Hget; [|done].
  destruct (Nat.eqb_spec (length ts) 0) as [Hlen|Hlen]; [done|].
  destruct (needsWatcher (watch f) c ts) eqn:Hneeds.
  - destruct newWatcher as [err|]; [done|]. intros [= <- <- <- <- <- <-].
    pose proof (Load_Ok_valid _ _ _ Hload) as Hvalid.
    assert (ts ≠ []) as Hne by (by destruct ts).
    split; [done|]. split; [done|].
    split; [by eapply GetTasksToRun_Ok_defined|].
    split; [|done]. split; [|done]. intros _. by apply needsWatcher_shouldWatch.
  - intros [= <- <- <- <- <- <-].
    pose proof (Load_Ok_valid _ _ _ Hload) as Hvalid.
    assert (ts ≠ []) as Hne by (by destruct ts).
    split; [done|]. split; [done|].
    split; [by eapply GetTasksToRun_Ok_defined|].
    split; [|done]. split; [done|]. intros Hex.
    apply needsWatcher_shouldWatch in Hex; [congruence | done].
Qed.

End CommandLineToSupervisor.

Lemma View_never_panics_witness :
  is_Some (ui.View (ui.run screens.two_lines (ui.NewModel ["app"; "db"]))).
Proof. by apply (View_never_panics ["app"; "db"] screens.two_lines). Defined.

Lemma wrapLine_pieces_witness :
  dashboard.joined (ui.wrapLine 10 "listening on port 8080") = "listening on port 8080"
  ∧ ui.wrapLine 10 "listening on port 8080" ≠ []
  ∧ Forall (λ p, String.length p ≤ 10)%nat (ui.wrapLine 10 "listening on port 8080")
  ∧ ("listening on port 8080" ≠ "" →
     Forall (λ p, p ≠ "") (ui.wrapLine 10 "listening on port 8080")).
Proof. apply (wrapLine_pieces 10 "listening on port 8080"). lia. Defined.

Lemma View_shows_selection_witness :
  let m := ui.run screens.two_lines (ui.NewModel ["app"; "db"]) in
  ui.tasks m !! Z.to_nat (ui.selected m) = Some "db"
  ∧ (∃ icon, ui.TaskLine icon true "db" ∈ screens.db_selected)
  ∧ (ui.len screens.db_selected ≤ ui.availableTaskHeight (ui.height m) + 2)%Z
  ∧ (["ready"] ≠ []
     ∧ (ui.len ["ready"] ≤ ui.availableHeight (ui.height m))%Z
     ∧ Forall (λ l, Z.of_nat (String.length l) ≤ ui.maxLineWidth (ui.width m))%Z ["ready"]
     ∧ (ui.autoScroll m = true →
        ["ready"] = dashboard.last_n (Z.to_nat (ui.availableHeight (ui.height m)))
                      (ui.wrappedLogs m "db"))).
Proof.
  apply (View_shows_selection (ui.run screens.two_lines (ui.NewModel ["app"; "db"]))
           screens.db_selected "db" (ui.LogLines ["ready"])).
  vm_compute. reflexivity.
Defined.

Lemma filteredLogs_round_trip_witness :
  ui.filteredLogs
    (ui.formatted (map ui.logMsg [ui.mkLogEvent "app" "listening" false;
                                  ui.mkLogEvent "db" "ready" false])) "app"
  = map ui.Line
      (List.filter (λ ev, String.eqb (ui.Task ev) "app")
         [ui.mkLogEvent "app" "listening" false; ui.mkLogEvent "db" "ready" false]).
Proof.
  apply (filteredLogs_round_trip
           [ui.mkLogEvent "app" "listening" false; ui.mkLogEvent "db" "ready" false] "app").
  - by repeat constructor.
  - by repeat constructor.
Defined.

Lemma main_launches_runnable_tasks_witness :
  validity.valid samples.restart_cfg
  ∧ ["app"] ≠ []
  ∧ Forall (validity.runnable samples.restart_cfg) ["app"]
  ∧ (true = true
     ↔ ∃ taskName, taskName ∈ ["app"]
                   ∧ watcher.shouldWatch samples.restart_cfg true taskName = true)
  ∧ (true = true → (None : option error) = None).
Proof.
  apply (main_launches_runnable_tasks samples.restart_files None ["-w"; "-i"; "app"]
           true true samples.restart_cfg ["app"] false true).
  vm_compute. reflexivity.
Defined.

Section Commands.
Import config runner.

(** X26. The child of a task inherits the supervisor's environment and
    gets the task's variables after it, one [key=value] entry for each
    variable of the manifest and nothing else; it runs in the task's [path]
    (in the supervisor's directory when there is none) and always in a
    process group of its own. *)
Theorem runTask_cmd_environment (environ : list string) (taskDef : TaskDef) :
  environ `prefix_of` cmd_Env (runTask_cmd environ taskDef)
  ∧ length (cmd_Env (runTask_cmd environ taskDef)) = (length environ + size (Env taskDef))%nat
  ∧ (∀ entry, entry ∈ cmd_Env (runTask_cmd environ taskDef)
              ↔ entry ∈ environ
                ∨ ∃ k v, Env taskDef !! k = Some v ∧ entry = k +:+ "=" +:+ v)
  ∧ Dir (runTask_cmd environ taskDef) = Path taskDef
  ∧ Setpgid (runTask_cmd environ taskDef) = true.
Proof.
  unfold runTask_cmd. cbn [cmd_Env Dir Setpgid]. split; [|split; [|split; [|split]]].
  - by eexists.
  - by rewrite length_app, length_map, length_map_to_list.
  - intros entry. rewrite elem_of_app, list_elem_of_fmap. split.
    + intros [H | ([k v] & -> & Hin)]; [by left|]. right. exists k, v.
      split; [by apply elem_of_map_to_list | done].
    + intros [H | (k & v & Hkv & ->)]; [by left|]. right. exists (k, v).
      split; [done | by apply elem_of_map_to_list].
  - destruct (String.eqb_spec (Path taskDef) "") as [->|_]; [|done].
    by destruct (useShell taskDef).
  - done.
Qed.

End Commands.

Section Elements.
Import filepath.

Lemma take_elem_no_separator cs :
  Forall (λ ch, IsPathSeparator ch = false) (take_elem cs).
Proof.
  induction cs as [|ch cs IH]; simpl; [done|].
  destruct (IsPathSeparator ch) eqn:Hch; [done|]. by constructor.
Qed.

Lemma list_ascii_of_string_of_list cs :
  list_ascii_of_string (string_of_list_ascii cs) = cs.
Proof. induction cs as [|ch cs IH]; simpl; [done|]. by rewrite IH. Qed.

(** X27. [Base] always returns one path element: never the empty string
    (so [base[0]] in [addWatchRecursive] cannot be out of range), and either
    the single separator or a name without any separator in it. *)
Theorem Base_is_an_element (path : string) :
  Base path ≠ ""
  ∧ (Base path = "/"
     ∨ Forall (λ ch, IsPathSeparator ch = false) (list_ascii_of_string (Base path))).
Proof.
  unfold Base. destruct (String.eqb path ""); [split; [done|]; right; by repeat constructor|].
  set (elem := take_elem (drop_seps (rev (list_ascii_of_string path)))).
  pose proof (take_elem_no_separator (drop_seps (rev (list_ascii_of_string path)))) as Hno.
  fold elem in Hno. destruct (rev elem) as [|ch last] eqn:Hrev; [split; [done | by left]|].
  split; [done|]. right. rewrite list_ascii_of_string_of_list, <- Hrev.
  by apply Forall_rev.
Qed.

End Elements.

Section PositionalArguments.
Import cli.

Lemma Parse_suffix fset n : ∀ f args f' positional,
  (length args ≤ n)%nat →
  Parse fset f args = Parsed f' positional → positional `suffix_of` args.
Proof.
  induction n as [|n IH]; intros f args f' positional Hlen.
  - destruct args; [|simpl in Hlen; lia]. by intros [= <- <-].
  - destruct args as [|s rest]; [by intros [= <- <-]|]. simpl in Hlen.
    assert (∀ g, Parse fset g rest = Parsed f' positional →
                 positional `suffix_of` s :: rest) as Hrest.
    { intros g Hg. apply suffix_cons_r. apply (IH g rest f' positional); [lia | done]. }
    cbn [Parse].
    destruct s as [|c0 [|c1 tl1]].
    { by intros [= <- <-]. }
    { destruct c0 as [[] [] [] [] [] [] [] []]; by intros [= <- <-]. }
    destruct c0 as [[] [] [] [] [] [] [] []]; try (by intros [= <- <-]).
    + 
      destruct (Ascii.eqb c1 "-" && String.eqb tl1 "").
      { intros [= <- <-]. by apply suffix_cons_r. }
      destruct (if Ascii.eqb c1 "-" then tl1 else String c1 tl1) as [|b0 body]; [done|].
      destruct (Ascii.eqb b0 "-" || Ascii.eqb b0 "="); [done|].
      destruct (name_value (String b0 body)) as [name value].
      destruct (lookup_flag fset name) as [v|]; [|done].
      destruct (IsBoolFlag v).
      * destruct value as [val|]; [destruct (ParseBool val); [|done]|]; apply Hrest.
      * destruct value as [val|]; [apply Hrest|].
        destruct rest as [|val rest']; [done|]. intros Hg.
        do 2 apply suffix_cons_r.
        apply (IH (set_string f v val) rest' f' positional); [simpl in Hlen; lia | done].
Qed.

(** X28. [flag.Parse] hands [main] the task names as they were typed:
    the positional arguments are a tail of the command line, in the same
    order and with nothing changed or left out in between. *)
Theorem Parse_positional_is_tail (f f' : flags) (args positional : list string) :
  Parse formal f args = Parsed f' positional → positional `suffix_of` args.
Proof. apply (Parse_suffix formal (length args) f args f'). done. Qed.

End PositionalArguments.

Lemma Parse_positional_is_tail_witness : ["app"; "-v"] `suffix_of` ["-w"; "app"; "-v"].
Proof.
  apply (Parse_positional_is_tail cli.defaults
           (cli.mkFlags "prun.toml" false false false false true)
           ["-w"; "app"; "-v"] ["app"; "-v"]).
  reflexivity.
Defined.
